(** * RAG101: retrieval fusion, parent/child retrieval, query expansion, reranking

    A shallow embedding of the retrieval core of the repository:
    - [EnsembleRetriever] (src/EnsembleRetriever.py): rank-based weighted fusion;
    - [InMemoryStore] and [ParentDocumentRetriever] (src/InMemoryStore.py);
    - [MultiQueryRetriever._generate_queries] (src/MultiQueryRetriever.py) and
      [expand_query] (src/RAG_Workbench/backend/rag_core.py);
    - [rerank_documents] (src/RAG_Workbench/backend/rag_core.py).

    Modelling conventions.
    - The scores and weights of the fusion combiner are Python [float]s, that
      is IEEE 754 binary64 numbers: they are values of [spec_float], and
      division, multiplication and addition are the correctly rounded
      operations of the standard library's [SpecFloat] at precision 53,
      with infinities, signed zeros and NaN.
    - The relevance scores of the reranker are only compared with each
      other, never computed with: they are modelled by the rationals [Q], a
      NaN score apart.
    - [sorted] arranges a list by its keys alone: the arrangement of the
      fused scores is a parameter [sort_order], of which only what Python
      promises is assumed ([python_sort]): it is a permutation, and the
      stable descending order when no key is NaN.
    - A call that may raise returns an [outcome]: [Returned v] or [Raised e].
    - Python's built-in [hash] on strings is a parameter [hash : string -> Z].
    - An insertion-ordered [dict] whose order is observed is an association
      list; a [dict] used only through lookups is a [gmap].
    - Strings are sequences of one-byte characters. *)

From Stdlib Require Import ZArith QArith Qround Qpower Lia Lqa Permutation Sorted.
From Stdlib Require Import Floats.SpecFloat.
From stdpp Require Import gmap strings list pretty.

Local Open Scope Z_scope.
Set Warnings "-clear-no-such-hyp".

(** ** Exceptions and outcomes *)

Inductive exn : Type :=
  | ValueError (msg : string)
  | ZeroDivisionError
  | IndexError
  | IngestionError
  | ConsistencyError
  | BackendUnavailable (msg : string).

Inductive outcome (A : Type) : Type :=
  | Returned (a : A)
  | Raised (e : exn).

Arguments Returned {A} a.
Arguments Raised {A} e.

Definition bind {A B : Type} (o : outcome A) (k : A -> outcome B) : outcome B :=
  match o with
  | Returned a => k a
  | Raised e => Raised e
  end.

Notation "'let?' x := o 'in' k" := (bind o (fun x => k))
  (at level 10, x name, o at level 100, k at level 200).

Definition returns {A : Type} (o : outcome A) : Prop :=
  match o with Returned _ => True | Raised _ => False end.

(** ** Documents and inputs *)

(** [langchain_core.documents.Document]: text plus a metadata mapping. *)
Record Document : Type := mkDocument {
  page_content : string;
  metadata : gmap string string
}.

(** The argument of [invoke]: a query string, or a dict probed for the keys
    ["question"] and ["input"]. *)
Inductive input : Type :=
  | InputStr (s : string)
  | InputDict (d : gmap string string).

(** [input.get("question", input.get("input", ""))], or [str(input)]. *)
Definition query_of_input (i : input) : string :=
  match i with
  | InputStr s => s
  | InputDict d => default (default "" (d !! "input")) (d !! "question")
  end.

(** A retrieval back-end: [retriever.invoke(query)]. *)
Definition retriever : Type := string -> outcome (list Document).

(** ** Python list helpers *)

(** [enumerate(l)], counting from [n]. *)
Fixpoint enumerate_from {A : Type} (n : nat) (l : list A) : list (nat * A) :=
  match l with
  | [] => []
  | x :: l' => (n, x) :: enumerate_from (S n) l'
  end.

Definition enumerate {A : Type} (l : list A) : list (nat * A) := enumerate_from 0 l.

(** [l[:k]] for any integer [k]: a negative [k] counts from the end. *)
Definition slice_to {A : Type} (k : Z) (l : list A) : list A :=
  if 0 <=? k then firstn (Z.to_nat k) l
  else firstn (length l - Z.to_nat (- k)) l.

(** ** Stable descending sort

    [sorted(xs, key=key, reverse=True)] and [xs.sort(key=key, reverse=True)]:
    Python's sort is stable, and [reverse=True] keeps elements with equal keys
    in their original order. *)

Section StableSort.
Context {A : Type}.
Variable key : A -> Q.

(** [x] comes from earlier in the input than every element of [l]: it is
    placed before the first element whose key is not strictly greater. *)
Fixpoint insert_desc (x : A) (l : list A) : list A :=
  match l with
  | [] => [x]
  | y :: l' =>
      if Qle_bool (key y) (key x) then x :: y :: l'
      else y :: insert_desc x l'
  end.

Fixpoint sorted_desc (l : list A) : list A :=
  match l with
  | [] => []
  | x :: l' => insert_desc x (sorted_desc l')
  end.

(** Non-increasing keys. *)
Definition desc (x y : A) : Prop := (key y <= key x)%Q.

(** The elements of [l] whose key equals [q], in the order of [l]. *)
Definition with_key (q : Q) (l : list A) : list A :=
  List.filter (fun x => Qeq_bool (key x) q) l.
End StableSort.

(** ** Python floats: IEEE 754 binary64 *)

Module Float.

Definition float : Type := spec_float.

Definition prec : Z := 53.
Definition emax : Z := 1024.

(** [float(z)] for an integer [z]: the nearest double. *)
Definition of_Z (z : Z) : float := binary_normalize prec emax z 0 false.

(** [x + y], [x * y], [x / y], each rounded to the nearest double, ties to
    even. *)
Definition add : float -> float -> float := SFadd prec emax.
Definition mul : float -> float -> float := SFmul prec emax.
Definition div : float -> float -> float := SFdiv prec emax.

(** An integer as a mantissa with exponent 0: the integer itself, whatever
    its size. *)
Definition exact_Z (z : Z) : float :=
  match z with
  | Z0 => S754_zero false
  | Z.pos p => S754_finite false p 0
  | Z.neg p => S754_finite true p 0
  end.

(** [a / b] for integers [a] and [b <> 0]: Python divides the integers
    themselves and rounds their quotient once, to the nearest double. *)
Definition div_Z (a b : Z) : float := SFdiv prec emax (exact_Z a) (exact_Z b).

(** The doubles: the values of [spec_float] whose mantissa and exponent
    are in range. *)
Definition valid (x : float) : bool := valid_binary prec emax x.

(** [x < y], [x <= y], [x == y]: all three are [False] when an operand is
    NaN. *)
Definition ltb : float -> float -> bool := SFltb.
Definition leb : float -> float -> bool := SFleb.
Definition eqb : float -> float -> bool := SFeqb.

Definition is_nan (x : float) : bool :=
  match x with
  | S754_nan => true
  | _ => false
  end.

(** The literals [0.0], [1.0] and [0.5], and [float("nan")]. *)
Definition zero : float := S754_zero false.
Definition one : float := S754_finite false 4503599627370496 (-52).
Definition half : float := S754_finite false 4503599627370496 (-53).
Definition nan : float := S754_nan.

(** The rational number a finite double stands for ([0] for the others). *)
Definition to_Q (x : float) : Q :=
  match x with
  | S754_finite s m e =>
      ((if s then - (1) else 1) * inject_Z (Z.pos m) * 2 ^ e)%Q
  | _ => 0%Q
  end.
End Float.

(** ** Sorting by a float key

    [sorted(xs, key=key, reverse=True)] computes the keys first and then
    compares keys only, with [<]. Python promises a stable sort: when [<]
    orders the keys, that is when none of them is NaN, the result is in
    descending order of key and elements with equal keys keep their
    original order. With a NaN among the keys the result is some
    rearrangement of the list, fixed by the keys alone. *)

Section FloatSort.
Context {A : Type}.
Variable key : A -> Float.float.

(** [x] comes from earlier in the input than every element of [l]: it is
    placed before the first element whose key is not strictly greater. *)
Fixpoint insert_stable (x : A) (l : list A) : list A :=
  match l with
  | [] => [x]
  | y :: l' =>
      if Float.ltb (key x) (key y) then y :: insert_stable x l'
      else x :: y :: l'
  end.

(** The stable descending arrangement of [l]. *)
Fixpoint stable_desc (l : list A) : list A :=
  match l with
  | [] => []
  | x :: l' => insert_stable x (stable_desc l')
  end.

(** Non-increasing keys: [key y <= key x]. *)
Definition fdesc (x y : A) : Prop := Float.leb (key y) (key x) = true.

(** The elements of [l] whose key equals [q], in the order of [l]. *)
Definition with_score (q : Float.float) (l : list A) : list A :=
  List.filter (fun x => Float.eqb (key x) q) l.
End FloatSort.

(** The elements of [xs] at the positions [order], in that order. *)
Definition arrange {A : Type} (order : list nat) (xs : list A) : list A :=
  omap (fun i => xs !! i) order.

(** The positions of [keys] in stable descending order. *)
Definition stable_order (keys : list Float.float) : list nat :=
  map fst (stable_desc snd (enumerate keys)).

(** [sorted(xs, key=key, reverse=True)], where [sort_order keys] is the
    order in which Python's sort arranges the positions of a list with the
    given keys. *)
Definition sorted_reverse {A : Type} (sort_order : list Float.float -> list nat)
    (key : A -> Float.float) (xs : list A) : list A :=
  arrange (sort_order (map key xs)) xs.

(** What Python promises of its sort: the result is a rearrangement of the
    list, *)
Definition permutes (sort_order : list Float.float -> list nat) : Prop :=
  forall keys : list Float.float, sort_order keys ≡ₚ seq 0 (length keys).

(** and it is the stable descending one when no key is NaN. *)
Definition python_sort (sort_order : list Float.float -> list nat) : Prop :=
  permutes sort_order
  /\ forall keys : list Float.float,
       Forall (fun k => Float.is_nan k = false) keys ->
       sort_order keys = stable_order keys.

(** The place of a float in the order of [<]: the floats that are not NaN
    are ordered as their places are, lexicographically. *)
Definition place (x : Float.float) : Z * Z * Z :=
  match x with
  | S754_infinity true => (-2, 0, 0)
  | S754_finite true m e => (-1, - e, Zneg m)
  | S754_zero _ => (0, 0, 0)
  | S754_finite false m e => (1, e, Zpos m)
  | S754_infinity false => (2, 0, 0)
  | S754_nan => (3, 0, 0)
  end.

Definition lex (a b : Z * Z * Z) : comparison :=
  match a.1.1 ?= b.1.1 with
  | Eq => match a.1.2 ?= b.1.2 with
          | Eq => a.2 ?= b.2
          | c => c
          end
  | c => c
  end.

Definition lex_le (a b : Z * Z * Z) : Prop :=
  a.1.1 < b.1.1
  \/ (a.1.1 = b.1.1 /\ (a.1.2 < b.1.2 \/ (a.1.2 = b.1.2 /\ a.2 <= b.2))).

(** ** Rounding to the nearest double

    The definitions below describe what [SpecFloat]'s rounding computes,
    in terms of the number being rounded; they serve to state that
    rounding, and with it the division and the multiplication of the rank
    score, is monotone. *)

(** [2 * floor z], plus one when [z] is not an integer: the position of
    [z] among the integers and the gaps between them. *)
Definition sticky (z : Q) : Z :=
  2 * Qfloor z + (if Qeq_bool (inject_Z (Qfloor z)) z then 0 else 1).

(** The content of a shift register: mantissa, round bit and sticky bit. *)
Definition code_of (mrs : shr_record) : Z :=
  4 * shr_m mrs + 2 * Z.b2z (shr_r mrs) + Z.b2z (shr_s mrs).

(** One shift to the right, on codes. *)
Definition halve (c : Z) : Z := 2 * (c / 4) + (if c mod 4 =? 0 then 0 else 1).

(** Rounding to nearest, ties to even, on codes. *)
Definition rne_code (c : Z) : Z :=
  let m := c / 4 in
  let k := c mod 4 in
  if k <=? 1 then m
  else if k =? 2 then (if Z.even m then m else m + 1)
  else m + 1.

(** [mrs] holds the non-negative number [u]. *)
Definition represents (u : Q) (mrs : shr_record) : Prop :=
  0 <= shr_m mrs /\ code_of mrs = sticky (2 * u).

(** The mantissa of the double nearest to [X], at exponent [e]. *)
Definition nearest (X : Q) (e : Z) : Z := rne_code (sticky (2 * (X / 2 ^ e))).

(** The double with mantissa [n] and exponent [e], after the carry of a
    mantissa [2^53] and the overflow to infinity. *)
Definition finish (n e : Z) : spec_float :=
  if n =? 0 then S754_zero false
  else if n =? 2 ^ 53
       then (if e + 1 <=? 971 then S754_finite false (Z.to_pos (2 ^ 52)) (e + 1)
             else S754_infinity false)
       else (if e <=? 971 then S754_finite false (Z.to_pos n) e
             else S754_infinity false).

(** A mantissa and an exponent the rounding can produce. *)
Definition rounded (n e : Z) : Prop :=
  0 <= n <= 2 ^ 53 /\ -1074 <= e /\ (2 ^ 52 <= n \/ e = -1074).

(** ** Retrieval fusion combiner (src/EnsembleRetriever.py) *)

Module Ensemble.

Record EnsembleRetriever : Type := mkEnsemble {
  retrievers : list retriever;
  weights : list Float.float
}.

(** [EnsembleRetriever.__init__]; the default weight is
    [1.0 / len(retrievers)]. *)
Definition init (rs : list retriever) (ws : option (list Float.float))
  : outcome EnsembleRetriever :=
  let? ws1 :=
    match ws with
    | None =>
        if (length rs =? 0)%nat then Raised ZeroDivisionError
        else Returned
               (replicate (length rs)
                  (Float.div Float.one (Float.of_Z (Z.of_nat (length rs)))))
    | Some w => Returned w
    end in
  if (length ws1 =? length rs)%nat
  then Returned (mkEnsemble rs ws1)
  else Raised (ValueError ("Number of weights (" +:+ pretty (length ws1)
                           +:+ ") must match number of retrievers ("
                           +:+ pretty (length rs) +:+ ")")).

(** The score given to the document at [rank] in a list of [num_docs]
    documents: [((num_docs - rank) / num_docs) * weight]. The quotient of
    the two integers is the double nearest to it, and the product is
    rounded again. The loop computes it for [rank < num_docs] only, so
    [num_docs] is never zero. *)
Definition rank_score (num_docs rank : nat) (weight : Float.float) : Float.float :=
  Float.mul (Float.div_Z (Z.of_nat num_docs - Z.of_nat rank) (Z.of_nat num_docs))
            weight.

(** The two dictionaries of [invoke]: [all_doc_scores] is a
    [defaultdict(float)], [all_docs] an insertion-ordered [dict]. *)
Record acc : Type := mkAcc {
  all_doc_scores : gmap Z Float.float;
  all_docs : list (Z * Document)
}.

Definition acc0 : acc := mkAcc ∅ [].

(** [all_doc_scores[h]], with the [defaultdict] default [0.0]. *)
Definition score_of (a : acc) (h : Z) : Float.float :=
  default Float.zero (all_doc_scores a !! h).

(** [h in all_docs]. *)
Definition seen (h : Z) (docs : list (Z * Document)) : bool :=
  existsb (fun kv => fst kv =? h) docs.

(** [if doc_hash not in all_docs: all_docs[doc_hash] = doc]. *)
Definition store_if_new (h : Z) (doc : Document) (docs : list (Z * Document))
  : list (Z * Document) :=
  if seen h docs then docs else docs ++ [(h, doc)].

(** [kv]'s fingerprint is not yet a key of [docs]. *)
Definition unseen (docs : list (Z * Document)) (kv : Z * Document) : bool :=
  negb (seen (fst kv) docs).

(** The contribution of the document at [rank] in a list of [m] documents:
    the double [((m - rank) / m) * weight]. *)
Definition contribution (weight : Float.float) (m rank : nat) : Float.float :=
  Float.mul (Float.div_Z (Z.of_nat m - Z.of_nat rank) (Z.of_nat m)) weight.

(** The double sum of [cs], added from left to right to [0.0]. *)
Definition total (cs : list Float.float) : Float.float :=
  fold_left Float.add cs Float.zero.

(** *** The sums of the specification, in exact arithmetic

    For comparison with the scores [invoke] accumulates: the rational
    number [weight * (m - rank) / m] and the exact sums of these. *)

Definition exact_contribution (weight : Float.float) (m rank : nat) : Q :=
  (Float.to_Q weight * inject_Z (Z.of_nat m - Z.of_nat rank)
   / inject_Z (Z.of_nat m))%Q.

(** *** Fusion without fingerprints

    A reference for comparison with [invoke]: documents are identified by
    their content itself, so no hash value appears anywhere. *)

(** The contributions, in order, of the ranked documents of one list whose
    content is [c]. *)
Fixpoint ranked_contributions_by_content (c : string) (weight : Float.float) (m : nat)
    (rds : list (nat * Document)) : list Float.float :=
  match rds with
  | [] => []
  | (rank, doc) :: rest =>
      (if String.eqb (page_content doc) c then [contribution weight m rank] else [])
      ++ ranked_contributions_by_content c weight m rest
  end.

Fixpoint contributions_by_content (c : string)
    (results : list (list Document * Float.float)) : list Float.float :=
  match results with
  | [] => []
  | (docs, weight) :: rest =>
      ranked_contributions_by_content c weight (length docs) (enumerate docs)
      ++ contributions_by_content c rest
  end.

(** The first document observed for each content, in the order of first
    observation. *)
Fixpoint first_by_content (docs : list Document) : list Document :=
  match docs with
  | [] => []
  | doc :: rest =>
      doc :: List.filter
               (fun d => negb (String.eqb (page_content d) (page_content doc)))
               (first_by_content rest)
  end.

(** The first-observed documents sorted by the double sum of their
    contributions. *)
Definition fused_by_content (sort_order : list Float.float -> list nat)
    (results : list (list Document * Float.float)) : list Document :=
  sorted_reverse sort_order
    (fun d => total (contributions_by_content (page_content d) results))
    (first_by_content (concat (map fst results))).

Section WithHash.
Variable hash : string -> Z.
(** The order in which Python's sort arranges a list with given keys. *)
Variable sort_order : list Float.float -> list nat.

(** [hash] separates the contents of the documents of [docs]. *)
Definition collision_free (docs : list Document) : Prop :=
  forall d d' : Document,
    d ∈ docs -> d' ∈ docs ->
    hash (page_content d) = hash (page_content d') -> page_content d = page_content d'.

(** The fingerprint of a document. *)
Definition fingerprint (doc : Document) : Z := hash (page_content doc).

(** The contributions, in order, of the ranked documents of one list
    (of [m] documents) whose fingerprint is [h]. *)
Fixpoint ranked_contributions (h : Z) (weight : Float.float) (m : nat)
    (rds : list (nat * Document)) : list Float.float :=
  match rds with
  | [] => []
  | (rank, doc) :: rest =>
      (if fingerprint doc =? h then [contribution weight m rank] else [])
      ++ ranked_contributions h weight m rest
  end.

(** The contributions to [h] of all result lists with their weights, in
    the order in which the documents are observed. *)
Fixpoint contributions (h : Z) (results : list (list Document * Float.float))
  : list Float.float :=
  match results with
  | [] => []
  | (docs, weight) :: rest =>
      ranked_contributions h weight (length docs) (enumerate docs)
      ++ contributions h rest
  end.

(** The exact sum of the specification's contributions to [h]. *)
Fixpoint exact_ranked_total (h : Z) (weight : Float.float) (m : nat)
    (rds : list (nat * Document)) : Q :=
  match rds with
  | [] => 0%Q
  | (rank, doc) :: rest =>
      ((if fingerprint doc =? h then exact_contribution weight m rank else 0)
       + exact_ranked_total h weight m rest)%Q
  end.

Fixpoint exact_total (h : Z) (results : list (list Document * Float.float)) : Q :=
  match results with
  | [] => 0%Q
  | (docs, weight) :: rest =>
      (exact_ranked_total h weight (length docs) (enumerate docs)
       + exact_total h rest)%Q
  end.

(** The first document observed for each fingerprint, in the order of
    first observation. *)
Fixpoint first_observed (docs : list Document) : list (Z * Document) :=
  match docs with
  | [] => []
  | doc :: rest =>
      (fingerprint doc, doc)
      :: List.filter (fun kv => negb (fst kv =? fingerprint doc)) (first_observed rest)
  end.

(** The effect of one observed document on [all_docs]. *)
Definition remember (docs : list (Z * Document)) (doc : Document)
  : list (Z * Document) :=
  store_if_new (fingerprint doc) doc docs.

(** The body of the inner loop, for one [(rank, doc)]:
    [all_doc_scores[doc_hash] += score] is a double addition. *)
Definition observe (weight : Float.float) (num_docs : nat) (a : acc)
    (rd : nat * Document) : acc :=
  let doc_hash := hash (page_content (snd rd)) in
  let score := rank_score num_docs (fst rd) weight in
  mkAcc (<[doc_hash := Float.add (score_of a doc_hash) score]> (all_doc_scores a))
        (store_if_new doc_hash (snd rd) (all_docs a)).

(** The inner loop over one retriever's result list. *)
Definition observe_all (weight : Float.float) (docs : list Document) (a : acc) : acc :=
  fold_left (observe weight (length docs)) (enumerate docs) a.

(** The outer loop over [zip(self.retrievers, self.weights)]: a failing
    retriever call is not caught. *)
Fixpoint accumulate (query : string) (rws : list (retriever * Float.float)) (a : acc)
  : outcome acc :=
  match rws with
  | [] => Returned a
  | (r, w) :: rest =>
      let? docs := r query in
      accumulate query rest (observe_all w docs a)
  end.

(** The accumulator reached from [a] when the retrievers return the
    given result lists. *)
Definition fuse (results : list (list Document * Float.float)) (a : acc) : acc :=
  fold_left (fun a dw => observe_all (snd dw) (fst dw) a) results a.

(** [EnsembleRetriever.invoke]: the documents of [all_docs], sorted by
    [all_doc_scores] with [reverse=True]. *)
Definition invoke (self : EnsembleRetriever) (i : input) : outcome (list Document) :=
  let query := query_of_input i in
  let? a := accumulate query (combine (retrievers self) (weights self)) acc0 in
  Returned (map snd (sorted_reverse sort_order (fun kv => score_of a (fst kv))
                                    (all_docs a))).
End WithHash.
End Ensemble.

(** ** Chunk hierarchy store (src/InMemoryStore.py) *)

(** The distinct elements of [l], each at the position of its first
    occurrence. *)
Fixpoint distinct (l : list string) : list string :=
  match l with
  | [] => []
  | x :: l' => x :: List.filter (fun y => negb (String.eqb x y)) (distinct l')
  end.

Module InMemoryStore.
(** [InMemoryStore.store]: a dict from ids to documents. *)

(** [mget]: [[self.store.get(key) for key in keys]]. *)
Definition mget (store : gmap string Document) (keys : list string)
  : list (option Document) :=
  map (fun key => store !! key) keys.

(** [mset]: one assignment per pair, in order. *)
Definition mset (store : gmap string Document) (key_value_pairs : list (string * Document))
  : gmap string Document :=
  fold_left (fun s kv => <[fst kv := snd kv]> s) key_value_pairs store.

(** [mdelete]: [self.store.pop(key, None)] for each key. *)
Definition mdelete (store : gmap string Document) (keys : list string)
  : gmap string Document :=
  fold_left (fun s key => delete key s) keys store.
End InMemoryStore.

Module ParentDocumentRetriever.

(** The retriever object. [vectorstore] is the list of indexed child
    chunks, in the order they were added. *)
Record t : Type := mk {
  vectorstore : list Document;
  docstore : gmap string Document;
  child_splitter : list Document -> list Document;
  parent_splitter : list Document -> list Document;
  k : Z
}.

(** [child_doc.metadata["parent_id"] = parent_id]. *)
Definition set_parent_id (parent_id : string) (child_doc : Document) : Document :=
  mkDocument (page_content child_doc) (<["parent_id" := parent_id]> (metadata child_doc)).

(** The ids added to the set [parent_ids], in the order of the [add] calls:
    a child without a [parent_id], or with an empty one, adds nothing. *)
Fixpoint added_parent_ids (child_docs : list Document) : list string :=
  match child_docs with
  | [] => []
  | child_doc :: rest =>
      match metadata child_doc !! "parent_id" with
      | Some parent_id =>
          if String.eqb parent_id "" then added_parent_ids rest
          else parent_id :: added_parent_ids rest
      | None => added_parent_ids rest
      end
  end.

Section WithRuntime.
(** Python's [hash] on strings. *)
Variable hash : string -> Z.
(** [self.vectorstore.similarity_search(query, k=k)] over the indexed
    children. *)
Variable similarity_search : list Document -> string -> Z -> list Document.
(** [list(s)] for the set [s] obtained by adding the given strings in
    sequence: the iteration order of a Python set. *)
Variable set_list : list string -> list string.

(** [f"parent_{hash(parent_doc.page_content)}"]. *)
Definition parent_id_of (parent_doc : Document) : string :=
  "parent_" +:+ pretty (hash (page_content parent_doc)).

(** The children of one parent, tagged with its id. *)
Definition child_docs_of (self : t) (parent_doc : Document) : list Document :=
  map (set_parent_id (parent_id_of parent_doc)) (child_splitter self [parent_doc]).

(** The body of the loop of [add_documents], for one parent. *)
Definition add_parent (self : t) (parent_doc : Document) : t :=
  let parent_id := parent_id_of parent_doc in
  let docstore' := InMemoryStore.mset (docstore self) [(parent_id, parent_doc)] in
  let child_docs := child_docs_of self parent_doc in
  mk (match child_docs with
      | [] => vectorstore self
      | _ :: _ => vectorstore self ++ child_docs
      end)
     docstore' (child_splitter self) (parent_splitter self) (k self).

(** [ParentDocumentRetriever.add_documents]: no statement of it raises. *)
Definition add_documents (self : t) (documents : list Document) : outcome t :=
  let parent_docs := parent_splitter self documents in
  Returned (fold_left add_parent parent_docs self).

(** [ParentDocumentRetriever.invoke]. *)
Definition invoke (self : t) (i : input) : outcome (list Document) :=
  let query := query_of_input i in
  let child_docs := similarity_search (vectorstore self) query (k self) in
  let parent_ids := set_list (added_parent_ids child_docs) in
  let parent_docs := InMemoryStore.mget (docstore self) parent_ids in
  Returned (omap id parent_docs).

(** Every key of the parent map is the id derived from the content of
    the parent stored under it: what [add_documents] establishes. *)
Definition keyed_by_content (store : gmap string Document) : Prop :=
  forall (parent_id : string) (parent_doc : Document),
    store !! parent_id = Some parent_doc -> parent_id = parent_id_of parent_doc.

(** The parents in the order in which their first child appears in the
    search result: what [invoke] would return if [parent_ids] were kept
    in insertion order. *)
Definition parents_by_first_child (self : t) (i : input) : list Document :=
  let child_docs := similarity_search (vectorstore self) (query_of_input i) (k self) in
  omap (fun parent_id => docstore self !! parent_id)
       (distinct (added_parent_ids child_docs)).
End WithRuntime.
End ParentDocumentRetriever.

(** ** Query expansion (src/MultiQueryRetriever.py, rag_core.py) *)

Module QueryExpansion.

(** [str.isspace] on the characters below 256. *)
Definition is_space (c : Ascii.ascii) : bool :=
  let n := Ascii.nat_of_ascii c in
  ((9 <=? n) && (n <=? 13) || (28 <=? n) && (n <=? 32)
   || (n =? 133) || (n =? 160))%nat.

Fixpoint lstrip (s : string) : string :=
  match s with
  | String c s' => if is_space c then lstrip s' else s
  | EmptyString => EmptyString
  end.

Fixpoint rstrip (s : string) : string :=
  match s with
  | String c s' =>
      match rstrip s' with
      | EmptyString => if is_space c then EmptyString else String c EmptyString
      | r => String c r
      end
  | EmptyString => EmptyString
  end.

(** [s.strip()]. *)
Definition strip (s : string) : string := rstrip (lstrip s).

Definition newline : Ascii.ascii := Ascii.ascii_of_nat 10.

(** [s.split("\n")]: the pieces between newlines, at least one. *)
Fixpoint split_lines (s : string) : list string :=
  match s with
  | EmptyString => [EmptyString]
  | String c s' =>
      if Ascii.eqb c newline then EmptyString :: split_lines s'
      else match split_lines s' with
           | piece :: pieces => String c piece :: pieces
           | [] => [String c EmptyString]
           end
  end.

(** [[q.strip() for q in result.split("\n") if q.strip()]]. *)
Definition parse_queries (result : string) : list string :=
  List.filter (fun q => negb (String.eqb q ""))
              (map strip (split_lines result)).

(** [question in queries]. *)
Definition contains (question : string) (queries : list string) : bool :=
  existsb (String.eqb question) queries.

(** [if question not in queries: queries.insert(0, question)]. *)
Definition include_original (question : string) (queries : list string)
  : list string :=
  if contains question queries then queries else question :: queries.

(** [MultiQueryRetriever._generate_queries]; [llm question num_queries] is
    the result of running the generation chain. *)
Definition _generate_queries (llm : string -> Z -> outcome string)
    (num_queries : Z) (question : string) : outcome (list string) :=
  let? result := llm question num_queries in
  Returned (slice_to num_queries (include_original question (parse_queries result))).

(** [expand_query] of rag_core.py; [project_id] is
    [os.getenv("RAG_PROJECT_ID")] and [llm original_query] the result of
    building and running the chain. Every exception is caught. *)
Definition expand_query (project_id : option string) (llm : string -> outcome string)
    (original_query : string) : list string :=
  match project_id with
  | None => [original_query]
  | Some p =>
      if String.eqb p "" then [original_query]
      else match llm original_query with
           | Raised _ => [original_query]
           | Returned response =>
               slice_to 5 (include_original original_query (parse_queries response))
           end
  end.
End QueryExpansion.

(** ** Reranking (rag_core.py) *)

Module Rerank.

(** A score produced by the cross-encoder: a number or NaN. *)
Inductive pyfloat : Type :=
  | Num (q : Q)
  | NaN.

(** [score = float(scores[i]); if np.isnan(score): score = 0.0]. *)
Definition clamp (s : pyfloat) : Q :=
  match s with
  | Num q => q
  | NaN => 0%Q
  end.

(** The loop building [scored_docs]; [scores[i]] raises [IndexError] past
    the end of [scores]. *)
Fixpoint score_docs (scores : list pyfloat) (docs : list (nat * Document))
    (scored_docs : list (Document * Q)) : outcome (list (Document * Q)) :=
  match docs with
  | [] => Returned scored_docs
  | (i, doc) :: rest =>
      match scores !! i with
      | None => Raised IndexError
      | Some s => score_docs scores rest (scored_docs ++ [(doc, clamp s)])
      end
  end.

(** The candidates paired with their clamped scores, in input order. *)
Definition scored_input (predict : list (string * string) -> list pyfloat)
    (query : string) (documents : list Document) : list (Document * Q) :=
  combine documents
          (map clamp (predict (map (fun doc => (query, page_content doc)) documents))).

(** [rerank_documents]; [predict] is [reranker.predict]. *)
Definition rerank_documents (predict : list (string * string) -> list pyfloat)
    (query : string) (documents : list Document) (top_k : Z)
  : outcome (list (Document * Q)) :=
  let pairs := map (fun doc => (query, page_content doc)) documents in
  let scores := predict pairs in
  let? scored_docs := score_docs scores (enumerate documents) [] in
  Returned (slice_to top_k (sorted_desc snd scored_docs)).
End Rerank.

(** ** The parent store as an ordered dict (src/InMemoryStore.py)

    [yield_keys] observes the order of the keys of [self.store], so for it
    the dict is modelled with its insertion order: an association list in
    which a key is assigned in place when present and appended when new. *)

Module OrderedStore.

(** [self.store.get(key)]. *)
Fixpoint get (store : list (string * Document)) (key : string) : option Document :=
  match store with
  | [] => None
  | (k, v) :: rest => if String.eqb k key then Some v else get rest key
  end.

(** [self.store[key] = value]: a key already present keeps its position. *)
Fixpoint assign (store : list (string * Document)) (key : string) (value : Document)
  : list (string * Document) :=
  match store with
  | [] => [(key, value)]
  | (k, v) :: rest =>
      if String.eqb k key then (k, value) :: rest
      else (k, v) :: assign rest key value
  end.

(** [self.store.pop(key, None)]. *)
Fixpoint pop (store : list (string * Document)) (key : string)
  : list (string * Document) :=
  match store with
  | [] => []
  | (k, v) :: rest => if String.eqb k key then rest else (k, v) :: pop rest key
  end.

Definition mget (store : list (string * Document)) (keys : list string)
  : list (option Document) :=
  map (get store) keys.

Definition mset (store : list (string * Document))
    (key_value_pairs : list (string * Document)) : list (string * Document) :=
  fold_left (fun s kv => assign s (fst kv) (snd kv)) key_value_pairs store.

Definition mdelete (store : list (string * Document)) (keys : list string)
  : list (string * Document) :=
  fold_left pop keys store.

(** [yield_keys]: with a non-empty prefix, the keys that start with it;
    with [None] or the empty prefix, all keys. *)
Definition yield_keys (store : list (string * Document)) (prefix : option string)
  : list string :=
  match prefix with
  | Some p =>
      if String.eqb p "" then map fst store
      else List.filter (String.prefix p) (map fst store)
  | None => map fst store
  end.

(** The store as a finite map, forgetting the order of its keys. *)
Definition contents (store : list (string * Document)) : gmap string Document :=
  list_to_map store.

(** No key occurs twice: what a dict guarantees. *)
Definition well_formed (store : list (string * Document)) : Prop :=
  NoDup (map fst store).
End OrderedStore.

(** ** Multi-query retrieval (src/MultiQueryRetriever.py) *)

Module MultiQueryRetriever.

Record t : Type := mk {
  base_retriever : string -> outcome (list Document);
  llm : string -> Z -> outcome string;
  num_queries : Z
}.

(** [MultiQueryRetriever.from_llm], with the default [num_queries=3]. *)
Definition from_llm (base : string -> outcome (list Document))
    (llm : string -> Z -> outcome string) (num_queries : option Z) : t :=
  mk base llm (default 3 num_queries).

Section WithHash.
Variable hash : string -> Z.

(** The body of the inner loop of [invoke]: [all_docs] and the set
    [seen_docs] of content hashes. *)
Definition collect (st : list Document * gset Z) (doc : Document)
  : list Document * gset Z :=
  let doc_hash := hash (page_content doc) in
  if decide (doc_hash ∈ snd st) then st
  else (fst st ++ [doc], {[doc_hash]} ∪ snd st).

(** The loop over the generated queries: a failing retriever call is not
    caught. *)
Fixpoint retrieve_all (retrieve : string -> outcome (list Document))
    (queries : list string) (st : list Document * gset Z)
  : outcome (list Document * gset Z) :=
  match queries with
  | [] => Returned st
  | q :: rest =>
      let? docs := retrieve q in
      retrieve_all retrieve rest (fold_left collect docs st)
  end.

(** [MultiQueryRetriever.invoke]. *)
Definition invoke (self : t) (i : input) : outcome (list Document) :=
  let query := query_of_input i in
  let? queries := QueryExpansion._generate_queries (llm self) (num_queries self) query in
  let? st := retrieve_all (base_retriever self) queries ([], ∅) in
  Returned (fst st).
End WithHash.
End MultiQueryRetriever.

(** ** Retriever factories (src/EnsembleRetriever.py, src/InMemoryStore.py) *)

(** [get_ensemble_retriever]; [vector_retriever docs k] stands for building
    the Chroma store over [docs] and its retriever with [k] results,
    [keyword_retriever docs k] for the BM25 retriever with [k] results. An
    exception of either is printed and raised again. *)
Definition get_ensemble_retriever
    (vector_retriever keyword_retriever : list Document -> Z -> outcome retriever)
    (docs : list Document) (top_k : Z) : outcome Ensemble.EnsembleRetriever :=
  if top_k <? 1 then Raised (ValueError "top_k must be at least 1")
  else
    let? retriever := vector_retriever docs top_k in
    let? keyword_retriever := keyword_retriever docs 3 in
    Ensemble.init [retriever; keyword_retriever] (Some [Float.half; Float.half]).


(** ** PDF loading (rag_core.py) *)

Module RagCore.

(** [text.split()]: the maximal runs of characters that are not
    whitespace. *)
Fixpoint split_whitespace (s : string) : list string :=
  match s with
  | EmptyString => []
  | String c s' =>
      if QueryExpansion.is_space c then split_whitespace s'
      else match s' with
           | EmptyString => [String c EmptyString]
           | String c' _ =>
               if QueryExpansion.is_space c'
               then String c EmptyString :: split_whitespace s'
               else match split_whitespace s' with
                    | w :: ws => String c w :: ws
                    | [] => [String c EmptyString]
                    end
           end
  end.

(** [sep.join(parts)]. *)
Fixpoint join (sep : string) (parts : list string) : string :=
  match parts with
  | [] => EmptyString
  | [p] => p
  | p :: rest => p +:+ sep +:+ join sep rest
  end.

(** [' '.join(text.split())]. *)
Definition clean_text (text : string) : string := join " " (split_whitespace text).

(** A word: a non-empty string without whitespace. *)
Fixpoint no_space (s : string) : bool :=
  match s with
  | EmptyString => true
  | String c s' => negb (QueryExpansion.is_space c) && no_space s'
  end.

Definition word (w : string) : Prop := w <> EmptyString /\ no_space w = true.

(** [load_pdf]; [read_pages file_path] stands for opening the file and
    reading the text of its pages in order. An exception is printed and
    raised again. *)
Definition load_pdf (read_pages : string -> outcome (list string)) (file_path : string)
  : outcome (list Document) :=
  let? pages := read_pages file_path in
  let text := fold_left (fun text page => text +:+ page) pages EmptyString in
  Returned [mkDocument (clean_text text) {["source" := file_path]}].
End RagCore.

(** ** HTTP endpoints (src/RAG_Workbench/backend/main.py) *)

Module Workbench.

(** The result of an endpoint: a response, or the [HTTPException] raised by
    its [except] clause. *)
Inductive http_result (A : Type) : Type :=
  | Ok (a : A)
  | HTTPException (status_code : Z) (detail : string).

Arguments Ok {A} a.
Arguments HTTPException {A} status_code detail.

Record SearchResult : Type := mkSearchResult {
  content : string;
  score : Q;
  result_metadata : gmap string string;
  embedding : option (list Q)
}.

Record ProcessResponse : Type := mkProcessResponse {
  collection_name : string;
  num_chunks : nat;
  preview_chunks : list string;
  embedding_preview : option (list Q)
}.

Record RerankResponse : Type := mkRerankResponse {
  results : list SearchResult;
  query_embedding : option (list Q)
}.

(** [[chunk.page_content[:200] + "..." for chunk in chunks[:3]]]. *)
Definition preview (chunks : list Document) : list string :=
  map (fun chunk => String.substring 0 200 (page_content chunk) +:+ "...")
      (firstn 3 chunks).

Section WithServices.
(** [str(e)] for an exception. *)
Variable str : exn -> string.
(** The external services the endpoints call. *)
Variable get_text_embedding : string -> outcome (list Q).
Variable read_pages : string -> outcome (list string).
Variable split_text : list Document -> Z -> Z -> outcome (list Document).
Variable create_vector_store : list Document -> outcome string.
Variable predict : list (string * string) -> list Rerank.pyfloat.

(** [try: ... except Exception as e: raise HTTPException(500, str(e))]. *)
Definition handle {A : Type} (body : outcome A) : http_result A :=
  match body with
  | Returned a => Ok a
  | Raised e => HTTPException 500 (str e)
  end.

(** [process_document]. *)
Definition process_document (file_path : string) (chunk_size chunk_overlap : Z)
  : http_result ProcessResponse :=
  handle
    (let? docs := RagCore.load_pdf read_pages file_path in
     let? chunks := split_text docs chunk_size chunk_overlap in
     let? name := create_vector_store chunks in
     let? embedding_preview :=
       match chunks with
       | chunk :: _ =>
           let? e := get_text_embedding (page_content chunk) in Returned (Some e)
       | [] => Returned None
       end in
     Returned (mkProcessResponse name (length chunks) (preview chunks) embedding_preview)).

(** The loop of [rerank_results] that formats the reranked documents. *)
Fixpoint format_results (reranked : list (Document * Q))
    (formatted_results : list SearchResult) : outcome (list SearchResult) :=
  match reranked with
  | [] => Returned formatted_results
  | (doc, score) :: rest =>
      let? e := get_text_embedding (page_content doc) in
      format_results rest
        (formatted_results
         ++ [mkSearchResult (page_content doc) score (metadata doc) (Some e)])
  end.

(** [rerank_results]. *)
Definition rerank_results (query : string) (initial_results : list SearchResult)
    (top_k : Z) : http_result RerankResponse :=
  handle
    (let? query_embedding := get_text_embedding query in
     let docs := map (fun res => mkDocument (content res) (result_metadata res))
                     initial_results in
     let? reranked := Rerank.rerank_documents predict query docs top_k in
     let? formatted_results := format_results reranked [] in
     Returned (mkRerankResponse formatted_results (Some query_embedding))).
End WithServices.
End Workbench.

(** ** Consistency of the child index (src/InMemoryStore.py)

    Every indexed child carries a non-empty [parent_id] under which a parent
    is stored: what [add_documents] establishes by storing the parent before
    it tags and indexes the children. *)
Definition index_consistent (self : ParentDocumentRetriever.t) : Prop :=
  forall child : Document,
    child ∈ ParentDocumentRetriever.vectorstore self ->
    exists parent_id : string,
      metadata child !! "parent_id" = Some parent_id
      /\ parent_id <> ""
      /\ is_Some (ParentDocumentRetriever.docstore self !! parent_id).

(** ** Sample data for the examples *)

Module Samples.
(** A string hash for the examples (a polynomial hash of the character
    codes); any function on strings can stand for Python's [hash]. *)
Fixpoint sample_hash (s : string) : Z :=
  match s with
  | EmptyString => 7
  | String c s' => (Z.of_nat (Ascii.nat_of_ascii c) + 31 * sample_hash s') mod 1000003
  end.

Definition docA : Document := mkDocument "A" ∅.
Definition docB : Document := mkDocument "B" ∅.
Definition docC : Document := mkDocument "C" ∅.
Definition docF : Document := mkDocument "F" ∅.
Definition docH : Document := mkDocument "H" ∅.
Definition docI : Document := mkDocument "I" ∅.
Definition docN : Document := mkDocument "N" ∅.

Definition half : Float.float := Float.half.

(** Retrievers with fixed results, and one that is down. *)
Definition retriever_of (docs : list Document) : retriever := fun _ => Returned docs.
Definition retriever_abc : retriever := fun _ => Returned [docA; docB; docC].
Definition retriever_ca : retriever := fun _ => Returned [docC; docA].
Definition retriever_down : retriever :=
  fun _ => Raised (BackendUnavailable "connection refused").

(** A relevance model: NaN for the text ["B"], the length of the text
    otherwise. *)
Definition sample_predict (pairs : list (string * string)) : list Rerank.pyfloat :=
  map (fun p => if String.eqb (snd p) "B" then Rerank.NaN
                else Rerank.Num (inject_Z (Z.of_nat (String.length (snd p)))))
      pairs.

(** A generator that answers with one other query and then repeats the
    question, and one that answers with three queries before repeating
    it. *)
Definition llm_repeating (question : string) (num_queries : Z) : outcome string :=
  Returned ("define RAG" +:+ String QueryExpansion.newline question).

Definition llm_repeating_last (question : string) (num_queries : Z) : outcome string :=
  Returned ("a" +:+ String QueryExpansion.newline
              ("b" +:+ String QueryExpansion.newline
                 ("c" +:+ String QueryExpansion.newline question))).

(** A set whose iteration order follows the hash slot of its elements
    (hash modulo 8) rather than the order of insertion, the way a hash
    set lays out its table. *)
Definition slot_order (l : list string) : list string :=
  sorted_desc (fun x => inject_Z (- (sample_hash x mod 8))) (distinct l).

(** A search returning the first [k] indexed children. *)
Definition first_k (index : list Document) (query : string) (k : Z) : list Document :=
  firstn (Z.to_nat k) index.

(** Splitters: one parent per document; one child per parent, or none. *)
Definition split_whole (docs : list Document) : list Document := docs.
Definition split_nothing (docs : list Document) : list Document := [].

Definition empty_retriever : ParentDocumentRetriever.t :=
  ParentDocumentRetriever.mk [] ∅ split_whole split_whole 4.

Definition degenerate_retriever : ParentDocumentRetriever.t :=
  ParentDocumentRetriever.mk [] ∅ split_nothing split_whole 4.

(** A base retriever whose results depend on the query, and multi-query
    retrievers over it and over the retriever that is down. *)
Definition retriever_by_query : string -> outcome (list Document) :=
  fun q => if String.eqb q "what is RAG" then Returned [docA; docB]
           else Returned [docB; docC].

Definition multi_query : MultiQueryRetriever.t :=
  MultiQueryRetriever.mk retriever_by_query llm_repeating 3.

Definition multi_query_down : MultiQueryRetriever.t :=
  MultiQueryRetriever.mk retriever_down llm_repeating 3.
End Samples.

(** * Properties *)

(** ** The stable descending sort *)

Section StableSortFacts.
Context {A : Type}.
Variable key : A -> Q.

Lemma insert_desc_perm (x : A) (l : list A) :
  insert_desc key x l ≡ₚ x :: l.
Proof.
  induction l as [|y l IH]; simpl; [reflexivity|].
  destruct (Qle_bool (key y) (key x)); [reflexivity|].
  rewrite IH. apply Permutation_swap.
Qed.

Lemma sorted_desc_perm (l : list A) : sorted_desc key l ≡ₚ l.
Proof.
  induction l as [|x l IH]; simpl; [reflexivity|].
  rewrite insert_desc_perm. by rewrite IH.
Qed.

Lemma sorted_desc_length (l : list A) : length (sorted_desc key l) = length l.
Proof. apply Permutation_length, sorted_desc_perm. Qed.

Lemma desc_trans : Relations_1.Transitive (desc key).
Proof. intros x y z Hxy Hyz. unfold desc in *. by apply Qle_trans with (key y). Qed.

Lemma insert_desc_HdRel (y x : A) (l : list A) :
  desc key y x -> HdRel (desc key) y l -> HdRel (desc key) y (insert_desc key x l).
Proof.
  intros Hyx Hl. destruct l as [|z l]; simpl; [by constructor|].
  destruct (Qle_bool (key z) (key x)); constructor; [done|].
  by inversion Hl.
Qed.

Lemma insert_desc_sorted (x : A) (l : list A) :
  Sorted (desc key) l -> Sorted (desc key) (insert_desc key x l).
Proof.
  induction l as [|y l IH]; intros Hs; simpl.
  - repeat constructor.
  - destruct (Qle_bool (key y) (key x)) eqn:Hle.
    + constructor; [done|]. constructor. by apply Qle_bool_iff.
    + inversion Hs as [|? ? Hs' Hhd]; subst.
      constructor; [by apply IH|].
      apply insert_desc_HdRel; [|done].
      unfold desc. apply Qlt_le_weak, Qnot_le_lt.
      intros Hc. apply Qle_bool_iff in Hc. congruence.
Qed.

Lemma sorted_desc_sorted (l : list A) : StronglySorted (desc key) (sorted_desc key l).
Proof.
  apply Sorted_StronglySorted; [apply desc_trans|].
  induction l as [|x l IH]; simpl; [constructor|].
  by apply insert_desc_sorted.
Qed.

(** Stability: elements with the same key keep their input order. *)
Lemma insert_desc_with_key (q : Q) (x : A) (l : list A) :
  with_key key q (insert_desc key x l) = with_key key q (x :: l).
Proof.
  induction l as [|y l IH]; [done|].
  simpl insert_desc. destruct (Qle_bool (key y) (key x)) eqn:Hle; [done|].
  unfold with_key in *. simpl in *. rewrite IH.
  destruct (Qeq_bool (key x) q) eqn:Hx; [|done].
  destruct (Qeq_bool (key y) q) eqn:Hy; [|done].
  apply Qeq_bool_iff in Hx, Hy.
  assert (Qle_bool (key y) (key x) = true); [|congruence].
  apply Qle_bool_iff. rewrite Hx, Hy. apply Qle_refl.
Qed.

Lemma sorted_desc_stable (q : Q) (l : list A) :
  with_key key q (sorted_desc key l) = with_key key q l.
Proof.
  induction l as [|x l IH]; [done|].
  simpl sorted_desc. rewrite insert_desc_with_key.
  unfold with_key in *. simpl. by rewrite IH.
Qed.

(** The sort looks at the keys of the elements only. *)
Lemma insert_desc_ext (key' : A -> Q) (x : A) (l : list A) :
  (key x == key' x)%Q ->
  (forall y, y ∈ l -> (key y == key' y)%Q) ->
  insert_desc key x l = insert_desc key' x l.
Proof.
  intros Hx. induction l as [|y l IH]; intros Hl; [done|]. simpl.
  rewrite (Hl y), Hx by apply list_elem_of_here.
  rewrite IH; [done|]. intros z Hz. by apply Hl, list_elem_of_further.
Qed.

Lemma sorted_desc_ext (key' : A -> Q) (l : list A) :
  (forall y, y ∈ l -> (key y == key' y)%Q) ->
  sorted_desc key l = sorted_desc key' l.
Proof.
  induction l as [|x l IH]; intros Hl; [done|]. simpl.
  rewrite <- IH by (intros y Hy; by apply Hl, list_elem_of_further).
  apply insert_desc_ext; [apply Hl, list_elem_of_here|].
  intros y Hy. apply Hl, list_elem_of_further.
  by rewrite <- (sorted_desc_perm l).
Qed.

Lemma with_key_firstn_prefix (q : Q) (n : nat) (l : list A) :
  with_key key q (firstn n l) `prefix_of` with_key key q l.
Proof.
  exists (with_key key q (skipn n l)).
  unfold with_key. rewrite <- List.filter_app. by rewrite firstn_skipn.
Qed.

Lemma StronglySorted_firstn (R : A -> A -> Prop) (n : nat) (l : list A) :
  StronglySorted R l -> StronglySorted R (firstn n l).
Proof.
  intros Hs. revert n. induction Hs as [|x l Hs IH Hall]; intros [|n]; simpl;
    try constructor; [apply IH|].
  by apply Forall_take.
Qed.
End StableSortFacts.

(** ** Reranking *)

Section RerankFacts.
Import Rerank.

Lemma score_docs_from (scores : list pyfloat) (docs : list Document) :
  forall (n : nat) (scored : list (Document * Q)),
    (n + length docs <= length scores)%nat ->
    score_docs scores (enumerate_from n docs) scored
    = Returned (scored ++ combine docs (map clamp (drop n scores))).
Proof.
  induction docs as [|doc docs IH]; intros n scored Hlen; simpl in *.
  - by rewrite app_nil_r.
  - destruct (lookup_lt_is_Some_2 scores n) as [s Hs]; [lia|].
    rewrite Hs, IH by lia.
    rewrite (drop_S _ _ _ Hs). simpl. by rewrite <- app_assoc.
Qed.

Lemma score_docs_enumerate (scores : list pyfloat) (docs : list Document) :
  (length docs <= length scores)%nat ->
  score_docs scores (enumerate docs) [] = Returned (combine docs (map clamp scores)).
Proof. intros Hlen. unfold enumerate. by rewrite score_docs_from. Qed.

Lemma slice_to_nonneg {A : Type} (k : Z) (l : list A) :
  0 <= k -> slice_to k l = firstn (Z.to_nat k) l.
Proof. intros Hk. unfold slice_to. by rewrite (proj2 (Z.leb_le 0 k) Hk). Qed.
End RerankFacts.

(** C9. For every query, candidate list and [top_k >= 0] (the relevance
    model returning one score per pair), [rerank_documents] returns exactly
    [min(top_k, len(documents))] scored documents, sorted non-increasing by
    score, taken from the scored candidates, and documents with equal scores
    keep the candidates' input order. *)
Theorem rerank_documents_truncates_sorted_stable
    (predict : list (string * string) -> list Rerank.pyfloat)
    (query : string) (documents : list Document) (top_k : Z) :
  (length documents
   <= length (predict (map (fun doc => (query, page_content doc)) documents)))%nat ->
  0 <= top_k ->
  exists out : list (Document * Q),
    Rerank.rerank_documents predict query documents top_k = Returned out
    /\ Z.of_nat (length out) = Z.min top_k (Z.of_nat (length documents))
    /\ StronglySorted (desc snd) out
    /\ out ⊆+ Rerank.scored_input predict query documents
    /\ forall q : Q,
         with_key snd q out
         `prefix_of` with_key snd q (Rerank.scored_input predict query documents).
Proof.
  intros Hlen Hk. unfold Rerank.rerank_documents.
  rewrite score_docs_enumerate by done. simpl.
  fold (Rerank.scored_input predict query documents).
  set (scored := Rerank.scored_input predict query documents).
  assert (Hsz : length scored = length documents).
  { unfold scored, Rerank.scored_input. rewrite length_combine, length_map. lia. }
  rewrite slice_to_nonneg by done.
  eexists; split; [reflexivity|]. repeat split.
  - rewrite length_take, sorted_desc_length, Hsz. lia.
  - apply StronglySorted_firstn, sorted_desc_sorted.
  - transitivity (sorted_desc snd scored).
    + apply sublist_submseteq, sublist_take.
    + by rewrite sorted_desc_perm.
  - intros q. rewrite <- (sorted_desc_stable snd q scored).
    apply with_key_firstn_prefix.
Qed.

Lemma rerank_documents_truncates_sorted_stable_witness :
  exists out : list (Document * Q),
    Rerank.rerank_documents Samples.sample_predict "q"
      [Samples.docA; Samples.docB; Samples.docC] 2 = Returned out
    /\ Z.of_nat (length out) = 2.
Proof.
  destruct (rerank_documents_truncates_sorted_stable Samples.sample_predict "q"
              [Samples.docA; Samples.docB; Samples.docC] 2)
    as (out & Hout & Hlen & _); [simpl; lia | lia |].
  exists out. split; [exact Hout | exact Hlen].
Defined.

(** ** The order of floats and the stable sort by a float key *)

Section FloatOrder.
Import Float.

Lemma SFcompare_place (x y : float) :
  is_nan x = false -> is_nan y = false ->
  SFcompare x y = Some (lex (place x) (place y)).
Proof.
  destruct x as [sx|sx| |sx mx ex], y as [sy|sy| |sy my ey]; try done;
    intros _ _; try (by destruct sx, sy); try (by destruct sx); try (by destruct sy).
  destruct sx, sy; try done; unfold lex; cbn [place fst snd SFcompare].
  rewrite Z.compare_opp, (Z.compare_antisym ey ex).
  by destruct (ey ?= ex).
Qed.

Lemma float_lex_spec (a b : Z * Z * Z) :
  match lex a b with
  | Lt => lex_le a b /\ ~ lex_le b a
  | Eq => a = b
  | Gt => lex_le b a /\ ~ lex_le a b
  end.
Proof.
  destruct a as [[a1 a2] a3], b as [[b1 b2] b3]. unfold lex, lex_le. simpl.
  destruct (Z.compare_spec a1 b1); [|lia..].
  destruct (Z.compare_spec a2 b2); [|lia..].
  destruct (Z.compare_spec a3 b3); [congruence|lia..].
Qed.

Lemma float_leb_place (x y : float) :
  is_nan x = false -> is_nan y = false ->
  leb x y = true <-> lex_le (place x) (place y).
Proof.
  intros Hx Hy. unfold leb, SFleb. rewrite SFcompare_place by done.
  pose proof (float_lex_spec (place x) (place y)) as H.
  destruct (lex (place x) (place y)).
  - rewrite H. split; [|done]. intros _. unfold lex_le. lia.
  - tauto.
  - split; [done|tauto].
Qed.

Lemma float_ltb_place (x y : float) :
  is_nan x = false -> is_nan y = false ->
  ltb x y = true <-> ~ lex_le (place y) (place x).
Proof.
  intros Hx Hy. unfold ltb, SFltb. rewrite SFcompare_place by done.
  pose proof (float_lex_spec (place x) (place y)) as H.
  destruct (lex (place x) (place y)).
  - rewrite H. split; [done|]. intros Hc. exfalso. apply Hc. unfold lex_le. lia.
  - tauto.
  - split; [done|tauto].
Qed.

Lemma float_eqb_place (x y : float) :
  is_nan x = false -> is_nan y = false ->
  eqb x y = true <-> place x = place y.
Proof.
  intros Hx Hy. unfold eqb, SFeqb. rewrite SFcompare_place by done.
  pose proof (float_lex_spec (place x) (place y)) as H.
  destruct (lex (place x) (place y)); [done|..];
    (split; [done|]; intros Heq; rewrite Heq in H; tauto).
Qed.

Lemma float_leb_nan_l (x : float) : leb S754_nan x = false.
Proof. done. Qed.
Lemma float_leb_nan_r (x : float) : leb x S754_nan = false.
Proof. by destruct x. Qed.
Lemma float_ltb_nan_l (x : float) : ltb S754_nan x = false.
Proof. done. Qed.
Lemma float_ltb_nan_r (x : float) : ltb x S754_nan = false.
Proof. by destruct x. Qed.
Lemma float_eqb_nan_l (x : float) : eqb S754_nan x = false.
Proof. done. Qed.
Lemma float_eqb_nan_r (x : float) : eqb x S754_nan = false.
Proof. by destruct x. Qed.

Lemma float_is_nan_false (x : float) : is_nan x = false <-> x <> S754_nan.
Proof. destruct x; simpl; split; congruence. Qed.

Lemma float_leb_not_nan (x y : float) : leb x y = true -> is_nan x = false /\ is_nan y = false.
Proof. destruct x, y; done. Qed.

Lemma float_ltb_not_nan (x y : float) : ltb x y = true -> is_nan x = false /\ is_nan y = false.
Proof. destruct x, y; done. Qed.

Lemma float_eqb_not_nan (x y : float) : eqb x y = true -> is_nan x = false /\ is_nan y = false.
Proof. destruct x, y; done. Qed.

Lemma float_leb_trans (x y z : float) : leb x y = true -> leb y z = true -> leb x z = true.
Proof.
  intros Hxy Hyz.
  destruct (float_leb_not_nan _ _ Hxy) as [Hx Hy], (float_leb_not_nan _ _ Hyz) as [_ Hz].
  rewrite float_leb_place in * by done. unfold lex_le in *. lia.
Qed.

Lemma float_ltb_false_leb (x y : float) :
  is_nan x = false -> is_nan y = false -> ltb x y = false -> leb y x = true.
Proof.
  intros Hx Hy Hlt. apply float_leb_place; [done..|].
  destruct (decide (lex_le (place y) (place x))) as [|Hn]; [done|].
  apply float_ltb_place in Hn; [congruence|done..].
Qed.

Lemma float_leb_ltb_false (x y : float) : leb y x = true -> ltb x y = false.
Proof.
  intros Hle. destruct (float_leb_not_nan _ _ Hle) as [Hy Hx].
  destruct (ltb x y) eqn:Hlt; [|done].
  apply float_ltb_place in Hlt; [|done..]. apply float_leb_place in Hle; [|done..]. done.
Qed.

Lemma float_eqb_ltb_false (x y q : float) :
  eqb x q = true -> eqb y q = true -> ltb x y = false.
Proof.
  intros Hx Hy.
  destruct (float_eqb_not_nan _ _ Hx) as [Hnx Hnq], (float_eqb_not_nan _ _ Hy) as [Hny _].
  apply float_eqb_place in Hx, Hy; [|done..].
  apply float_leb_ltb_false, float_leb_place; [done..|]. rewrite Hx, Hy. unfold lex_le. lia.
Qed.
End FloatOrder.

Section FloatSortFacts.
Context {A : Type}.
Variable key : A -> Float.float.

Lemma insert_stable_perm (x : A) (l : list A) :
  insert_stable key x l ≡ₚ x :: l.
Proof.
  induction l as [|y l IH]; simpl; [reflexivity|].
  destruct (Float.ltb (key x) (key y)); [|reflexivity].
  rewrite IH. apply Permutation_swap.
Qed.

Lemma stable_desc_perm (l : list A) : stable_desc key l ≡ₚ l.
Proof.
  induction l as [|x l IH]; simpl; [reflexivity|].
  rewrite insert_stable_perm. by rewrite IH.
Qed.

Lemma stable_desc_length (l : list A) : length (stable_desc key l) = length l.
Proof. apply Permutation_length, stable_desc_perm. Qed.

Lemma fdesc_trans : Relations_1.Transitive (fdesc key).
Proof. intros x y z Hxy Hyz. unfold fdesc in *. by apply float_leb_trans with (key y). Qed.

Lemma insert_stable_HdRel (y x : A) (l : list A) :
  fdesc key y x -> HdRel (fdesc key) y l -> HdRel (fdesc key) y (insert_stable key x l).
Proof.
  intros Hyx Hl. destruct l as [|z l]; simpl; [by constructor|].
  destruct (Float.ltb (key x) (key z)); constructor; [|done].
  by inversion Hl.
Qed.

Lemma insert_stable_sorted (x : A) (l : list A) :
  Float.is_nan (key x) = false ->
  Forall (fun y => Float.is_nan (key y) = false) l ->
  Sorted (fdesc key) l -> Sorted (fdesc key) (insert_stable key x l).
Proof.
  intros Hx. induction l as [|y l IH]; intros Hl Hs; simpl.
  - repeat constructor.
  - apply Forall_cons in Hl as [Hy Hl].
    destruct (Float.ltb (key x) (key y)) eqn:Hlt.
    + inversion Hs as [|? ? Hs' Hhd]; subst.
      constructor; [by apply IH|].
      apply insert_stable_HdRel; [|done].
      unfold fdesc. apply float_leb_place; [done..|].
      apply float_ltb_place in Hlt; [|done..]. unfold lex_le in *. lia.
    + constructor; [done|]. constructor. by apply float_ltb_false_leb.
Qed.

Lemma stable_desc_sorted (l : list A) :
  Forall (fun y => Float.is_nan (key y) = false) l ->
  StronglySorted (fdesc key) (stable_desc key l).
Proof.
  intros Hl. apply Sorted_StronglySorted; [apply fdesc_trans|].
  induction l as [|x l IH]; simpl; [constructor|].
  apply Forall_cons in Hl as [Hx Hl].
  apply insert_stable_sorted; [done| |by apply IH].
  by rewrite stable_desc_perm.
Qed.

(** Stability: elements with equal keys keep their input order. *)
Lemma insert_stable_with_score (q : Float.float) (x : A) (l : list A) :
  with_score key q (insert_stable key x l) = with_score key q (x :: l).
Proof.
  induction l as [|y l IH]; [done|].
  simpl insert_stable. destruct (Float.ltb (key x) (key y)) eqn:Hlt; [|done].
  unfold with_score in *. simpl in *. rewrite IH.
  destruct (Float.eqb (key x) q) eqn:Hx; [|done].
  destruct (Float.eqb (key y) q) eqn:Hy; [|done].
  by rewrite (float_eqb_ltb_false _ _ _ Hx Hy) in Hlt.
Qed.

Lemma stable_desc_stable (q : Float.float) (l : list A) :
  with_score key q (stable_desc key l) = with_score key q l.
Proof.
  induction l as [|x l IH]; [done|].
  simpl stable_desc. rewrite insert_stable_with_score.
  unfold with_score in *. simpl. by rewrite IH.
Qed.

(** The sort looks at the keys of the elements only. *)
Lemma insert_stable_ext (key' : A -> Float.float) (x : A) (l : list A) :
  key x = key' x ->
  (forall y, y ∈ l -> key y = key' y) ->
  insert_stable key x l = insert_stable key' x l.
Proof.
  intros Hx. induction l as [|y l IH]; intros Hl; [done|]. simpl.
  rewrite (Hl y), Hx by apply list_elem_of_here.
  rewrite IH; [done|]. intros z Hz. by apply Hl, list_elem_of_further.
Qed.

Lemma stable_desc_ext (key' : A -> Float.float) (l : list A) :
  (forall y, y ∈ l -> key y = key' y) ->
  stable_desc key l = stable_desc key' l.
Proof.
  induction l as [|x l IH]; intros Hl; [done|]. simpl.
  rewrite <- IH by (intros y Hy; by apply Hl, list_elem_of_further).
  apply insert_stable_ext; [apply Hl, list_elem_of_here|].
  intros y Hy. apply Hl, list_elem_of_further.
  by rewrite <- (stable_desc_perm l).
Qed.

(** A list already in descending order is left as it is. *)
Lemma stable_desc_of_sorted (l : list A) :
  Sorted (fdesc key) l -> stable_desc key l = l.
Proof.
  induction 1 as [|x l Hs IH Hhd]; [done|]. simpl. rewrite IH.
  destruct Hhd as [|y l' Hxy]; [done|]. simpl.
  by rewrite (float_leb_ltb_false _ _ Hxy).
Qed.
End FloatSortFacts.

Lemma insert_stable_map {A B : Type} (f : B -> A) (key : A -> Float.float) (x : B)
    (l : list B) :
  insert_stable key (f x) (map f l) = map f (insert_stable (fun y => key (f y)) x l).
Proof.
  induction l as [|y l IH]; [done|]. simpl.
  destruct (Float.ltb (key (f x)) (key (f y))); [|done]. simpl. by rewrite IH.
Qed.

Lemma stable_desc_map {A B : Type} (f : B -> A) (key : A -> Float.float) (l : list B) :
  stable_desc key (map f l) = map f (stable_desc (fun y => key (f y)) l).
Proof.
  induction l as [|x l IH]; [done|]. simpl. by rewrite IH, insert_stable_map.
Qed.

Section ArrangeFacts.
Context {A : Type}.

Lemma arrange_map {B : Type} (f : A -> B) (order : list nat) (xs : list A) :
  arrange order (map f xs) = map f (arrange order xs).
Proof.
  unfold arrange. induction order as [|i order IH]; [done|]. csimpl.
  rewrite list_lookup_fmap, IH. by destruct (xs !! i).
Qed.

Lemma arrange_seq_from (xs pre : list A) :
  arrange (seq (length pre) (length xs)) (pre ++ xs) = xs.
Proof.
  unfold arrange. revert pre. induction xs as [|x xs IH]; intros pre; [done|].
  csimpl. rewrite lookup_app_r, Nat.sub_diag by lia. simpl. f_equal.
  specialize (IH (pre ++ [x])). rewrite length_app, <- app_assoc in IH. simpl in IH.
  by rewrite Nat.add_1_r in IH.
Qed.

Lemma arrange_perm (order : list nat) (xs : list A) :
  order ≡ₚ seq 0 (length xs) -> arrange order xs ≡ₚ xs.
Proof.
  intros Hperm. pose proof (arrange_seq_from xs []) as Hseq. simpl in Hseq.
  unfold arrange in *. by rewrite Hperm, Hseq.
Qed.

Lemma enumerate_from_map {B : Type} (f : A -> B) (xs : list A) :
  forall n : nat,
    enumerate_from n (map f xs) = map (fun p => (p.1, f p.2)) (enumerate_from n xs).
Proof. induction xs as [|x xs IH]; intros n; [done|]. simpl. by rewrite IH. Qed.

Lemma enumerate_from_lookup (xs : list A) (p : nat * A) :
  forall (n : nat) (pre : list A),
    length pre = n -> p ∈ enumerate_from n xs -> (pre ++ xs) !! p.1 = Some p.2.
Proof.
  induction xs as [|x xs IH]; intros n pre Hn; simpl; [by intros ?%elem_of_nil|].
  intros [->|Hin]%elem_of_cons.
  - simpl. by rewrite lookup_app_r, Hn, Nat.sub_diag by lia.
  - rewrite (cons_middle x), app_assoc. apply (IH (S n)); [|done].
    rewrite length_app. simpl. lia.
Qed.

Lemma map_snd_enumerate_from (l : list A) :
  forall n : nat, map snd (enumerate_from n l) = l.
Proof. induction l as [|x l IH]; intros n; simpl; [done | by rewrite IH]. Qed.

(** On keys that are all numbers, the arrangement is the stable descending
    sort. *)
Lemma arrange_stable_order (key : A -> Float.float) (xs : list A) :
  arrange (stable_order (map key xs)) xs = stable_desc key xs.
Proof.
  unfold stable_order, enumerate. rewrite enumerate_from_map.
  rewrite (stable_desc_map (fun p : nat * A => (p.1, key p.2)) snd), map_map. cbn [fst snd].
  set (S := stable_desc (fun y : nat * A => key y.2) (enumerate_from 0 xs)).
  assert (HS : forall p, p ∈ S -> xs !! p.1 = Some p.2).
  { intros p Hp. unfold S in Hp. rewrite stable_desc_perm in Hp.
    by apply (enumerate_from_lookup xs p 0%nat []). }
  transitivity (map snd S).
  - unfold arrange. clearbody S. induction S as [|p S IH]; [done|]. csimpl.
    rewrite (HS p) by apply list_elem_of_here. simpl. f_equal.
    apply IH. intros q Hq. by apply HS, list_elem_of_further.
  - unfold S. rewrite <- (stable_desc_map snd key), map_snd_enumerate_from. done.
Qed.

Lemma stable_order_permutes : permutes stable_order.
Proof.
  intros keys. unfold stable_order. rewrite stable_desc_perm.
  unfold enumerate. generalize 0%nat. induction keys as [|k keys IH]; intros n; [done|].
  simpl. by rewrite IH.
Qed.

Lemma stable_order_python_sort : python_sort stable_order.
Proof. split; [apply stable_order_permutes | done]. Qed.
End ArrangeFacts.

(** ** Rounding to the nearest double is monotone *)

Section Pow2.
Lemma pow2_pos (e : Z) : (0 < 2 ^ e)%Q.
Proof. by apply Qpower_0_lt. Qed.

Lemma pow2_plus (a b : Z) : (2 ^ (a + b) == 2 ^ a * 2 ^ b)%Q.
Proof. by apply Qpower_plus. Qed.

Lemma pow2_le (a b : Z) : a <= b -> (2 ^ a <= 2 ^ b)%Q.
Proof. intros H. by apply Qpower_le_compat_l. Qed.

Lemma pow2_lt (a b : Z) : a < b -> (2 ^ a < 2 ^ b)%Q.
Proof. intros H. by apply Qpower_lt_compat_l. Qed.

Lemma pow2_lt_inv (a b : Z) : (2 ^ a < 2 ^ b)%Q -> a < b.
Proof. intros H. by apply (Qpower_lt_compat_l_inv 2). Qed.

Lemma pow2_Z (e : Z) : 0 <= e -> (2 ^ e == inject_Z (2 ^ e))%Q.
Proof. intros H. by rewrite Zpower_Qpower. Qed.

Lemma pow2_succ (e : Z) : (2 ^ (e + 1) == 2 * 2 ^ e)%Q.
Proof. rewrite pow2_plus. change (2 ^ 1)%Q with 2%Q. ring. Qed.
End Pow2.

Section Sticky.

Lemma Qfloor_unique (z : Q) (n : Z) :
  (inject_Z n <= z)%Q -> (z < inject_Z (n + 1))%Q -> Qfloor z = n.
Proof.
  intros Hle Hlt.
  pose proof (Qfloor_le z) as H1. pose proof (Qlt_floor z) as H2.
  assert (Qfloor z < n + 1).
  { rewrite Zlt_Qlt. eapply Qle_lt_trans; [exact H1 | exact Hlt]. }
  assert (n < Qfloor z + 1).
  { rewrite Zlt_Qlt. eapply Qle_lt_trans; [exact Hle | exact H2]. }
  lia.
Qed.

Lemma is_integer_spec (z : Q) :
  Qeq_bool (inject_Z (Qfloor z)) z = true <-> exists n : Z, (z == inject_Z n)%Q.
Proof.
  rewrite Qeq_bool_iff. split.
  - intros H. exists (Qfloor z). by rewrite H.
  - intros [n Hn]. rewrite Hn at 1. by rewrite Qfloor_Z, Hn.
Qed.

Lemma sticky_Z (n : Z) : sticky (inject_Z n) = 2 * n.
Proof.
  unfold sticky. rewrite Qfloor_Z.
  rewrite (proj2 (Qeq_bool_iff _ _)) by reflexivity. lia.
Qed.

Lemma sticky_comp (z z' : Q) : (z == z')%Q -> sticky z = sticky z'.
Proof.
  intros H. unfold sticky. rewrite (Qfloor_comp _ _ H).
  destruct (Qeq_bool (inject_Z (Qfloor z')) z) eqn:H1,
           (Qeq_bool (inject_Z (Qfloor z')) z') eqn:H2; try done.
  - apply Qeq_bool_iff in H1. pose proof (Qeq_trans _ _ _ H1 H) as H3.
    apply Qeq_bool_iff in H3. congruence.
  - apply Qeq_bool_iff in H2. pose proof (Qeq_trans _ _ _ H2 (Qeq_sym _ _ H)) as H3.
    apply Qeq_bool_iff in H3. congruence.
Qed.

Lemma sticky_mono (z z' : Q) : (z <= z')%Q -> sticky z <= sticky z'.
Proof.
  intros Hle. unfold sticky.
  pose proof (Qfloor_resp_le _ _ Hle) as Hf.
  destruct (Qeq_bool (inject_Z (Qfloor z)) z) eqn:H1,
           (Qeq_bool (inject_Z (Qfloor z')) z') eqn:H2; try lia.
  apply Qeq_bool_iff in H2. apply Qeq_bool_neq in H1.
  destruct (decide (Qfloor z = Qfloor z')) as [Heq|]; [|lia].
  exfalso. apply H1. apply Qle_antisym; [apply Qfloor_le|].
  rewrite Heq, H2. exact Hle.
Qed.

Lemma sticky_bounds (z : Q) (n : Z) :
  (inject_Z n <= z)%Q -> 2 * n <= sticky z.
Proof. intros H. rewrite <- sticky_Z. by apply sticky_mono. Qed.

Lemma sticky_below (z : Q) (n : Z) :
  (z < inject_Z n)%Q -> sticky z < 2 * n.
Proof.
  intros H. unfold sticky.
  assert (Qfloor z < n).
  { rewrite Zlt_Qlt. eapply Qle_lt_trans; [apply Qfloor_le | exact H]. }
  destruct (Qeq_bool _ _); lia.
Qed.

Lemma Qfloor_half (z : Q) : Qfloor (z / 2) = Qfloor z / 2.
Proof.
  pose proof (Qfloor_le z) as H1. pose proof (Qlt_floor z) as H2.
  pose proof (Z.div_mod (Qfloor z) 2 ltac:(lia)) as Hdm.
  pose proof (Z.mod_pos_bound (Qfloor z) 2 ltac:(lia)) as Hb.
  set (g := Qfloor z / 2) in *. set (t := Qfloor z mod 2) in *.
  rewrite Hdm in H1, H2.
  rewrite inject_Z_plus, inject_Z_mult in H1.
  rewrite !inject_Z_plus, inject_Z_mult in H2.
  assert (Ht : (0 <= inject_Z t <= 1)%Q).
  { split; [change 0%Q with (inject_Z 0) | change 1%Q with (inject_Z 1)];
      rewrite <- Zle_Qle; lia. }
  apply Qfloor_unique.
  - apply Qle_shift_div_l; [reflexivity|]. change (inject_Z 2) with 2%Q in *.
    change (inject_Z 1) with 1%Q in *. lra.
  - apply Qlt_shift_div_r; [reflexivity|]. rewrite inject_Z_plus.
    change (inject_Z 2) with 2%Q in *. change (inject_Z 1) with 1%Q in *. lra.
Qed.

Lemma sticky_half (z : Q) : sticky (z / 2) = halve (sticky z).
Proof.
  unfold sticky at 1. rewrite Qfloor_half.
  unfold halve.
  pose proof (Z.div_mod (Qfloor z) 2 ltac:(lia)) as Hdm.
  pose proof (Z.mod_pos_bound (Qfloor z) 2 ltac:(lia)) as Hb.
  assert (Hint : Qeq_bool (inject_Z (Qfloor z / 2)) (z / 2) = true
                 <-> Qeq_bool (inject_Z (Qfloor z)) z = true /\ Qfloor z mod 2 = 0).
  { rewrite !Qeq_bool_iff. split.
    - intros H.
      assert (Hz : (z == inject_Z (2 * (Qfloor z / 2)))%Q).
      { rewrite inject_Z_mult, H. change (inject_Z 2) with 2%Q. field. }
      assert (Qfloor z = 2 * (Qfloor z / 2)) as Hf
        by (rewrite Hz at 1; by rewrite Qfloor_Z).
      split; [|lia]. rewrite Hf at 1. by rewrite Hz at 2.
    - intros [H Hm]. rewrite <- H at 2.
      replace (Qfloor z) with (2 * (Qfloor z / 2)) at 2 by lia.
      rewrite inject_Z_mult. change (inject_Z 2) with 2%Q. field. }
  unfold sticky.
  destruct (Qeq_bool (inject_Z (Qfloor z / 2)) (z / 2)) eqn:H1,
           (Qeq_bool (inject_Z (Qfloor z)) z) eqn:H2.
  - assert (Qfloor z mod 2 = 0) by tauto.
    replace ((2 * Qfloor z + 0) mod 4) with 0 by (Z.div_mod_to_equations; lia).
    simpl. Z.div_mod_to_equations; lia.
  - exfalso. assert (false = true) by tauto. done.
  - assert (Qfloor z mod 2 <> 0) by (intros ?; assert (false = true) by tauto; done).
    destruct (Z.eqb_spec ((2 * Qfloor z + 0) mod 4) 0);
      Z.div_mod_to_equations; lia.
  - destruct (Z.eqb_spec ((2 * Qfloor z + 1) mod 4) 0);
      Z.div_mod_to_equations; lia.
Qed.
End Sticky.

Section ShiftRegister.

Lemma halve_spec (m : Z) (r s : bool) :
  halve (4 * m + 2 * Z.b2z r + Z.b2z s)
  = 4 * (m / 2) + 2 * (m mod 2) + Z.b2z (r || s).
Proof.
  unfold halve.
  destruct (Z.eqb_spec ((4 * m + 2 * Z.b2z r + Z.b2z s) mod 4) 0);
    destruct r, s; simpl in *; Z.div_mod_to_equations; lia.
Qed.

Lemma shr_1_code (mrs : shr_record) :
  0 <= shr_m mrs ->
  code_of (shr_1 mrs) = halve (code_of mrs) /\ 0 <= shr_m (shr_1 mrs).
Proof.
  destruct mrs as [m r s]. unfold code_of. cbn [shr_m shr_r shr_s]. intros Hm.
  rewrite halve_spec.
  destruct m as [|[p|p|]|p]; [| | | |lia]; cbn [shr_1 shr_m shr_r shr_s];
    (split; [|lia]).
  - by destruct (r || s).
  - rewrite Pos2Z.inj_xI. destruct (r || s); cbn [Z.b2z]; Z.div_mod_to_equations; lia.
  - rewrite Pos2Z.inj_xO. destruct (r || s); cbn [Z.b2z]; Z.div_mod_to_equations; lia.
  - by destruct (r || s).
Qed.

Lemma shr_1_represents (u : Q) (mrs : shr_record) :
  represents u mrs -> represents (u / 2) (shr_1 mrs).
Proof.
  intros [Hm Hc]. destruct (shr_1_code mrs Hm) as [Hc' Hm'].
  split; [done|]. rewrite Hc', Hc, <- sticky_half.
  apply sticky_comp. field.
Qed.

Lemma represents_comp (u u' : Q) (mrs : shr_record) :
  (u == u')%Q -> represents u mrs -> represents u' mrs.
Proof.
  intros H [Hm Hc]. split; [done|]. rewrite Hc. apply sticky_comp. by rewrite H.
Qed.

Lemma iter_pos_represents (p : positive) :
  forall (u : Q) (mrs : shr_record),
    represents u mrs -> represents (u / 2 ^ Z.pos p) (SpecFloat.iter_pos shr_1 p mrs).
Proof.
  induction p as [p IH|p IH|]; intros u mrs H; cbn [SpecFloat.iter_pos].
  - apply (represents_comp (u / 2 / 2 ^ Z.pos p / 2 ^ Z.pos p)).
    + pose proof (pow2_succ (Z.pos p + Z.pos p)) as H1.
      pose proof (pow2_plus (Z.pos p) (Z.pos p)) as H2.
      replace (Z.pos p + Z.pos p + 1) with (Z.pos p~1) in H1 by lia.
      rewrite H1, H2. pose proof (pow2_pos (Z.pos p)). field. lra.
    + by apply IH, IH, shr_1_represents.
  - apply (represents_comp (u / 2 ^ Z.pos p / 2 ^ Z.pos p)).
    + pose proof (pow2_plus (Z.pos p) (Z.pos p)) as H2.
      replace (Z.pos p + Z.pos p) with (Z.pos p~0) in H2 by lia.
      rewrite H2. pose proof (pow2_pos (Z.pos p)). field. lra.
    + by apply IH, IH.
  - apply (represents_comp (u / 2)); [|by apply shr_1_represents].
    change (2 ^ 1)%Q with 2%Q. reflexivity.
Qed.

Lemma shr_represents (u : Q) (mrs : shr_record) (e n : Z) :
  represents u mrs -> 0 <= n ->
  represents (u / 2 ^ n) (fst (shr mrs e n)) /\ snd (shr mrs e n) = e + n.
Proof.
  intros H Hn. destruct n as [|p|p]; [| |lia]; cbn [shr fst snd].
  - split; [|lia]. apply (represents_comp u); [|done].
    change (2 ^ 0)%Q with 1%Q. field.
  - split; [|done]. by apply iter_pos_represents.
Qed.

Lemma represents_of_loc (u : Q) (m : Z) (l : location) :
  represents u (shr_record_of_loc m l)
  -> 0 <= m /\ (inject_Z m <= u)%Q /\ (u < inject_Z (m + 1))%Q.
Proof.
  intros [Hm Hc]. cbn in Hm.
  assert (Hm' : shr_m (shr_record_of_loc m l) = m) by (by destruct l as [|[]]).
  rewrite Hm' in Hm. split; [done|].
  unfold code_of in Hc. rewrite Hm' in Hc.
  assert (Hrs : 0 <= 2 * Z.b2z (shr_r (shr_record_of_loc m l))
                     + Z.b2z (shr_s (shr_record_of_loc m l)) <= 3)
    by (destruct l as [|[]]; simpl; lia).
  split.
  - destruct (Qlt_le_dec u (inject_Z m)) as [Hlt|]; [|done]. exfalso.
    assert ((2 * u < inject_Z (2 * m))%Q)
      by (rewrite inject_Z_mult; change (inject_Z 2) with 2%Q; lra).
    pose proof (sticky_below _ _ H). lia.
  - destruct (Qlt_le_dec u (inject_Z (m + 1))) as [|Hle]; [done|]. exfalso.
    assert ((inject_Z (2 * (m + 1)) <= 2 * u)%Q)
      by (rewrite inject_Z_mult; change (inject_Z 2) with 2%Q; lra).
    pose proof (sticky_bounds _ _ H). lia.
Qed.
End ShiftRegister.

Section RoundCode.

Lemma round_code (mrs : shr_record) :
  round_nearest_even (shr_m mrs) (loc_of_shr_record mrs) = rne_code (code_of mrs).
Proof.
  destruct mrs as [m r s]. unfold rne_code, code_of. cbn [shr_m shr_r shr_s].
  assert (Hd : (4 * m + 2 * Z.b2z r + Z.b2z s) / 4 = m)
    by (destruct r, s; simpl; Z.div_mod_to_equations; lia).
  assert (Hk : (4 * m + 2 * Z.b2z r + Z.b2z s) mod 4 = 2 * Z.b2z r + Z.b2z s)
    by (destruct r, s; simpl; Z.div_mod_to_equations; lia).
  rewrite Hd, Hk. by destruct r, s.
Qed.

Lemma rne_code_exact (k : Z) : rne_code (4 * k) = k.
Proof.
  unfold rne_code.
  replace (4 * k mod 4) with 0 by (Z.div_mod_to_equations; lia).
  simpl. Z.div_mod_to_equations; lia.
Qed.

Lemma rne_code_bounds (c : Z) : c / 4 <= rne_code c <= c / 4 + 1.
Proof.
  unfold rne_code. destruct (c mod 4 <=? 1); [lia|].
  destruct (c mod 4 =? 2); [|lia]. destruct (Z.even (c / 4)); lia.
Qed.

Lemma rne_code_mono (c c' : Z) : c <= c' -> rne_code c <= rne_code c'.
Proof.
  intros Hle.
  destruct (decide (c / 4 = c' / 4)) as [Heq|Hne].
  - unfold rne_code. rewrite Heq.
    assert (c mod 4 <= c' mod 4) by (Z.div_mod_to_equations; lia).
    destruct (Z.leb_spec (c mod 4) 1), (Z.leb_spec (c' mod 4) 1),
             (Z.eqb_spec (c mod 4) 2), (Z.eqb_spec (c' mod 4) 2),
             (Z.even (c' / 4)); lia.
  - assert (c / 4 + 1 <= c' / 4) by (Z.div_mod_to_equations; lia).
    pose proof (rne_code_bounds c). pose proof (rne_code_bounds c'). lia.
Qed.
End RoundCode.

Section Digits.

Lemma digits2_pos_size (p : positive) : digits2_pos p = Pos.size p.
Proof. induction p; simpl; congruence. Qed.

Lemma Zdigits2_pos_bounds (p : positive) :
  2 ^ (Zdigits2 (Z.pos p) - 1) <= Z.pos p < 2 ^ Zdigits2 (Z.pos p).
Proof.
  cbn [Zdigits2]. rewrite digits2_pos_size.
  pose proof (Pos.size_gt p) as Hgt. pose proof (Pos.size_le p) as Hle.
  assert (H2 : Z.pos (2 ^ Pos.size p) = 2 ^ Z.pos (Pos.size p))
    by (by rewrite Pos2Z.inj_pow).
  split.
  - assert (2 ^ Z.pos (Pos.size p) <= 2 * Z.pos p) by (rewrite <- H2; lia).
    replace (Z.pos (Pos.size p)) with (Z.pos (Pos.size p) - 1 + 1) in H by lia.
    rewrite Z.pow_add_r in H by lia. lia.
  - rewrite <- H2. lia.
Qed.

Lemma Zdigits2_nonneg (m : Z) : 0 <= Zdigits2 m.
Proof. destruct m; simpl; lia. Qed.

Lemma Zdigits2_unique (m d : Z) :
  2 ^ (d - 1) <= m < 2 ^ d -> 0 < m -> Zdigits2 m = d.
Proof.
  intros [Hlo Hhi] Hm. destruct m as [|p|p]; [lia| |lia].
  pose proof (Zdigits2_pos_bounds p) as [Hlo' Hhi'].
  pose proof (Zdigits2_nonneg (Z.pos p)).
  assert (0 <= d) by (destruct (Z.le_gt_cases 0 d); [done|];
                      rewrite Z.pow_neg_r in Hhi by lia; lia).
  assert (Zdigits2 (Z.pos p) - 1 < d).
  { apply (Z.pow_lt_mono_r_iff 2); lia. }
  assert (d - 1 < Zdigits2 (Z.pos p)).
  { apply (Z.pow_lt_mono_r_iff 2); lia. }
  lia.
Qed.
End Digits.

Section Rounding.

Lemma fexp_eq (e : Z) : fexp 53 1024 e = Z.max (e - 53) (-1074).
Proof. reflexivity. Qed.

Lemma Zdigits2_le_53 (n : Z) : 0 < n < 2 ^ 53 -> Zdigits2 n <= 53.
Proof.
  intros [Hpos Hlt]. destruct n as [|p|p]; [lia| |lia].
  pose proof (Zdigits2_pos_bounds p) as [Hlo _].
  destruct (Z.le_gt_cases (Zdigits2 (Z.pos p)) 53) as [|Hgt]; [done|].
  assert (2 ^ 53 <= 2 ^ (Zdigits2 (Z.pos p) - 1)) by (apply Z.pow_le_mono_r; lia).
  lia.
Qed.

Lemma finish_spec (n e : Z) :
  0 <= n <= 2 ^ 53 -> -1074 <= e ->
  (let '(mrs, e') := shr_fexp 53 1024 n e loc_Exact in
   match shr_m mrs with
   | Z0 => S754_zero false
   | Z.pos m => if e' <=? 1024 - 53 then S754_finite false m e' else S754_infinity false
   | Z.neg _ => S754_nan
   end) = finish n e.
Proof.
  intros Hn He. unfold finish, shr_fexp. rewrite fexp_eq.
  destruct (Z.eqb_spec n 0) as [->|Hn0].
  - cbn [Zdigits2]. replace (Z.max (0 + e - 53) (-1074) - e) with
      (Z.max (- 53) (-1074 - e)) by lia.
    destruct (Z.max (-53) (-1074 - e)) eqn:Hs; [done|lia|done].
  - destruct (Z.eqb_spec n (2 ^ 53)) as [->|Hn53].
    + change (Zdigits2 (2 ^ 53)) with 54.
      replace (Z.max (54 + e - 53) (-1074) - e) with 1 by lia.
      cbn [shr shr_record_of_loc SpecFloat.iter_pos].
      change (shr_m (shr_1 {| shr_m := 2 ^ 53; shr_r := false; shr_s := false |}))
        with (2 ^ 52).
      replace (1024 - 53) with 971 by lia. done.
    + pose proof (Zdigits2_le_53 n ltac:(lia)) as Hd.
      destruct (Z.max (Zdigits2 n + e - 53) (-1074) - e) as [|s|s] eqn:Hs; [|lia|];
        cbn [shr shr_record_of_loc shr_m]; (destruct n as [|q|q]; [lia|done|lia]).
Qed.

Lemma pow2_scale (X : Q) (E e : Z) : (X / 2 ^ e == X / 2 ^ E * 2 ^ (E - e))%Q.
Proof.
  pose proof (pow2_plus e (E - e)) as H. replace (e + (E - e)) with E in H by lia.
  pose proof (pow2_pos e). pose proof (pow2_pos (E - e)).
  rewrite H. field. split; lra.
Qed.

Lemma Zdigits2_upper (M : Z) : 0 <= M -> M + 1 <= 2 ^ Zdigits2 M.
Proof.
  intros HM. destruct M as [|p|p]; [done| |lia].
  pose proof (Zdigits2_pos_bounds p). lia.
Qed.

Lemma Zdigits2_lower (M : Z) : 0 < M -> 2 ^ (Zdigits2 M - 1) <= M.
Proof.
  intros HM. destruct M as [|p|p]; [lia| |lia].
  pose proof (Zdigits2_pos_bounds p). lia.
Qed.

Lemma nearest_upper (t : Q) (k : Z) :
  0 <= k -> (t < 2 ^ k)%Q -> rne_code (sticky (2 * t)) <= 2 ^ k.
Proof.
  intros Hk Ht. rewrite pow2_Z in Ht by done.
  assert (H2 : (2 * t < inject_Z (2 * 2 ^ k))%Q)
    by (rewrite inject_Z_mult; change (inject_Z 2) with 2%Q; lra).
  pose proof (sticky_below _ _ H2) as Hs.
  pose proof (rne_code_bounds (sticky (2 * t))). Z.div_mod_to_equations. lia.
Qed.

Lemma nearest_lower (t : Q) (k : Z) :
  0 <= k -> (2 ^ k <= t)%Q -> 2 ^ k <= rne_code (sticky (2 * t)).
Proof.
  intros Hk Ht. rewrite pow2_Z in Ht by done.
  assert (H2 : (inject_Z (2 * 2 ^ k) <= 2 * t)%Q)
    by (rewrite inject_Z_mult; change (inject_Z 2) with 2%Q; lra).
  pose proof (sticky_bounds _ _ H2) as Hs.
  rewrite <- (rne_code_exact (2 ^ k)). apply rne_code_mono. lia.
Qed.

Lemma nearest_nonneg (t : Q) : (0 <= t)%Q -> 0 <= rne_code (sticky (2 * t)).
Proof.
  intros Ht.
  assert (H2 : (inject_Z 0 <= 2 * t)%Q) by (change (inject_Z 0) with 0%Q; lra).
  pose proof (sticky_bounds _ _ H2) as Hs.
  pose proof (rne_code_bounds (sticky (2 * t))). Z.div_mod_to_equations. lia.
Qed.

(** What [binary_round_aux] computes for the number [X], given by a
    mantissa [M] at exponent [E] with the position of the rest. *)
Lemma round_aux_spec (M E : Z) (l : location) (X : Q) :
  represents (X / 2 ^ E) (shr_record_of_loc M l) ->
  E <= fexp 53 1024 (Zdigits2 M + E) ->
  let e := fexp 53 1024 (Zdigits2 M + E) in
  binary_round_aux 53 1024 false M E l = finish (nearest X e) e /\ rounded (nearest X e) e.
Proof.
  intros Hrep Hprec e.
  destruct (represents_of_loc _ _ _ Hrep) as (HM & Hlo & Hhi).
  destruct (shr_represents (X / 2 ^ E) (shr_record_of_loc M l) E (e - E) Hrep
              ltac:(unfold e; lia)) as [Hrep' Hsnd].
  assert (Hr : rounded (nearest X e) e).
  { unfold rounded, nearest. set (t := (X / 2 ^ e)%Q).
    assert (Ht : (t == X / 2 ^ E * 2 ^ (E - e))%Q) by apply pow2_scale.
    pose proof (pow2_pos (E - e)) as Hpos.
    pose proof (Zdigits2_nonneg M) as Hd.
    assert (He : e = Z.max (Zdigits2 M + E - 53) (-1074)) by (unfold e; apply fexp_eq).
    split; [split|split].
    - apply nearest_nonneg. rewrite Ht. apply Qmult_le_0_compat; [|lra].
      eapply Qle_trans; [|exact Hlo].
      change 0%Q with (inject_Z 0). rewrite <- Zle_Qle. done.
    - apply nearest_upper; [lia|]. rewrite Ht.
      eapply Qlt_le_trans; [apply Qmult_lt_compat_r; [done|exact Hhi]|].
      apply (Qle_trans _ (inject_Z (2 ^ Zdigits2 M) * 2 ^ (E - e))).
      { apply Qmult_le_compat_r; [|lra].
        rewrite <- Zle_Qle. by apply Zdigits2_upper. }
      rewrite <- pow2_Z, <- pow2_plus by done. apply pow2_le. lia.
    - lia.
    - destruct (decide (e = -1074)) as [|Hne]; [by right|left].
      assert (0 < M).
      { destruct (decide (M = 0)) as [->|]; [|lia]. cbn in He. unfold e in Hprec.
        rewrite fexp_eq in Hprec. cbn in Hprec. lia. }
      change (2 ^ 52) with (2 ^ 52). apply nearest_lower; [lia|]. rewrite Ht.
      eapply Qle_trans;
        [|apply Qmult_le_compat_r; [exact Hlo|lra]].
      apply (Qle_trans _ (inject_Z (2 ^ (Zdigits2 M - 1)) * 2 ^ (E - e))).
      2: { apply Qmult_le_compat_r; [|lra].
           rewrite <- Zle_Qle. by apply Zdigits2_lower. }
      assert (0 < Zdigits2 M) by (destruct M; simpl; lia).
      rewrite <- pow2_Z, <- pow2_plus by lia. apply pow2_le. lia. }
  split; [|done].
  unfold binary_round_aux. unfold shr_fexp at 1. fold e.
  destruct (shr (shr_record_of_loc M l) E (e - E)) as [mrs' e'].
  cbn [fst snd] in Hrep', Hsnd. subst e'. replace (E + (e - E)) with e by lia.
  rewrite round_code. destruct Hrep' as [_ ->].
  assert (Hn : rne_code (sticky (2 * (X / 2 ^ E / 2 ^ (e - E)))) = nearest X e).
  { unfold nearest. f_equal. apply sticky_comp.
    pose proof (pow2_plus E (e - E)) as H. replace (E + (e - E)) with e in H by lia.
    pose proof (pow2_pos E). pose proof (pow2_pos (e - E)).
    rewrite H. field. split; lra. }
  rewrite Hn. apply finish_spec; apply Hr.
Qed.
End Rounding.

Section RoundingOrder.

Lemma SFleb_finite_pos (m1 m2 : positive) (e1 e2 : Z) :
  SFleb (S754_finite false m1 e1) (S754_finite false m2 e2) = true
  <-> e1 < e2 \/ (e1 = e2 /\ Z.pos m1 <= Z.pos m2).
Proof.
  unfold SFleb. cbn [SFcompare].
  change (Pos.compare_cont Eq m1 m2) with (m1 ?= m2)%positive.
  destruct (Z.compare_spec e1 e2); [|split; [lia|done]|split; [done|lia]].
  destruct (Pos.compare_spec m1 m2); split; try done; try lia.
Qed.

Lemma finish_le (n1 e1 n2 e2 : Z) :
  rounded n1 e1 -> rounded n2 e2 ->
  e1 < e2 \/ (e1 = e2 /\ n1 <= n2) ->
  SFleb (finish n1 e1) (finish n2 e2) = true.
Proof.
  unfold rounded, finish.
  intros (Hn1 & He1 & Hs1) (Hn2 & He2 & Hs2) Hle.
  assert (H52 : Z.pos (Z.to_pos (2 ^ 52)) = 2 ^ 52) by done.
  destruct (Z.eqb_spec n1 0), (Z.eqb_spec n2 0),
           (Z.eqb_spec n1 (2 ^ 53)), (Z.eqb_spec n2 (2 ^ 53)),
           (Z.leb_spec (e1 + 1) 971), (Z.leb_spec (e2 + 1) 971),
           (Z.leb_spec e1 971), (Z.leb_spec e2 971);
    try done; try lia;
    rewrite SFleb_finite_pos, ?H52, ?Z2Pos.id by lia; lia.
Qed.

Lemma finish_not_nan (n e : Z) : finish n e <> S754_nan.
Proof.
  unfold finish. destruct (n =? 0); [done|].
  destruct (n =? 2 ^ 53); [by destruct (e + 1 <=? 971)|by destruct (e <=? 971)].
Qed.

Lemma finish_valid (n e : Z) : rounded n e -> valid_binary 53 1024 (finish n e) = true.
Proof.
  unfold rounded, finish. intros (Hn & He & Hs).
  destruct (Z.eqb_spec n 0); [done|].
  destruct (Z.eqb_spec n (2 ^ 53)) as [->|].
  - destruct (Z.leb_spec (e + 1) 971); [|done].
    cbn [valid_binary]. unfold bounded, canonical_mantissa.
    change (Z.pos (digits2_pos (Z.to_pos (2 ^ 52)))) with 53.
    rewrite fexp_eq. apply andb_true_iff. split; [apply Z.eqb_eq|apply Z.leb_le]; lia.
  - destruct (Z.leb_spec e 971); [|done].
    cbn [valid_binary]. unfold bounded, canonical_mantissa. rewrite fexp_eq.
    assert (Hd : Z.pos (digits2_pos (Z.to_pos n)) = Zdigits2 n)
      by (destruct n; [lia|done|lia]).
    rewrite Hd. pose proof (Zdigits2_le_53 n ltac:(lia)).
    apply andb_true_iff. split; [apply Z.eqb_eq|apply Z.leb_le; lia].
    destruct Hs as [Hs| ->]; [|lia].
    rewrite (Zdigits2_unique n 53); [lia| |lia].
    change (53 - 1) with 52. lia.
Qed.

(** The bounds that a mantissa with [d] digits gives for the number. *)
Lemma represents_bounds (M E : Z) (l : location) (X : Q) :
  represents (X / 2 ^ E) (shr_record_of_loc M l) ->
  (X < 2 ^ (Zdigits2 M + E))%Q
  /\ (0 < M -> (2 ^ (Zdigits2 M + E - 1) <= X)%Q)
  /\ (0 <= X)%Q.
Proof.
  intros Hrep. destruct (represents_of_loc _ _ _ Hrep) as (HM & Hlo & Hhi).
  pose proof (pow2_pos E) as HE. pose proof (Zdigits2_nonneg M) as Hd.
  assert (HX : (X == X / 2 ^ E * 2 ^ E)%Q) by (field; lra).
  split; [|split].
  - rewrite HX at 1. rewrite pow2_plus.
    apply Qmult_lt_compat_r; [done|].
    eapply Qlt_le_trans; [exact Hhi|].
    rewrite pow2_Z by done. rewrite <- Zle_Qle. by apply Zdigits2_upper.
  - intros HM'. rewrite HX.
    replace (Zdigits2 M + E - 1) with (Zdigits2 M - 1 + E) by lia.
    assert (0 < Zdigits2 M) by (destruct M; simpl; lia).
    rewrite pow2_plus. apply Qmult_le_compat_r; [|lra].
    eapply Qle_trans; [|exact Hlo].
    rewrite pow2_Z by lia. rewrite <- Zle_Qle. by apply Zdigits2_lower.
  - rewrite HX. apply Qmult_le_0_compat; [|lra].
    eapply Qle_trans; [|exact Hlo].
    change 0%Q with (inject_Z 0). by rewrite <- Zle_Qle.
Qed.

Lemma nearest_mono (X1 X2 : Q) (e : Z) : (X1 <= X2)%Q -> nearest X1 e <= nearest X2 e.
Proof.
  intros H. unfold nearest. apply rne_code_mono, sticky_mono.
  pose proof (pow2_pos e).
  assert ((X1 / 2 ^ e <= X2 / 2 ^ e)%Q).
  { unfold Qdiv. apply Qmult_le_compat_r; [done|].
    apply Qinv_le_0_compat. lra. }
  lra.
Qed.

(** Rounding is monotone: of two numbers, the smaller one is not rounded
    to the greater double. *)
Lemma round_aux_mono (M1 E1 : Z) (l1 : location) (X1 : Q)
    (M2 E2 : Z) (l2 : location) (X2 : Q) :
  represents (X1 / 2 ^ E1) (shr_record_of_loc M1 l1) ->
  E1 <= fexp 53 1024 (Zdigits2 M1 + E1) ->
  represents (X2 / 2 ^ E2) (shr_record_of_loc M2 l2) ->
  E2 <= fexp 53 1024 (Zdigits2 M2 + E2) ->
  (X1 <= X2)%Q ->
  SFleb (binary_round_aux 53 1024 false M1 E1 l1)
        (binary_round_aux 53 1024 false M2 E2 l2) = true.
Proof.
  intros Hrep1 Hp1 Hrep2 Hp2 HX.
  destruct (round_aux_spec M1 E1 l1 X1 Hrep1 Hp1) as [-> Hr1].
  destruct (round_aux_spec M2 E2 l2 X2 Hrep2 Hp2) as [-> Hr2].
  apply finish_le; [done..|].
  destruct (represents_bounds _ _ _ _ Hrep1) as (_ & Hlo1 & _).
  destruct (represents_bounds _ _ _ _ Hrep2) as (Hhi2 & _ & _).
  destruct (represents_of_loc _ _ _ Hrep1) as (HM1 & _ & _).
  rewrite !fexp_eq in *.
  assert (Hle : Z.max (Zdigits2 M1 + E1 - 53) (-1074)
                <= Z.max (Zdigits2 M2 + E2 - 53) (-1074)).
  { destruct (decide (M1 = 0)) as [->|]; [cbn in Hp1; cbn; lia|].
    assert (Zdigits2 M1 + E1 - 1 < Zdigits2 M2 + E2); [|lia].
    apply pow2_lt_inv. eapply Qle_lt_trans; [apply Hlo1; lia|].
    eapply Qle_lt_trans; [exact HX | exact Hhi2]. }
  destruct (decide (Z.max (Zdigits2 M1 + E1 - 53) (-1074)
                    = Z.max (Zdigits2 M2 + E2 - 53) (-1074))) as [Heq|];
    [right|left; lia].
  split; [done|]. rewrite Heq. by apply nearest_mono.
Qed.

(** Among doubles, the order of the values is the order of exponent and
    mantissa. *)
Lemma finite_value_le (m1 m2 : positive) (e1 e2 : Z) :
  valid_binary 53 1024 (S754_finite false m1 e1) = true ->
  valid_binary 53 1024 (S754_finite false m2 e2) = true ->
  SFleb (S754_finite false m1 e1) (S754_finite false m2 e2) = true ->
  (inject_Z (Z.pos m1) * 2 ^ e1 <= inject_Z (Z.pos m2) * 2 ^ e2)%Q.
Proof.
  cbn [valid_binary]. unfold bounded, canonical_mantissa. rewrite !fexp_eq.
  intros [Hc1%Z.eqb_eq _]%andb_true_iff [Hc2%Z.eqb_eq _]%andb_true_iff.
  rewrite SFleb_finite_pos. intros [Hlt|[-> Hm]].
  - pose proof (Zdigits2_pos_bounds m1) as [_ Hhi1].
    pose proof (Zdigits2_pos_bounds m2) as [Hlo2 _].
    cbn [Zdigits2] in *.
    set (d1 := Z.pos (digits2_pos m1)) in *. set (d2 := Z.pos (digits2_pos m2)) in *.
    assert (d2 = 53) by lia. assert (d1 <= 53) by lia.
    apply Qlt_le_weak.
    apply (Qlt_le_trans _ (2 ^ 53 * 2 ^ e1)).
    { apply Qmult_lt_compat_r; [apply pow2_pos|].
      rewrite pow2_Z by lia. rewrite <- Zlt_Qlt.
      assert (2 ^ d1 <= 2 ^ 53) by (apply Z.pow_le_mono_r; lia). lia. }
    apply (Qle_trans _ (2 ^ 52 * 2 ^ e2)).
    { rewrite <- !pow2_plus. apply pow2_le. lia. }
    apply Qmult_le_compat_r; [|apply Qlt_le_weak, pow2_pos].
    rewrite pow2_Z by lia. rewrite <- Zle_Qle.
    replace 52 with (d2 - 1) by lia. done.
  - apply Qmult_le_compat_r; [|apply Qlt_le_weak, pow2_pos].
    by rewrite <- Zle_Qle.
Qed.

Lemma Zdigits2_mul (a b : positive) :
  Zdigits2 (Z.pos a) + Zdigits2 (Z.pos b) - 1 <= Zdigits2 (Z.pos (a * b)).
Proof.
  pose proof (Zdigits2_pos_bounds a) as [Ha _].
  pose proof (Zdigits2_pos_bounds b) as [Hb _].
  pose proof (Zdigits2_pos_bounds (a * b)) as [_ Hab].
  set (da := Zdigits2 (Z.pos a)) in *. set (db := Zdigits2 (Z.pos b)) in *.
  set (dab := Zdigits2 (Z.pos (a * b))) in *.
  assert (0 < da) by (unfold da; simpl; lia).
  assert (0 < db) by (unfold db; simpl; lia).
  assert (0 < dab) by (unfold dab; simpl; lia).
  assert (2 ^ (da - 1 + (db - 1)) < 2 ^ dab).
  { rewrite Z.pow_add_r by lia. rewrite Pos2Z.inj_mul in Hab. nia. }
  assert (da - 1 + (db - 1) < dab) by (apply (Z.pow_lt_mono_r_iff 2); lia).
  lia.
Qed.

Lemma product_represents (m mw : positive) (e ew : Z) :
  represents
    ((inject_Z (Z.pos m) * 2 ^ e * (inject_Z (Z.pos mw) * 2 ^ ew)) / 2 ^ (e + ew))
    (shr_record_of_loc (Z.pos (m * mw)) loc_Exact).
Proof.
  split; [cbn; lia|].
  unfold code_of. cbn [shr_record_of_loc shr_m shr_r shr_s Z.b2z].
  transitivity (sticky (inject_Z (2 * Z.pos (m * mw)))); [rewrite sticky_Z; lia|].
  apply sticky_comp.
  rewrite Pos2Z.inj_mul, !inject_Z_mult, pow2_plus.
  pose proof (pow2_pos e). pose proof (pow2_pos ew).
  change (inject_Z 2) with 2%Q. field. split; lra.
Qed.

Lemma product_precise (m mw : positive) (e ew : Z) :
  valid_binary 53 1024 (S754_finite false m e) = true ->
  valid_binary 53 1024 (S754_finite false mw ew) = true ->
  e + ew <= fexp 53 1024 (Zdigits2 (Z.pos (m * mw)) + (e + ew)).
Proof.
  cbn [valid_binary]. unfold bounded, canonical_mantissa. rewrite !fexp_eq.
  intros [Hc%Z.eqb_eq _]%andb_true_iff [Hcw%Z.eqb_eq _]%andb_true_iff.
  pose proof (Zdigits2_mul m mw) as Hd. cbn [Zdigits2] in *.
  assert (0 < Z.pos (digits2_pos m)) by lia.
  assert (0 < Z.pos (digits2_pos mw)) by lia.
  lia.
Qed.

(** Multiplying by a double that is not negative is monotone. *)
Lemma SFmul_mono (m1 m2 : positive) (e1 e2 : Z) (w : spec_float) :
  valid_binary 53 1024 (S754_finite false m1 e1) = true ->
  valid_binary 53 1024 (S754_finite false m2 e2) = true ->
  valid_binary 53 1024 w = true ->
  SFleb (S754_zero false) w = true ->
  SFleb (S754_finite false m1 e1) (S754_finite false m2 e2) = true ->
  SFleb (SFmul 53 1024 (S754_finite false m1 e1) w)
        (SFmul 53 1024 (S754_finite false m2 e2) w) = true.
Proof.
  intros Hv1 Hv2 Hvw Hw Hle.
  destruct w as [s|[]| |[] mw ew]; try done.
  cbn [SFmul xorb].
  pose proof (finite_value_le _ _ _ _ Hv1 Hv2 Hle) as HX.
  apply (round_aux_mono _ _ _ _ _ _ _ _
           (product_represents m1 mw e1 ew) (product_precise m1 mw e1 ew Hv1 Hvw)
           (product_represents m2 mw e2 ew) (product_precise m2 mw e2 ew Hv2 Hvw)).
  apply Qmult_le_compat_r; [done|].
  apply Qmult_le_0_compat; [|apply Qlt_le_weak, pow2_pos].
  change 0%Q with (inject_Z 0). by rewrite <- Zle_Qle.
Qed.

Lemma SFmul_not_nan (m : positive) (e : Z) (w : spec_float) :
  valid_binary 53 1024 (S754_finite false m e) = true ->
  valid_binary 53 1024 w = true ->
  SFleb (S754_zero false) w = true ->
  SFmul 53 1024 (S754_finite false m e) w <> S754_nan.
Proof.
  intros Hv Hvw Hw. destruct w as [s|[]| |[] mw ew]; try done.
  cbn [SFmul xorb].
  destruct (round_aux_spec _ _ _ _ (product_represents m mw e ew)
              (product_precise m mw e ew Hv Hvw)) as [-> _].
  apply finish_not_nan.
Qed.
End RoundingOrder.

Section Division.

Lemma Qfloor_fraction (n b : Z) : 0 < b -> Qfloor (inject_Z n / inject_Z b) = n / b.
Proof. intros Hb. symmetry. apply Zdiv_Qdiv. Qed.

Lemma fraction_integer (n b f : Z) :
  0 < b -> (inject_Z f == inject_Z n / inject_Z b)%Q <-> f * b = n.
Proof.
  intros Hb.
  assert (Hb' : (0 < inject_Z b)%Q)
    by (change 0%Q with (inject_Z 0); by rewrite <- Zlt_Qlt).
  split.
  - intros H. apply inject_Z_injective.
    rewrite inject_Z_mult, H. field. lra.
  - intros <-. rewrite inject_Z_mult. field. lra.
Qed.

Lemma sticky_fraction (n b : Z) :
  0 < b ->
  sticky (inject_Z n / inject_Z b) = 2 * (n / b) + (if n mod b =? 0 then 0 else 1).
Proof.
  intros Hb. unfold sticky. rewrite Qfloor_fraction by done. f_equal.
  pose proof (Z.div_mod n b ltac:(lia)) as Hdm.
  destruct (Qeq_bool (inject_Z (n / b)) (inject_Z n / inject_Z b)) eqn:H.
  - apply Qeq_bool_iff in H. apply (fraction_integer n b (n / b) Hb) in H.
    destruct (Z.eqb_spec (n mod b) 0); [done|]. rewrite Z.mul_comm in H. lia.
  - destruct (Z.eqb_spec (n mod b) 0) as [Hz|]; [|done].
    apply Qeq_bool_neq in H. exfalso. apply H.
    apply (fraction_integer n b (n / b) Hb). rewrite Z.mul_comm. lia.
Qed.

(** The quotient and the position of the remainder, as [SFdiv] computes
    them, hold the fraction [n / b]. *)
Lemma new_location_represents (n b : Z) :
  0 < b -> 0 <= n ->
  represents (inject_Z n / inject_Z b)
             (shr_record_of_loc (n / b) (new_location b (n mod b))).
Proof.
  intros Hb Hn.
  assert (Hq : 0 <= n / b) by (apply Z.div_pos; lia).
  split; [by destruct (new_location b (n mod b)) as [|[]]|].
  assert (H2 : (2 * (inject_Z n / inject_Z b) == inject_Z (2 * n) / inject_Z b)%Q).
  { rewrite inject_Z_mult. change (inject_Z 2) with 2%Q.
    assert ((0 < inject_Z b)%Q)
      by (change 0%Q with (inject_Z 0); by rewrite <- Zlt_Qlt).
    field. lra. }
  rewrite (sticky_comp _ _ H2), sticky_fraction by done.
  pose proof (Z.div_mod n b ltac:(lia)) as Hdm.
  pose proof (Z.mod_pos_bound n b Hb) as Hr.
  set (q := n / b) in *. set (r := n mod b) in *.
  assert (Hcases : r = 0 \/ (0 < r /\ 2 * r < b) \/ 2 * r = b \/ (b < 2 * r)) by lia.
  assert (Hloc : new_location b r
                 = if r =? 0 then loc_Exact
                   else loc_Inexact (2 * r ?= b)).
  { unfold new_location, new_location_even, new_location_odd.
    destruct (Z.even b) eqn:Heven; [done|].
    assert (Hodd : b <> 2 * r)
      by (intros Hbr; by rewrite Hbr, Z.even_mul in Heven).
    destruct (r =? 0); [done|]. f_equal.
    destruct (Z.compare_spec (2 * r + 1) b), (Z.compare_spec (2 * r) b);
      try done; lia. }
  rewrite Hloc. unfold code_of.
  destruct Hcases as [Hz|[[Hpos Hlt]|[Heq|Hgt]]].
  - rewrite Hz. cbn [Z.eqb shr_record_of_loc shr_m shr_r shr_s Z.b2z].
    replace (2 * n) with (2 * q * b) by lia.
    rewrite Z.div_mul, Z.mod_mul by lia. cbn. lia.
  - rewrite (proj2 (Z.eqb_neq r 0)) by lia.
    rewrite (proj2 (Z.compare_lt_iff (2 * r) b)) by lia.
    cbn [shr_record_of_loc shr_m shr_r shr_s Z.b2z].
    assert (Hd : (2 * n) / b = 2 * q) by (symmetry; apply (Z.div_unique _ _ _ (2 * r)); lia).
    assert (Hm : (2 * n) mod b = 2 * r) by (symmetry; apply (Z.mod_unique _ _ (2 * q)); lia).
    rewrite Hd, Hm, (proj2 (Z.eqb_neq (2 * r) 0)) by lia. lia.
  - rewrite (proj2 (Z.eqb_neq r 0)) by lia.
    rewrite (proj2 (Z.compare_eq_iff (2 * r) b)) by lia.
    cbn [shr_record_of_loc shr_m shr_r shr_s Z.b2z].
    assert (Hd : (2 * n) / b = 2 * q + 1) by (symmetry; apply (Z.div_unique _ _ _ 0); lia).
    assert (Hm : (2 * n) mod b = 0) by (symmetry; apply (Z.mod_unique _ _ (2 * q + 1)); lia).
    rewrite Hd, Hm. cbn. lia.
  - rewrite (proj2 (Z.eqb_neq r 0)) by lia.
    rewrite (proj2 (Z.compare_gt_iff (2 * r) b)) by lia.
    cbn [shr_record_of_loc shr_m shr_r shr_s Z.b2z].
    assert (Hd : (2 * n) / b = 2 * q + 1)
      by (symmetry; apply (Z.div_unique _ _ _ (2 * r - b)); lia).
    assert (Hm : (2 * n) mod b = 2 * r - b)
      by (symmetry; apply (Z.mod_unique _ _ (2 * q + 1)); lia).
    rewrite Hd, Hm, (proj2 (Z.eqb_neq (2 * r - b) 0)) by lia. lia.
Qed.
End Division.

Section IntegerDivision.

Lemma Zdigits2_mono (a b : positive) :
  Z.pos a <= Z.pos b -> Zdigits2 (Z.pos a) <= Zdigits2 (Z.pos b).
Proof.
  intros Hle.
  pose proof (Zdigits2_pos_bounds a) as [Ha _].
  pose proof (Zdigits2_pos_bounds b) as [_ Hb].
  assert (0 < Zdigits2 (Z.pos a)) by (simpl; lia).
  assert (0 < Zdigits2 (Z.pos b)) by (simpl; lia).
  assert (Zdigits2 (Z.pos a) - 1 < Zdigits2 (Z.pos b))
    by (apply (Z.pow_lt_mono_r_iff 2); lia).
  lia.
Qed.

Lemma Zdigits2_ge (q k : Z) : 0 <= k -> 2 ^ k <= q -> k + 1 <= Zdigits2 q.
Proof.
  intros Hk Hq. assert (0 < q) by (pose proof (Z.pow_pos_nonneg 2 k); lia).
  destruct q as [|p|p]; [lia| |lia].
  pose proof (Zdigits2_pos_bounds p) as [_ Hhi].
  pose proof (Zdigits2_nonneg (Z.pos p)).
  assert (k < Zdigits2 (Z.pos p)) by (apply (Z.pow_lt_mono_r_iff 2); lia).
  lia.
Qed.

Lemma Zdigits2_le (q k : Z) : 0 <= k -> 0 <= q <= 2 ^ k -> Zdigits2 q <= k + 1.
Proof.
  intros Hk Hq. destruct q as [|p|p]; [simpl; lia| |lia].
  pose proof (Zdigits2_pos_bounds p) as [Hlo _].
  assert (0 < Zdigits2 (Z.pos p)) by (simpl; lia).
  assert (Zdigits2 (Z.pos p) - 1 < k + 1)
    by (apply (Z.pow_lt_mono_r_iff 2); [lia..|]; rewrite Z.pow_add_r by lia;
        change (2 ^ 1) with 2; lia).
  lia.
Qed.

(** The quotient of two positive integers, as [SFdiv] rounds it. *)
Lemma div_Z_round (a b : positive) :
  let e' := Z.min (fexp 53 1024 (Zdigits2 (Z.pos a) - Zdigits2 (Z.pos b))) 0 in
  let n := Z.pos a * 2 ^ (- e') in
  SFdiv 53 1024 (S754_finite false a 0) (S754_finite false b 0)
  = binary_round_aux 53 1024 false (n / Z.pos b) e'
      (new_location (Z.pos b) (n mod Z.pos b))
  /\ represents ((inject_Z (Z.pos a) / inject_Z (Z.pos b)) / 2 ^ e')
                (shr_record_of_loc (n / Z.pos b)
                                   (new_location (Z.pos b) (n mod Z.pos b)))
  /\ e' <= fexp 53 1024 (Zdigits2 (n / Z.pos b) + e')
  /\ (-1074 < e' -> 2 ^ 52 <= n / Z.pos b).
Proof.
  intros e' n.
  assert (He' : e' <= 0) by (unfold e'; lia).
  assert (Hn : 0 < n) by (unfold n; pose proof (Z.pow_pos_nonneg 2 (- e')); lia).
  assert (H52 : -1074 < e' -> 2 ^ 52 <= n / Z.pos b).
  { intros Hnorm. unfold e' in Hnorm, He'. rewrite fexp_eq in *.
    pose proof (Zdigits2_pos_bounds a) as [Ha _].
    pose proof (Zdigits2_pos_bounds b) as [_ Hb].
    set (d1 := Zdigits2 (Z.pos a)) in *. set (d2 := Zdigits2 (Z.pos b)) in *.
    assert (0 < d1) by (unfold d1; simpl; lia).
    assert (0 < d2) by (unfold d2; simpl; lia).
    assert (Hs : 53 + d2 - d1 <= - e') by (unfold e'; rewrite fexp_eq; fold d1 d2; lia).
    apply Z.div_le_lower_bound; [lia|].
    assert (2 ^ (52 + d2) <= 2 ^ (d1 - 1 + - e')) by (apply Z.pow_le_mono_r; lia).
    rewrite !Z.pow_add_r in H1 by lia. unfold n.
    assert (0 < 2 ^ 52) by lia. assert (0 < 2 ^ (- e')) by (apply Z.pow_pos_nonneg; lia).
    nia. }
  split; [|split; [|split; [|done]]].
  - cbn [SFdiv xorb]. unfold SFdiv_core_binary.
    rewrite !Z.add_0_r, Z.sub_0_r. fold e'. cbn [Z.sub Z.opp Z.add].
    change (0 - e') with (- e'). 
    assert (Hm : match - e' with
                 | 0 => Z.pos a
                 | Z.pos _ => Z.shiftl (Z.pos a) (- e')
                 | Z.neg _ => 0
                 end = n).
    { unfold n. destruct (- e') as [|p|p] eqn:Hs; [lia| |lia].
      by rewrite Z.shiftl_mul_pow2. }
    rewrite Hm. unfold Z.div, Z.modulo.
    by destruct (Z.div_eucl n (Z.pos b)).
  - apply (represents_comp (inject_Z n / inject_Z (Z.pos b)));
      [|apply new_location_represents; lia].
    unfold n. rewrite inject_Z_mult, <- pow2_Z by lia.
    pose proof (Qpower_opp 2 e') as Ho. pose proof (pow2_pos e').
    rewrite Ho.
    assert ((0 < inject_Z (Z.pos b))%Q) by done.
    field. split; lra.
  - rewrite fexp_eq. destruct (Z.le_gt_cases e' (-1074)) as [|Hnorm]; [lia|].
    pose proof (Zdigits2_ge _ 52 ltac:(lia) (H52 Hnorm)). lia.
Qed.

(** Dividing integers by the same integer is monotone. *)
Lemma div_Z_mono (a1 a2 b : positive) :
  Z.pos a1 <= Z.pos a2 ->
  SFleb (SFdiv 53 1024 (S754_finite false a1 0) (S754_finite false b 0))
        (SFdiv 53 1024 (S754_finite false a2 0) (S754_finite false b 0)) = true.
Proof.
  intros Hle.
  destruct (div_Z_round a1 b) as (-> & Hrep1 & Hp1 & _).
  destruct (div_Z_round a2 b) as (-> & Hrep2 & Hp2 & _).
  apply (round_aux_mono _ _ _ _ _ _ _ _ Hrep1 Hp1 Hrep2 Hp2).
  unfold Qdiv. apply Qmult_le_compat_r; [by rewrite <- Zle_Qle|].
  apply Qinv_le_0_compat. done.
Qed.

(** A quotient of list lengths is a positive double. *)
Lemma div_Z_finite (a b : positive) :
  Z.pos a <= Z.pos b -> Z.pos b < 2 ^ 63 ->
  exists (m : positive) (e : Z),
    SFdiv 53 1024 (S754_finite false a 0) (S754_finite false b 0)
    = S754_finite false m e
    /\ valid_binary 53 1024 (S754_finite false m e) = true.
Proof.
  intros Hab Hb.
  pose proof (div_Z_round a b) as Hround. cbv zeta in Hround.
  pose proof (Zdigits2_mono a b Hab) as Hd.
  pose proof (Zdigits2_le (Z.pos b) 63 ltac:(lia) ltac:(lia)) as Hd2.
  assert (0 < Zdigits2 (Z.pos a)) by (simpl; lia).
  assert (He' : Z.min (fexp 53 1024 (Zdigits2 (Z.pos a) - Zdigits2 (Z.pos b))) 0
                = Zdigits2 (Z.pos a) - Zdigits2 (Z.pos b) - 53)
    by (rewrite fexp_eq; lia).
  set (e' := Z.min (fexp 53 1024 (Zdigits2 (Z.pos a) - Zdigits2 (Z.pos b))) 0) in *.
  clearbody e'.
  set (q := (Z.pos a * 2 ^ (- e')) / Z.pos b) in *.
  destruct Hround as (Hdiv & Hrep & Hp & H52).
  destruct (round_aux_spec _ _ _ _ Hrep Hp) as [Hfin Hr].
  rewrite Hdiv, Hfin. pose proof (finish_valid _ _ Hr) as Hvalid.
  assert (Hq : 2 ^ 52 <= q) by (apply H52; lia).
  pose proof (Zdigits2_ge q 52 ltac:(lia) Hq) as Hdq.
  assert (Hqs : q <= 2 ^ (- e')).
  { unfold q. apply Z.div_le_upper_bound; [lia|].
    assert (0 < 2 ^ (- e')) by (apply Z.pow_pos_nonneg; lia). nia. }
  pose proof (Zdigits2_le q (- e') ltac:(lia) ltac:(lia)) as Hdq'.
  assert (He : fexp 53 1024 (Zdigits2 q + e') = Zdigits2 q + e' - 53)
    by (rewrite fexp_eq; lia).
  set (e := fexp 53 1024 (Zdigits2 q + e')) in *. clearbody e.
  destruct Hr as (Hn & _ & [Hnorm|Hsub]); [|lia].
  unfold finish in *.
  destruct (Z.eqb_spec (nearest (inject_Z (Z.pos a) / inject_Z (Z.pos b)) e) 0); [lia|].
  destruct (Z.eqb_spec (nearest (inject_Z (Z.pos a) / inject_Z (Z.pos b)) e) (2 ^ 53)).
  - destruct (Z.leb_spec (e + 1) 971); [eauto|lia].
  - destruct (Z.leb_spec e 971); [eauto|lia].
Qed.
End IntegerDivision.

Section ExactResults.

(** An integer divided by itself is [1.0]. *)
Lemma div_Z_same (b : positive) :
  SFdiv 53 1024 (S754_finite false b 0) (S754_finite false b 0)
  = S754_finite false 4503599627370496 (-52).
Proof.
  destruct (div_Z_round b b) as (-> & _).
  rewrite Z.sub_diag. change (Z.min (fexp 53 1024 0) 0) with (-53).
  change (- -53) with 53.
  rewrite (Z.mul_comm (Z.pos b)), Z.div_mul, Z.mod_mul by done.
  assert (Hloc : new_location (Z.pos b) 0 = loc_Exact)
    by (unfold new_location; by destruct (Z.even (Z.pos b))).
  rewrite Hloc. by vm_compute.
Qed.

(** Multiplying [1.0] by a double that is not negative gives that double. *)
Lemma SFmul_one (w : spec_float) :
  valid_binary 53 1024 w = true ->
  SFleb (S754_zero false) w = true ->
  SFmul 53 1024 (S754_finite false 4503599627370496 (-52)) w = w.
Proof.
  intros Hvw Hw. destruct w as [[]|[]| |[] mw ew]; try done.
  cbn [SFmul xorb].
  assert (Hone : valid_binary 53 1024 (S754_finite false 4503599627370496 (-52)) = true)
    by done.
  destruct (round_aux_spec _ _ _ _
              (product_represents 4503599627370496 mw (-52) ew)
              (product_precise _ _ _ _ Hone Hvw)) as [-> _].
  cbn [valid_binary] in Hvw. unfold bounded, canonical_mantissa in Hvw.
  rewrite fexp_eq in Hvw.
  apply andb_true_iff in Hvw as [Hc%Z.eqb_eq Hb%Z.leb_le].
  pose proof (Zdigits2_pos_bounds mw) as [Hlo Hhi]. cbn [Zdigits2] in Hlo, Hhi.
  set (dw := Z.pos (digits2_pos mw)) in *.
  assert (0 < dw) by (unfold dw; lia).
  assert (Hdig : Zdigits2 (Z.pos (4503599627370496 * mw)) = dw + 52).
  { apply Zdigits2_unique; [|lia]. rewrite Pos2Z.inj_mul.
    change (Z.pos 4503599627370496) with (2 ^ 52).
    replace (dw + 52 - 1) with (52 + (dw - 1)) by lia.
    replace (dw + 52) with (52 + dw) by lia.
    rewrite !Z.pow_add_r by lia. nia. }
  rewrite Hdig, fexp_eq.
  replace (Z.max (dw + 52 + (-52 + ew) - 53) (-1074)) with ew by lia.
  assert (Hn : nearest (inject_Z (Z.pos 4503599627370496) * 2 ^ (-52)
                    * (inject_Z (Z.pos mw) * 2 ^ ew)) ew = Z.pos mw).
  { unfold nearest. transitivity (rne_code (4 * Z.pos mw)); [|apply rne_code_exact].
    f_equal.
    transitivity (sticky (inject_Z (2 * Z.pos mw))); [|rewrite sticky_Z; lia].
    apply sticky_comp.
    rewrite inject_Z_mult. pose proof (pow2_pos ew).
    assert (H1 : (inject_Z (Z.pos 4503599627370496) * 2 ^ (-52) == 1)%Q) by done.
    rewrite H1. change (inject_Z 2) with 2%Q. field. lra. }
  rewrite Hn. unfold finish.
  assert (dw <= 53) by lia.
  assert (Z.pos mw < 2 ^ 53).
  { assert (2 ^ dw <= 2 ^ 53) by (apply Z.pow_le_mono_r; lia). lia. }
  rewrite (proj2 (Z.eqb_neq (Z.pos mw) 0)) by lia.
  rewrite (proj2 (Z.eqb_neq (Z.pos mw) (2 ^ 53))) by lia.
  change (1024 - 53) with 971 in Hb.
  by rewrite (proj2 (Z.leb_le ew 971)).
Qed.

(** A product of doubles that are not negative is not negative. *)
Lemma SFmul_nonneg (m : positive) (e : Z) (w : spec_float) :
  valid_binary 53 1024 (S754_finite false m e) = true ->
  valid_binary 53 1024 w = true ->
  SFleb (S754_zero false) w = true ->
  SFleb (S754_zero false) (SFmul 53 1024 (S754_finite false m e) w) = true.
Proof.
  intros Hv Hvw Hw. destruct w as [s|[]| |[] mw ew]; try done.
  cbn [SFmul xorb].
  destruct (round_aux_spec _ _ _ _ (product_represents m mw e ew)
              (product_precise m mw e ew Hv Hvw)) as [-> _].
  unfold finish. destruct (_ =? 0); [done|].
  destruct (_ =? 2 ^ 53); [by destruct (_ <=? 971)|by destruct (_ <=? 971)].
Qed.
End ExactResults.

(** ** Retrieval fusion *)

Section FusionFacts.
Import Ensemble.
Variable hash : string -> Z.

Lemma seen_app (h : Z) (l1 l2 : list (Z * Document)) :
  seen h (l1 ++ l2) = seen h l1 || seen h l2.
Proof. unfold seen. apply existsb_app. Qed.

(** *** Accumulated scores *)

Lemma rank_score_contribution (m rank : nat) (weight : Float.float) :
  rank_score m rank weight = contribution weight m rank.
Proof. done. Qed.

Lemma score_of_observe (weight : Float.float) (m : nat) (a : acc) (rd : nat * Document)
    (h : Z) :
  score_of (observe hash weight m a rd) h
  = if fingerprint hash (snd rd) =? h
    then Float.add (score_of a h) (rank_score m (fst rd) weight)
    else score_of a h.
Proof.
  unfold observe, score_of at 1, fingerprint. cbn [all_doc_scores].
  destruct (Z.eqb_spec (hash (page_content (snd rd))) h) as [->|Hne].
  - by rewrite lookup_insert_eq.
  - by rewrite lookup_insert_ne.
Qed.

Lemma score_of_observe_from (weight : Float.float) (m : nat) (h : Z)
    (docs : list Document) :
  forall (n : nat) (a : acc),
    score_of (fold_left (observe hash weight m) (enumerate_from n docs) a) h
    = fold_left Float.add
        (ranked_contributions hash h weight m (enumerate_from n docs)) (score_of a h).
Proof.
  induction docs as [|doc docs IH]; intros n a; [done|].
  cbn [enumerate_from fold_left ranked_contributions].
  rewrite IH. rewrite score_of_observe. cbn [fst snd].
  destruct (fingerprint hash doc =? h); [|done].
  by rewrite rank_score_contribution.
Qed.

Lemma score_of_observe_all (weight : Float.float) (docs : list Document) (a : acc)
    (h : Z) :
  score_of (observe_all hash weight docs a) h
  = fold_left Float.add
      (ranked_contributions hash h weight (length docs) (enumerate docs)) (score_of a h).
Proof.
  unfold observe_all, enumerate. apply score_of_observe_from.
Qed.

Lemma score_of_fuse_from (results : list (list Document * Float.float)) (h : Z) :
  forall a : acc,
    score_of (fuse hash results a) h
    = fold_left Float.add (contributions hash h results) (score_of a h).
Proof.
  induction results as [|[docs weight] results IH]; intros a; [done|].
  unfold fuse in *. cbn [fold_left contributions fst snd].
  by rewrite IH, score_of_observe_all, fold_left_app.
Qed.

(** The score [invoke] accumulates for [h]: the double sum of the
    contributions to [h], in the order of observation. *)
Lemma score_of_fuse (results : list (list Document * Float.float)) (h : Z) :
  score_of (fuse hash results acc0) h = total (contributions hash h results).
Proof. by rewrite score_of_fuse_from. Qed.

(** *** Stored documents *)

Lemma filter_filter_andb {B : Type} (f g : B -> bool) (l : list B) :
  List.filter f (List.filter g l) = List.filter (fun x => g x && f x) l.
Proof.
  induction l as [|x l IH]; [done|]. simpl.
  destruct (g x); simpl; [|done]. destruct (f x); by rewrite IH.
Qed.

Lemma all_docs_observe_from (weight : Float.float) (m : nat) (docs : list Document) :
  forall (n : nat) (a : acc),
    all_docs (fold_left (observe hash weight m) (enumerate_from n docs) a)
    = fold_left (remember hash) docs (all_docs a).
Proof.
  induction docs as [|doc docs IH]; intros n a; [done|].
  cbn [enumerate_from fold_left]. by rewrite IH.
Qed.

Lemma all_docs_fuse (results : list (list Document * Float.float)) :
  forall a : acc,
    all_docs (fuse hash results a)
    = fold_left (remember hash) (concat (map fst results)) (all_docs a).
Proof.
  induction results as [|[docs weight] results IH]; intros a; [done|].
  unfold fuse in *. cbn [fold_left map concat fst snd]. rewrite IH, fold_left_app.
  unfold observe_all, enumerate. by rewrite all_docs_observe_from.
Qed.

Lemma remember_first_observed (docs : list Document) :
  forall l0 : list (Z * Document),
    fold_left (remember hash) docs l0
    = l0 ++ List.filter (unseen l0) (first_observed hash docs).
Proof.
  induction docs as [|doc docs IH]; intros l0; simpl.
  - by rewrite app_nil_r.
  - rewrite IH. unfold remember, store_if_new. cbn [List.filter].
    replace (unseen l0 (fingerprint hash doc, doc))
      with (negb (seen (fingerprint hash doc) l0)) by reflexivity.
    destruct (seen (fingerprint hash doc) l0) eqn:Hseen; cbn [negb].
    + f_equal. rewrite filter_filter_andb. apply filter_ext.
      intros kv. unfold unseen.
      destruct (Z.eqb_spec (fst kv) (fingerprint hash doc)) as [->|]; simpl;
        [by rewrite Hseen | done].
    + rewrite <- app_assoc. simpl. do 2 f_equal.
      rewrite filter_filter_andb. apply filter_ext.
      intros kv. unfold unseen. rewrite seen_app. simpl.
      rewrite orb_false_r, negb_orb, (Z.eqb_sym (fingerprint hash doc)).
      apply andb_comm.
Qed.

Lemma all_docs_fuse_first_observed (results : list (list Document * Float.float)) :
  all_docs (fuse hash results acc0)
  = first_observed hash (concat (map fst results)).
Proof.
  rewrite all_docs_fuse, remember_first_observed. simpl.
  unfold unseen. simpl. apply filter_true.
Qed.

(** *** Running the retrievers *)

Lemma accumulate_returns (query : string) (rs : list retriever)
    (results : list (list Document)) :
  Forall2 (fun r docs => r query = Returned docs) rs results ->
  forall (ws : list Float.float) (a : acc),
    accumulate hash query (combine rs ws) a
    = Returned (fuse hash (combine results ws) a).
Proof.
  induction 1 as [|r docs rs results Hr _ IH]; intros ws a; [done|].
  destruct ws as [|w ws]; [done|].
  cbn [combine accumulate]. rewrite Hr. cbn [bind]. apply IH.
Qed.

Lemma invoke_returns (sort_order : list Float.float -> list nat) (i : input)
    (rs : list retriever) (ws : list Float.float) (results : list (list Document)) :
  Forall2 (fun r docs => r (query_of_input i) = Returned docs) rs results ->
  invoke hash sort_order (mkEnsemble rs ws) i
  = Returned
      (map snd
         (sorted_reverse sort_order
            (fun kv => score_of (fuse hash (combine results ws) acc0) (fst kv))
            (first_observed hash (concat (map fst (combine results ws)))))).
Proof.
  intros Hres. unfold invoke. cbn [retrievers weights].
  rewrite (accumulate_returns _ _ _ Hres). cbn [bind].
  by rewrite all_docs_fuse_first_observed.
Qed.

(** *** What the sort does *)

Lemma sorted_reverse_perm {A : Type} (sort_order : list Float.float -> list nat)
    (key : A -> Float.float) (xs : list A) :
  permutes sort_order -> sorted_reverse sort_order key xs ≡ₚ xs.
Proof.
  intros Hperm. apply arrange_perm. rewrite (Hperm (map key xs)). by rewrite length_map.
Qed.

Lemma sorted_reverse_stable {A : Type} (sort_order : list Float.float -> list nat)
    (key : A -> Float.float) (xs : list A) :
  python_sort sort_order ->
  Forall (fun x => Float.is_nan (key x) = false) xs ->
  sorted_reverse sort_order key xs = stable_desc key xs.
Proof.
  intros [_ Hstable] Hnan. unfold sorted_reverse.
  rewrite Hstable by (by apply Forall_fmap).
  apply arrange_stable_order.
Qed.
End FusionFacts.

Section FusionOrder.
Import Ensemble.
Variable hash : string -> Z.

Lemma remember_seen (h : Z) (docs : list (Z * Document)) (doc : Document) :
  seen h (remember hash docs doc) = seen h docs || (fingerprint hash doc =? h).
Proof.
  unfold remember, store_if_new.
  destruct (seen (fingerprint hash doc) docs) eqn:Hseen.
  - destruct (Z.eqb_spec (fingerprint hash doc) h) as [<-|]; [|by rewrite orb_false_r].
    by rewrite Hseen.
  - rewrite seen_app. simpl. by rewrite orb_false_r.
Qed.

Lemma remember_all_seen (docs : list Document) :
  forall l0 : list (Z * Document),
    Forall (fun doc => seen (fingerprint hash doc) l0 = true) docs ->
    fold_left (remember hash) docs l0 = l0.
Proof.
  induction docs as [|doc docs IH]; intros l0 Hall; [done|].
  inversion Hall as [|? ? Hdoc Hrest]; subst. simpl.
  unfold remember at 2, store_if_new. rewrite Hdoc. by apply IH.
Qed.

Lemma remember_sees (docs : list Document) :
  forall (l0 : list (Z * Document)) (h : Z),
    seen h (fold_left (remember hash) docs l0)
    = seen h l0 || existsb (fun doc => fingerprint hash doc =? h) docs.
Proof.
  induction docs as [|doc docs IH]; intros l0 h; simpl.
  - by rewrite orb_false_r.
  - by rewrite IH, remember_seen, orb_assoc.
Qed.

Lemma remember_twice (docs : list Document) (l0 : list (Z * Document)) :
  fold_left (remember hash) (docs ++ docs) l0 = fold_left (remember hash) docs l0.
Proof.
  rewrite fold_left_app. apply remember_all_seen.
  apply Forall_forall. intros doc Hdoc.
  rewrite remember_sees. apply orb_true_iff. right.
  apply existsb_exists. exists doc. split; [by apply list_elem_of_In|].
  apply Z.eqb_refl.
Qed.

Lemma dom_observe_from (weight : Float.float) (m : nat) (docs : list Document) :
  forall (n : nat) (a : acc),
    dom (all_doc_scores (fold_left (observe hash weight m) (enumerate_from n docs) a))
    = list_to_set (map (fingerprint hash) docs) ∪ dom (all_doc_scores a).
Proof.
  induction docs as [|doc docs IH]; intros n a.
  - cbn [enumerate_from fold_left map]. set_solver.
  - cbn [enumerate_from fold_left map]. rewrite IH. unfold observe at 1.
    cbn [all_doc_scores snd]. rewrite dom_insert_L. unfold fingerprint. set_solver.
Qed.

Lemma dom_fuse (results : list (list Document * Float.float)) :
  forall a : acc,
    dom (all_doc_scores (fuse hash results a))
    = list_to_set (map (fingerprint hash) (concat (map fst results)))
      ∪ dom (all_doc_scores a).
Proof.
  induction results as [|[docs weight] results IH]; intros a.
  - cbn. set_solver.
  - unfold fuse in *. cbn [fold_left map concat fst snd]. rewrite IH.
    unfold observe_all, enumerate.
    rewrite dom_observe_from, map_app, list_to_set_app_L. set_solver.
Qed.
End FusionOrder.

(** *** Independence of the fingerprint values *)

Section FusionByContent.
Import Ensemble.
Variable hash : string -> Z.

Lemma elem_of_first_by_content (d : Document) (docs : list Document) :
  d ∈ first_by_content docs -> d ∈ docs.
Proof.
  induction docs as [|doc docs IH]; [done|]. simpl.
  intros [->|Hin]%elem_of_cons; [apply list_elem_of_here|].
  apply list_elem_of_further, IH.
  apply list_elem_of_In in Hin. apply filter_In in Hin as [Hin _].
  by apply list_elem_of_In.
Qed.

Lemma collision_free_weaken (docs docs' : list Document) :
  (forall d, d ∈ docs' -> d ∈ docs) ->
  collision_free hash docs -> collision_free hash docs'.
Proof. intros Hsub Hfree d d' Hd Hd'. apply Hfree; by apply Hsub. Qed.

Lemma collision_free_eqb (docs : list Document) (d d' : Document) :
  collision_free hash docs -> d ∈ docs -> d' ∈ docs ->
  (fingerprint hash d =? fingerprint hash d')
  = String.eqb (page_content d) (page_content d').
Proof.
  intros Hfree Hd Hd'. unfold fingerprint.
  destruct (String.eqb_spec (page_content d) (page_content d')) as [->|Hne].
  - apply Z.eqb_refl.
  - apply Z.eqb_neq. intros Heq. by apply Hne, Hfree.
Qed.

Lemma first_observed_by_content (docs : list Document) :
  collision_free hash docs ->
  first_observed hash docs
  = map (fun d => (fingerprint hash d, d)) (first_by_content docs).
Proof.
  induction docs as [|doc docs IH]; intros Hfree; [done|]. simpl.
  rewrite IH by (eapply collision_free_weaken; [|exact Hfree];
                 intros d Hd; by apply list_elem_of_further).
  f_equal. rewrite filter_map_swap. f_equal.
  apply filter_ext_in. intros d Hd. simpl. f_equal.
  apply (collision_free_eqb (doc :: docs)); [done| |apply list_elem_of_here].
  apply list_elem_of_further, elem_of_first_by_content. by apply list_elem_of_In.
Qed.

Lemma elem_of_enumerate_from {A : Type} (rd : nat * A) (l : list A) :
  forall n : nat, rd ∈ enumerate_from n l -> snd rd ∈ l.
Proof.
  induction l as [|x l IH]; intros n; simpl; [by intros ?%elem_of_nil|].
  intros [->|Hin]%elem_of_cons; [apply list_elem_of_here|].
  apply list_elem_of_further. by apply (IH (S n)).
Qed.

Lemma ranked_contributions_by_content_eq (D : list Document) (d : Document)
    (w : Float.float) (m : nat) (rds : list (nat * Document)) :
  collision_free hash D -> d ∈ D ->
  (forall rd, rd ∈ rds -> snd rd ∈ D) ->
  ranked_contributions hash (fingerprint hash d) w m rds
  = ranked_contributions_by_content (page_content d) w m rds.
Proof.
  intros Hfree Hd. induction rds as [|[rank doc] rds IH]; intros Hrds; [done|].
  cbn [ranked_contributions ranked_contributions_by_content].
  rewrite IH by (intros rd Hrd; by apply Hrds, list_elem_of_further).
  by rewrite (collision_free_eqb D doc d Hfree (Hrds _ (list_elem_of_here _ _)) Hd).
Qed.

Lemma contributions_by_content_eq (D : list Document) (d : Document)
    (results : list (list Document * Float.float)) :
  collision_free hash D -> d ∈ D ->
  (forall x, x ∈ concat (map fst results) -> x ∈ D) ->
  contributions hash (fingerprint hash d) results
  = contributions_by_content (page_content d) results.
Proof.
  intros Hfree Hd. induction results as [|[docs w] results IH]; intros Hsub; [done|].
  cbn [contributions contributions_by_content]. cbn [map concat fst] in Hsub.
  rewrite IH by (intros x Hx; apply Hsub, elem_of_app; by right).
  f_equal. apply (ranked_contributions_by_content_eq D); [done..|].
  intros rd Hrd. apply Hsub, elem_of_app. left.
  by apply (elem_of_enumerate_from rd docs 0%nat).
Qed.

(** With a collision-free hash, [invoke] returns the hash-free reference:
    its output does not depend on the fingerprint values. *)
Lemma invoke_by_content (sort_order : list Float.float -> list nat) (i : input)
    (rs : list retriever) (ws : list Float.float) (results : list (list Document)) :
  Forall2 (fun r docs => r (query_of_input i) = Returned docs) rs results ->
  collision_free hash (concat (map fst (combine results ws))) ->
  invoke hash sort_order (mkEnsemble rs ws) i
  = Returned (fused_by_content sort_order (combine results ws)).
Proof.
  intros Hres Hfree. rewrite (invoke_returns hash sort_order i rs ws results Hres).
  f_equal. rewrite first_observed_by_content by done.
  unfold fused_by_content, sorted_reverse.
  rewrite arrange_map, !map_map. cbn [snd fst]. rewrite map_id.
  f_equal. f_equal. apply map_ext_in. intros d Hd.
  rewrite score_of_fuse. f_equal.
  apply (contributions_by_content_eq (concat (map fst (combine results ws))));
    [done| |done].
  apply elem_of_first_by_content. by apply list_elem_of_In.
Qed.
End FusionByContent.

Lemma sample_hash_collision_free :
  Ensemble.collision_free Samples.sample_hash
    [Samples.docA; Samples.docB; Samples.docC; Samples.docC; Samples.docA].
Proof.
  intros d d' Hd Hd' Heq.
  repeat (apply elem_of_cons in Hd as [->|Hd]); try (by apply elem_of_nil in Hd);
    repeat (apply elem_of_cons in Hd' as [->|Hd']); try (by apply elem_of_nil in Hd');
    try reflexivity; vm_compute in Heq; discriminate.
Qed.

Lemma negated_hash_collision_free :
  Ensemble.collision_free (fun s => - Samples.sample_hash s)
    [Samples.docA; Samples.docB; Samples.docC; Samples.docC; Samples.docA].
Proof.
  intros d d' Hd Hd' Heq.
  repeat (apply elem_of_cons in Hd as [->|Hd]); try (by apply elem_of_nil in Hd);
    repeat (apply elem_of_cons in Hd' as [->|Hd']); try (by apply elem_of_nil in Hd');
    try reflexivity; vm_compute in Heq; discriminate.
Qed.

Lemma StronglySorted_related {A : Type} (R : A -> A -> Prop) (l : list A) (x y : A) :
  StronglySorted R l -> x ∈ l -> y ∈ l -> x = y \/ R x y \/ R y x.
Proof.
  induction 1 as [|z l _ IH Hall]; [by intros ?%elem_of_nil|].
  rewrite Forall_forall in Hall.
  intros [->|Hx]%elem_of_cons [->|Hy]%elem_of_cons.
  - by left.
  - right. left. by apply Hall.
  - right. right. by apply Hall.
  - by apply IH.
Qed.

(** C7, as the code has it. For fixed retriever outputs and weights the
    fused output is a rearrangement of the first-observed documents that
    does not depend on the fingerprint values: two hash functions that both
    separate the contents of the retrieved documents give the same output.
    When no accumulated score is NaN, the output is in descending order of
    accumulated score, and documents with equal scores appear in the order
    in which their fingerprints were first observed. *)
Theorem fusion_order_descending_stable (hash : string -> Z)
    (sort_order : list Float.float -> list nat) (i : input)
    (rs : list retriever) (ws : list Float.float) (results : list (list Document)) :
  python_sort sort_order ->
  Forall2 (fun r docs => r (query_of_input i) = Returned docs) rs results ->
  exists (a : Ensemble.acc) (ranked : list (Z * Document)),
    let key := fun kv : Z * Document => Ensemble.score_of a (fst kv) in
    let retrieved := concat (map fst (combine results ws)) in
    let observed := Ensemble.first_observed hash retrieved in
    Ensemble.accumulate hash (query_of_input i) (combine rs ws) Ensemble.acc0 = Returned a
    /\ Ensemble.invoke hash sort_order (Ensemble.mkEnsemble rs ws) i
       = Returned (map snd ranked)
    /\ ranked ≡ₚ observed
    /\ (Forall (fun kv => Float.is_nan (key kv) = false) observed ->
        StronglySorted (fdesc key) ranked
        /\ forall q : Float.float, with_score key q ranked = with_score key q observed)
    /\ (forall hash' : string -> Z,
          Ensemble.collision_free hash retrieved ->
          Ensemble.collision_free hash' retrieved ->
          Ensemble.invoke hash' sort_order (Ensemble.mkEnsemble rs ws) i
          = Ensemble.invoke hash sort_order (Ensemble.mkEnsemble rs ws) i).
Proof.
  intros Hsort Hres.
  pose proof (accumulate_returns hash _ _ _ Hres ws Ensemble.acc0) as Hacc.
  set (a := Ensemble.fuse hash (combine results ws) Ensemble.acc0) in *.
  exists a, (sorted_reverse sort_order (fun kv => Ensemble.score_of a (fst kv))
                            (Ensemble.all_docs a)).
  assert (Hdocs : Ensemble.all_docs a
                  = Ensemble.first_observed hash (concat (map fst (combine results ws))))
    by apply all_docs_fuse_first_observed.
  cbn zeta. split; [exact Hacc|]. split.
  { unfold Ensemble.invoke. cbn [Ensemble.retrievers Ensemble.weights].
    by rewrite Hacc. }
  rewrite <- Hdocs. split; [apply sorted_reverse_perm, Hsort|].
  split.
  { intros Hnan. rewrite sorted_reverse_stable by done.
    split; [by apply stable_desc_sorted|].
    intros q. apply stable_desc_stable. }
  intros hash' Hfree Hfree'.
  by rewrite (invoke_by_content hash sort_order i rs ws results),
             (invoke_by_content hash' sort_order i rs ws results).
Qed.

Lemma fusion_order_descending_stable_witness :
  (exists (a : Ensemble.acc) (ranked : list (Z * Document)),
      Ensemble.invoke Samples.sample_hash stable_order
        (Ensemble.mkEnsemble [Samples.retriever_abc; Samples.retriever_ca]
                             [Samples.half; Samples.half])
        (InputStr "q") = Returned (map snd ranked)
      /\ StronglySorted
           (fdesc (fun kv : Z * Document => Ensemble.score_of a (fst kv))) ranked)
  /\ Ensemble.invoke (fun s => - Samples.sample_hash s) stable_order
       (Ensemble.mkEnsemble [Samples.retriever_abc; Samples.retriever_ca]
                            [Samples.half; Samples.half])
       (InputStr "q")
     = Ensemble.invoke Samples.sample_hash stable_order
         (Ensemble.mkEnsemble [Samples.retriever_abc; Samples.retriever_ca]
                              [Samples.half; Samples.half])
         (InputStr "q").
Proof.
  destruct (fusion_order_descending_stable Samples.sample_hash stable_order (InputStr "q")
              [Samples.retriever_abc; Samples.retriever_ca]
              [Samples.half; Samples.half]
              [[Samples.docA; Samples.docB; Samples.docC]; [Samples.docC; Samples.docA]])
    as (a & ranked & Hacc & Hinv & _ & Hsorted & Hindep).
  - exact stable_order_python_sort.
  - repeat constructor.
  - split.
    + exists a, ranked. split; [exact Hinv|]. apply Hsorted.
      vm_compute in Hacc. injection Hacc as <-.
      repeat (constructor; [by vm_compute|]). constructor.
    + apply Hindep.
      * exact sample_hash_collision_free.
      * exact negated_hash_collision_free.
Defined.

(** C7, as stated, fails: a weight that is NaN gives its retriever's
    documents the score NaN, and a NaN compares as neither smaller nor
    greater. With the lists [A], [N], [B] and the weights 0.5, NaN, 1.0 the
    combiner returns A, N, B, although B's score 1.0 is greater than A's
    0.5; and whatever rearrangement the sort chose, the output would not be
    in descending order of score. *)
Lemma fusion_nan_score_not_descending :
  let self :=
    Ensemble.mkEnsemble
      [Samples.retriever_of [Samples.docA]; Samples.retriever_of [Samples.docN];
       Samples.retriever_of [Samples.docB]]
      [Float.half; Float.nan; Float.one] in
  let a :=
    Ensemble.fuse Samples.sample_hash
      [([Samples.docA], Float.half); ([Samples.docN], Float.nan);
       ([Samples.docB], Float.one)] Ensemble.acc0 in
  let score := fun d => Ensemble.score_of a (Ensemble.fingerprint Samples.sample_hash d) in
  Ensemble.accumulate Samples.sample_hash "q"
    (combine (Ensemble.retrievers self) (Ensemble.weights self)) Ensemble.acc0
  = Returned a
  /\ Ensemble.invoke Samples.sample_hash stable_order self (InputStr "q")
     = Returned [Samples.docA; Samples.docN; Samples.docB]
  /\ score Samples.docA = Float.half
  /\ score Samples.docN = Float.nan
  /\ score Samples.docB = Float.one
  /\ Float.ltb (score Samples.docA) (score Samples.docB) = true
  /\ forall sort_order : list Float.float -> list nat,
       permutes sort_order ->
       exists ranked : list (Z * Document),
         Ensemble.invoke Samples.sample_hash sort_order self (InputStr "q")
         = Returned (map snd ranked)
         /\ ~ StronglySorted (fdesc (fun kv => Ensemble.score_of a (fst kv))) ranked.
Proof.
  cbn zeta. repeat (split; [by vm_compute|]).
  intros sort_order Hperm.
  eexists. split.
  { apply (invoke_returns Samples.sample_hash sort_order (InputStr "q") _ _
             [[Samples.docA]; [Samples.docN]; [Samples.docB]]).
    repeat constructor. }
  intros Hsorted.
  set (kA := (Ensemble.fingerprint Samples.sample_hash Samples.docA, Samples.docA)).
  set (kN := (Ensemble.fingerprint Samples.sample_hash Samples.docN, Samples.docN)).
  destruct (StronglySorted_related _ _ kA kN Hsorted) as [Heq|[H|H]].
  - rewrite sorted_reverse_perm by done. vm_compute. set_solver.
  - rewrite sorted_reverse_perm by done. vm_compute. set_solver.
  - vm_compute in Heq. discriminate.
  - vm_compute in H. discriminate.
  - vm_compute in H. discriminate.
Qed.

(** C1, as the code has it. Every document returned at rank [r] (0-based)
    in a result list of [m] documents contributes the double
    [((m - r) / m) * weight], quotient and product each rounded to the
    nearest double, and the score of a fingerprint is the double sum of its
    contributions, added to [0.0] one by one in the order in which the
    documents are observed. In particular, for retriever 1 returning
    [A, B, C] and retriever 2 returning [C, A], both with weight 0.5 (the
    three fingerprints being distinct), the scores are the doubles [0.75],
    [1/3] and [2/3] and the fused order is A, C, B. *)
Theorem fusion_rank_contributions (hash : string -> Z)
    (sort_order : list Float.float -> list nat) (i : input) :
  (forall (rs : list retriever) (ws : list Float.float) (results : list (list Document)),
      Forall2 (fun r docs => r (query_of_input i) = Returned docs) rs results ->
      exists a : Ensemble.acc,
        Ensemble.accumulate hash (query_of_input i) (combine rs ws) Ensemble.acc0
        = Returned a
        /\ forall h : Z,
             Ensemble.score_of a h
             = Ensemble.total (Ensemble.contributions hash h (combine results ws)))
  /\ (forall (r1 r2 : retriever) (A B C : Document),
        python_sort sort_order ->
        Ensemble.fingerprint hash A <> Ensemble.fingerprint hash B ->
        Ensemble.fingerprint hash A <> Ensemble.fingerprint hash C ->
        Ensemble.fingerprint hash B <> Ensemble.fingerprint hash C ->
        r1 (query_of_input i) = Returned [A; B; C] ->
        r2 (query_of_input i) = Returned [C; A] ->
        exists a : Ensemble.acc,
          Ensemble.accumulate hash (query_of_input i)
            [(r1, Float.half); (r2, Float.half)] Ensemble.acc0 = Returned a
          /\ Ensemble.score_of a (Ensemble.fingerprint hash A)
             = Float.div (Float.of_Z 3) (Float.of_Z 4)
          /\ Ensemble.score_of a (Ensemble.fingerprint hash B)
             = Float.div (Float.of_Z 1) (Float.of_Z 3)
          /\ Ensemble.score_of a (Ensemble.fingerprint hash C)
             = Float.div (Float.of_Z 2) (Float.of_Z 3)
          /\ Ensemble.invoke hash sort_order
               (Ensemble.mkEnsemble [r1; r2] [Float.half; Float.half]) i
             = Returned [A; C; B]).
Proof.
  split.
  - intros rs ws results Hres.
    eexists. split; [by apply accumulate_returns|].
    intros h. apply score_of_fuse.
  - intros r1 r2 A B C Hsort HAB HAC HBC Hr1 Hr2.
    set (results := [([A; B; C], Float.half); ([C; A], Float.half)]).
    assert (Hres : Forall2 (fun r docs => r (query_of_input i) = Returned docs)
                           [r1; r2] [[A; B; C]; [C; A]])
      by (by repeat constructor).
    pose proof (accumulate_returns hash _ _ _ Hres [Float.half; Float.half]
                  Ensemble.acc0) as Hacc.
    cbn [combine] in Hacc. fold results in Hacc.
    set (a := Ensemble.fuse hash results Ensemble.acc0) in *.
    assert (HA : Ensemble.score_of a (Ensemble.fingerprint hash A)
                 = Float.div (Float.of_Z 3) (Float.of_Z 4)).
    { unfold a, results. rewrite score_of_fuse.
      cbn [Ensemble.contributions Ensemble.ranked_contributions enumerate
           enumerate_from length].
      rewrite Z.eqb_refl, !(proj2 (Z.eqb_neq _ _)) by congruence. by vm_compute. }
    assert (HB : Ensemble.score_of a (Ensemble.fingerprint hash B)
                 = Float.div (Float.of_Z 1) (Float.of_Z 3)).
    { unfold a, results. rewrite score_of_fuse.
      cbn [Ensemble.contributions Ensemble.ranked_contributions enumerate
           enumerate_from length].
      rewrite Z.eqb_refl, !(proj2 (Z.eqb_neq _ _)) by congruence. by vm_compute. }
    assert (HC : Ensemble.score_of a (Ensemble.fingerprint hash C)
                 = Float.div (Float.of_Z 2) (Float.of_Z 3)).
    { unfold a, results. rewrite score_of_fuse.
      cbn [Ensemble.contributions Ensemble.ranked_contributions enumerate
           enumerate_from length].
      rewrite Z.eqb_refl, !(proj2 (Z.eqb_neq _ _)) by congruence. by vm_compute. }
    exists a. repeat (split; [done|]).
    rewrite (invoke_returns hash sort_order i _ _ _ Hres).
    cbn [combine]. fold results. fold a. f_equal.
    assert (Hobs : Ensemble.first_observed hash (concat (map fst results))
                   = [(Ensemble.fingerprint hash A, A); (Ensemble.fingerprint hash B, B);
                      (Ensemble.fingerprint hash C, C)]).
    { unfold results.
      cbn [concat map fst app Ensemble.first_observed List.filter negb].
      repeat (rewrite ?Z.eqb_refl, ?(proj2 (Z.eqb_neq _ _)) by congruence;
              cbn [List.filter negb fst]).
      done. }
    rewrite Hobs, sorted_reverse_stable;
      [|done|repeat (constructor; [cbn [fst]; by rewrite ?HA, ?HB, ?HC|]); constructor].
    assert (HBC' : Float.ltb (Ensemble.score_of a (Ensemble.fingerprint hash B))
                             (Ensemble.score_of a (Ensemble.fingerprint hash C)) = true)
      by (by rewrite HB, HC).
    assert (HAC' : Float.ltb (Ensemble.score_of a (Ensemble.fingerprint hash A))
                             (Ensemble.score_of a (Ensemble.fingerprint hash C)) = false)
      by (by rewrite HA, HC).
    cbn [stable_desc insert_stable fst]. rewrite HBC'.
    cbn [insert_stable fst]. by rewrite HAC'.
Qed.

Lemma fusion_rank_contributions_witness :
  Ensemble.invoke Samples.sample_hash stable_order
    (Ensemble.mkEnsemble [Samples.retriever_abc; Samples.retriever_ca]
                         [Float.half; Float.half])
    (InputStr "q")
  = Returned [Samples.docA; Samples.docC; Samples.docB].
Proof.
  destruct (proj2 (fusion_rank_contributions Samples.sample_hash stable_order
                     (InputStr "q"))
              Samples.retriever_abc Samples.retriever_ca
              Samples.docA Samples.docB Samples.docC)
    as (a & _ & _ & _ & _ & Hinv);
    [exact stable_order_python_sort | by vm_compute | by vm_compute | by vm_compute
     | reflexivity | reflexivity |].
  exact Hinv.
Defined.

(** C1, as stated, fails: the accumulated scores are not the exact sums of
    [weight * (m - r) / m]. With retriever 1 returning [H, F, A, I, C, B]
    and retriever 2 returning [B, A], both with weight 0.5, the exact sums
    for A and for B are both 7/12, but the combiner accumulates
    0.5833333333333333 for A and 0.5833333333333334 for B, neither of them
    7/12, and so ranks B before A. *)
Lemma fusion_scores_not_exact_sums :
  let results :=
    [([Samples.docH; Samples.docF; Samples.docA; Samples.docI; Samples.docC;
       Samples.docB], Float.half);
     ([Samples.docB; Samples.docA], Float.half)] in
  let self :=
    Ensemble.mkEnsemble (map (fun dw => Samples.retriever_of (fst dw)) results)
                        (map snd results) in
  let a := Ensemble.fuse Samples.sample_hash results Ensemble.acc0 in
  let hA := Ensemble.fingerprint Samples.sample_hash Samples.docA in
  let hB := Ensemble.fingerprint Samples.sample_hash Samples.docB in
  Ensemble.accumulate Samples.sample_hash "q"
    (combine (Ensemble.retrievers self) (Ensemble.weights self)) Ensemble.acc0
  = Returned a
  /\ (Ensemble.exact_total Samples.sample_hash hA results == 7 # 12)%Q
  /\ (Ensemble.exact_total Samples.sample_hash hB results == 7 # 12)%Q
  /\ Ensemble.score_of a hA = S754_finite false 5254199565265578 (-53)
  /\ Ensemble.score_of a hB = S754_finite false 5254199565265579 (-53)
  /\ ~ (Float.to_Q (Ensemble.score_of a hA) == 7 # 12)%Q
  /\ ~ (Float.to_Q (Ensemble.score_of a hB) == 7 # 12)%Q
  /\ Float.ltb (Ensemble.score_of a hA) (Ensemble.score_of a hB) = true
  /\ Ensemble.invoke Samples.sample_hash stable_order self (InputStr "q")
     = Returned [Samples.docB; Samples.docA; Samples.docH; Samples.docF;
                 Samples.docI; Samples.docC].
Proof.
  cbn zeta.
  split; [by vm_compute|]. split; [by vm_compute|]. split; [by vm_compute|].
  split; [by vm_compute|]. split; [by vm_compute|].
  split; [intros H; vm_compute in H; discriminate|].
  split; [intros H; vm_compute in H; discriminate|].
  split; by vm_compute.
Qed.

Section SameListTwice.
Import Ensemble.
Variable hash : string -> Z.

Lemma ranked_contributions_absent (h : Z) (w : Float.float) (m : nat)
    (docs : list Document) :
  forall n : nat,
    h ∉ map (fingerprint hash) docs ->
    ranked_contributions hash h w m (enumerate_from n docs) = [].
Proof.
  induction docs as [|doc docs IH]; intros n Hh; [done|].
  cbn [map] in Hh. apply not_elem_of_cons in Hh as [Hne Hh].
  cbn [enumerate_from ranked_contributions]. rewrite IH by done.
  rewrite (proj2 (Z.eqb_neq _ _)); [done | congruence].
Qed.

(** In a list without repeated fingerprints, a fingerprint receives at
    most one contribution. *)
Lemma ranked_contributions_NoDup (h : Z) (w : Float.float) (m : nat)
    (docs : list Document) :
  forall n : nat,
    NoDup (map (fingerprint hash) docs) ->
    (length (ranked_contributions hash h w m (enumerate_from n docs)) <= 1)%nat.
Proof.
  induction docs as [|doc docs IH]; intros n Hnd; [simpl; lia|].
  cbn [map] in Hnd. apply NoDup_cons in Hnd as [Hdoc Hnd].
  cbn [enumerate_from ranked_contributions].
  destruct (Z.eqb_spec (fingerprint hash doc) h) as [<-|Hne].
  - rewrite ranked_contributions_absent by done. simpl. lia.
  - by apply IH.
Qed.

(** Adding a double to [0.0 + c] gives the same as adding [0.0 + c] to
    itself. *)
Lemma add_zero_twice (c : Float.float) :
  Float.add (Float.add Float.zero c) c
  = Float.add (Float.add Float.zero c) (Float.add Float.zero c).
Proof. by destruct c as [[]|[]| |]. Qed.
End SameListTwice.

(** C8, as the code has it. Supplying the same candidate list through two
    retrievers of equal weight yields the same stored fingerprints (and
    documents) and the same scored fingerprints as supplying it through one
    such retriever. The score of a fingerprint is then the double sum of
    its contributions taken twice in a row; it is the double of the
    single-retriever score, [s + s], when no two documents of the list
    share a fingerprint. *)
Theorem fusion_same_list_twice (hash : string -> Z) (query : string)
    (r r1 r2 : retriever) (L : list Document) (w : Float.float) :
  r query = Returned L ->
  r1 query = Returned L ->
  r2 query = Returned L ->
  exists once twice : Ensemble.acc,
    Ensemble.accumulate hash query [(r, w)] Ensemble.acc0 = Returned once
    /\ Ensemble.accumulate hash query [(r1, w); (r2, w)] Ensemble.acc0 = Returned twice
    /\ Ensemble.all_docs twice = Ensemble.all_docs once
    /\ dom (Ensemble.all_doc_scores twice) = dom (Ensemble.all_doc_scores once)
    /\ (forall h : Z,
          let cs := Ensemble.contributions hash h [(L, w)] in
          Ensemble.score_of once h = Ensemble.total cs
          /\ Ensemble.score_of twice h = Ensemble.total (cs ++ cs))
    /\ (NoDup (map (Ensemble.fingerprint hash) L) ->
        forall h : Z,
          Ensemble.score_of twice h
          = Float.add (Ensemble.score_of once h) (Ensemble.score_of once h)).
Proof.
  intros Hr Hr1 Hr2.
  exists (Ensemble.fuse hash [(L, w)] Ensemble.acc0),
         (Ensemble.fuse hash [(L, w); (L, w)] Ensemble.acc0).
  assert (Hscores : forall h : Z,
             Ensemble.score_of (Ensemble.fuse hash [(L, w)] Ensemble.acc0) h
             = Ensemble.total (Ensemble.contributions hash h [(L, w)])
             /\ Ensemble.score_of (Ensemble.fuse hash [(L, w); (L, w)] Ensemble.acc0) h
                = Ensemble.total (Ensemble.contributions hash h [(L, w)]
                                  ++ Ensemble.contributions hash h [(L, w)])).
  { intros h. rewrite !score_of_fuse. cbn [Ensemble.contributions].
    by rewrite !app_nil_r. }
  split.
  { apply (accumulate_returns hash query [r] [L] ltac:(repeat constructor; done) [w]). }
  split.
  { apply (accumulate_returns hash query [r1; r2] [L; L]
             ltac:(repeat constructor; done) [w; w]). }
  split.
  { rewrite !all_docs_fuse. simpl. rewrite !app_nil_r. apply remember_twice. }
  split.
  { rewrite !dom_fuse. simpl. rewrite !app_nil_r, map_app, list_to_set_app_L.
    set_solver. }
  split; [exact Hscores|].
  intros Hnd h. destruct (Hscores h) as [-> ->].
  cbn [Ensemble.contributions]. rewrite app_nil_r.
  pose proof (ranked_contributions_NoDup hash h w (length L) L 0%nat Hnd) as Hlen.
  unfold enumerate.
  destruct (Ensemble.ranked_contributions hash h w (length L) (enumerate_from 0 L))
    as [|c [|c' cs]]; [done| |simpl in Hlen; lia].
  apply add_zero_twice.
Qed.

Lemma fusion_same_list_twice_witness :
  exists once twice : Ensemble.acc,
    Ensemble.accumulate Samples.sample_hash "q"
      [(Samples.retriever_ca, Samples.half)] Ensemble.acc0 = Returned once
    /\ Ensemble.accumulate Samples.sample_hash "q"
         [(Samples.retriever_ca, Samples.half); (Samples.retriever_ca, Samples.half)]
         Ensemble.acc0 = Returned twice
    /\ forall h : Z,
         Ensemble.score_of twice h
         = Float.add (Ensemble.score_of once h) (Ensemble.score_of once h).
Proof.
  destruct (fusion_same_list_twice Samples.sample_hash "q"
              Samples.retriever_ca Samples.retriever_ca Samples.retriever_ca
              [Samples.docC; Samples.docA] Samples.half)
    as (once & twice & H1 & H2 & _ & _ & _ & H3); [reflexivity | reflexivity | reflexivity |].
  exists once, twice. split; [exact H1|]. split; [exact H2|].
  apply H3. vm_compute. repeat constructor; set_solver.
Defined.

(** C8, as stated, fails: a score is not always doubled. With the list
    [A, A, A] and weight 0.5, one retriever accumulates 0.9999999999999999
    for A, two retrievers accumulate 2.0, and twice 0.9999999999999999 is
    1.9999999999999998. *)
Lemma fusion_same_list_twice_not_doubled :
  let L := [Samples.docA; Samples.docA; Samples.docA] in
  let hA := Ensemble.fingerprint Samples.sample_hash Samples.docA in
  let once := Ensemble.fuse Samples.sample_hash [(L, Float.half)] Ensemble.acc0 in
  let twice :=
    Ensemble.fuse Samples.sample_hash [(L, Float.half); (L, Float.half)] Ensemble.acc0 in
  Ensemble.accumulate Samples.sample_hash "q"
    [(Samples.retriever_of L, Float.half)] Ensemble.acc0 = Returned once
  /\ Ensemble.accumulate Samples.sample_hash "q"
       [(Samples.retriever_of L, Float.half); (Samples.retriever_of L, Float.half)]
       Ensemble.acc0 = Returned twice
  /\ Ensemble.score_of once hA = S754_finite false 9007199254740991 (-53)
  /\ Ensemble.score_of twice hA = Float.of_Z 2
  /\ Float.add (Ensemble.score_of once hA) (Ensemble.score_of once hA)
     = S754_finite false 9007199254740991 (-52)
  /\ Float.mul (Float.of_Z 2) (Ensemble.score_of once hA)
     = S754_finite false 9007199254740991 (-52)
  /\ Float.ltb (Float.add (Ensemble.score_of once hA) (Ensemble.score_of once hA))
               (Ensemble.score_of twice hA) = true.
Proof. cbn zeta. repeat split; by vm_compute. Qed.

(** ** Failing retrievers and construction *)

Section FusionFailure.
Import Ensemble.
Variable hash : string -> Z.

Lemma accumulate_raises (query : string) (pre post : list (retriever * Float.float))
    (r : retriever) (w : Float.float) (e : exn) :
  Forall (fun rw => returns (fst rw query)) pre ->
  r query = Raised e ->
  forall a : acc, accumulate hash query (pre ++ (r, w) :: post) a = Raised e.
Proof.
  intros Hpre Hr. induction Hpre as [|[r0 w0] pre Hr0 _ IH]; intros a; simpl.
  - by rewrite Hr.
  - simpl in Hr0. destruct (r0 query); [apply IH | done].
Qed.

Lemma accumulate_returns_iff (query : string) (rws : list (retriever * Float.float)) :
  forall a : acc,
    returns (accumulate hash query rws a)
    <-> Forall (fun rw => returns (fst rw query)) rws.
Proof.
  induction rws as [|[r w] rws IH]; intros a; simpl.
  - split; [constructor | done].
  - destruct (r query) as [docs|e] eqn:Hr; simpl.
    + rewrite IH. split.
      * intros Hall. constructor; [simpl; by rewrite Hr | done].
      * by inversion 1.
    + split; [done|]. inversion 1 as [|? ? Hhd]; subst. simpl in Hhd.
      by rewrite Hr in Hhd.
Qed.
End FusionFailure.

(** C3, as the code has it. A failing retriever call is not absorbed:
    [invoke] returns exactly when every retriever (paired with a weight)
    returns, and otherwise raises the error of the first retriever that
    fails, whatever the other retrievers return. *)
Theorem fusion_failure_propagates (hash : string -> Z)
    (sort_order : list Float.float -> list nat)
    (self : Ensemble.EnsembleRetriever) (i : input) :
  let rws := combine (Ensemble.retrievers self) (Ensemble.weights self) in
  (returns (Ensemble.invoke hash sort_order self i)
   <-> Forall (fun rw => returns (fst rw (query_of_input i))) rws)
  /\ forall (pre post : list (retriever * Float.float)) (r : retriever)
            (w : Float.float) (e : exn),
       rws = pre ++ (r, w) :: post ->
       Forall (fun rw => returns (fst rw (query_of_input i))) pre ->
       r (query_of_input i) = Raised e ->
       Ensemble.invoke hash sort_order self i = Raised e.
Proof.
  cbn zeta. split.
  - rewrite <- (accumulate_returns_iff hash _ _ Ensemble.acc0).
    unfold Ensemble.invoke.
    by destruct (Ensemble.accumulate hash _ _ Ensemble.acc0).
  - intros pre post r w e Hrws Hpre Hr. unfold Ensemble.invoke.
    rewrite Hrws, (accumulate_raises hash _ pre post r w e) by done. done.
Qed.

Lemma fusion_failure_propagates_witness :
  Ensemble.invoke Samples.sample_hash stable_order
    (Ensemble.mkEnsemble [Samples.retriever_abc; Samples.retriever_down]
                         [Samples.half; Samples.half])
    (InputStr "q")
  = Raised (BackendUnavailable "connection refused").
Proof.
  apply (proj2 (fusion_failure_propagates Samples.sample_hash stable_order
                  (Ensemble.mkEnsemble [Samples.retriever_abc; Samples.retriever_down]
                                       [Samples.half; Samples.half])
                  (InputStr "q"))
           [(Samples.retriever_abc, Samples.half)] []
           Samples.retriever_down Samples.half).
  - reflexivity.
  - repeat constructor.
  - reflexivity.
Defined.

(** C3, as stated, fails: with one retriever returning three documents and
    one retriever down, the combiner raises instead of returning the
    surviving retriever's documents. *)
Lemma fusion_failure_not_absorbed :
  returns (Samples.retriever_abc "q")
  /\ ~ returns (Ensemble.invoke Samples.sample_hash stable_order
                  (Ensemble.mkEnsemble [Samples.retriever_abc; Samples.retriever_down]
                                       [Samples.half; Samples.half])
                  (InputStr "q")).
Proof. split; [exact I | intros H; exact H]. Qed.

(** C10. Constructing the combiner with an explicit weight list whose
    length differs from the number of retrievers raises [ValueError]; with
    no weights supplied and [N >= 1] retrievers the constructor returns an
    object in which each of the [N] retrievers has the weight [1.0 / N],
    and whenever it returns without supplied weights all weights are
    [1.0 / N] (with no retriever at all, [1.0 / 0] raises). *)
Theorem init_weights (rs : list retriever) :
  let uniform := Float.div Float.one (Float.of_Z (Z.of_nat (length rs))) in
  (forall ws : list Float.float,
      length ws <> length rs ->
      exists msg : string, Ensemble.init rs (Some ws) = Raised (ValueError msg))
  /\ (rs <> [] ->
      Ensemble.init rs None
      = Returned (Ensemble.mkEnsemble rs (replicate (length rs) uniform)))
  /\ (forall self : Ensemble.EnsembleRetriever,
        Ensemble.init rs None = Returned self ->
        Ensemble.retrievers self = rs
        /\ length (Ensemble.weights self) = length rs
        /\ Forall (fun w => w = uniform) (Ensemble.weights self)).
Proof.
  cbn zeta.
  assert (Hnone : rs <> [] ->
                  Ensemble.init rs None
                  = Returned (Ensemble.mkEnsemble rs
                                (replicate (length rs)
                                   (Float.div Float.one
                                      (Float.of_Z (Z.of_nat (length rs))))))).
  { intros Hrs. unfold Ensemble.init.
    destruct (Nat.eqb_spec (length rs) 0) as [Hz|_].
    - by destruct rs.
    - cbn [bind]. by rewrite length_replicate, Nat.eqb_refl. }
  split; [|split; [exact Hnone|]].
  - intros ws Hne. unfold Ensemble.init. cbn [bind].
    rewrite (proj2 (Nat.eqb_neq _ _) Hne). eauto.
  - intros self Hself. destruct (decide (rs = [])) as [->|Hrs]; [done|].
    rewrite Hnone in Hself by done. injection Hself as <-.
    cbn [Ensemble.retrievers Ensemble.weights].
    split; [done|]. split; [apply length_replicate|].
    by apply Forall_replicate.
Qed.

Lemma init_weights_witness :
  (exists msg : string,
      Ensemble.init [Samples.retriever_abc; Samples.retriever_ca] (Some [Samples.half])
      = Raised (ValueError msg))
  /\ Ensemble.init [Samples.retriever_abc; Samples.retriever_ca] None
     = Returned (Ensemble.mkEnsemble [Samples.retriever_abc; Samples.retriever_ca]
                                     [Float.half; Float.half]).
Proof.
  destruct (init_weights [Samples.retriever_abc; Samples.retriever_ca])
    as (Hbad & Hnone & _).
  split.
  - apply Hbad. simpl. lia.
  - apply Hnone. discriminate.
Defined.

(** ** Chunk hierarchy store *)

Section DistinctFacts.
Lemma elem_of_distinct (x : string) (l : list string) : x ∈ distinct l <-> x ∈ l.
Proof.
  induction l as [|y l IH]; [done|]. simpl.
  rewrite !elem_of_cons, <- IH, !list_elem_of_In, filter_In.
  destruct (String.eqb_spec y x) as [->|Hne]; simpl; [tauto|].
  split; [tauto|]. intros [->|?]; [done | tauto].
Qed.

Lemma NoDup_distinct (l : list string) : NoDup (distinct l).
Proof.
  induction l as [|y l IH]; simpl; constructor.
  - rewrite list_elem_of_In, filter_In. intros [_ Hy].
    by rewrite String.eqb_refl in Hy.
  - apply NoDup_ListNoDup, List.NoDup_filter. by apply NoDup_ListNoDup.
Qed.

Lemma distinct_length (l : list string) : (length (distinct l) <= length l)%nat.
Proof.
  induction l as [|y l IH]; simpl; [lia|].
  pose proof (filter_length_le (fun z => negb (String.eqb y z)) (distinct l)). lia.
Qed.
End DistinctFacts.

Section HierarchyFacts.
Import ParentDocumentRetriever.
Variable hash : string -> Z.
Variable similarity_search : list Document -> string -> Z -> list Document.
Variable set_list : list string -> list string.
(** A set holds each added element once; its iteration order is not
    specified. *)
Hypothesis set_list_distinct : forall l : list string, set_list l ≡ₚ distinct l.

Lemma omap_mget (store : gmap string Document) (ids : list string) :
  omap id (InMemoryStore.mget store ids) = omap (fun i => store !! i) ids.
Proof.
  unfold InMemoryStore.mget.
  induction ids as [|i ids IH]; [done|].
  csimpl. by rewrite IH.
Qed.

Lemma invoke_eq (self : t) (i : input) :
  invoke similarity_search set_list self i
  = Returned (omap (fun parent_id => docstore self !! parent_id)
                   (set_list (added_parent_ids
                                (similarity_search (vectorstore self)
                                   (query_of_input i) (k self))))).
Proof. unfold invoke. by rewrite omap_mget. Qed.

Lemma added_parent_ids_length (child_docs : list Document) :
  (length (added_parent_ids child_docs) <= length child_docs)%nat.
Proof.
  induction child_docs as [|c cs IH]; simpl; [lia|].
  destruct (metadata c !! "parent_id") as [pid|]; [|lia].
  destruct (String.eqb pid ""); simpl; lia.
Qed.

Lemma elem_of_added_parent_ids (pid : string) (child_docs : list Document) :
  pid ∈ added_parent_ids child_docs
  <-> pid <> "" /\ exists c, c ∈ child_docs /\ metadata c !! "parent_id" = Some pid.
Proof.
  induction child_docs as [|c cs IH]; simpl.
  - split; [by intros ?%elem_of_nil | by intros (_ & ? & ?%elem_of_nil & _)].
  - destruct (metadata c !! "parent_id") as [p|] eqn:Hp.
    + destruct (String.eqb_spec p "") as [->|Hne].
      * rewrite IH. split.
        -- intros (? & c' & ? & ?). split; [done|]. exists c'. by rewrite elem_of_cons; auto.
        -- intros (Hpid & c' & [->|Hin]%elem_of_cons & Hc'); [congruence|eauto].
      * rewrite elem_of_cons, IH. split.
        -- intros [->|(? & c' & ? & ?)].
           ++ split; [done|]. exists c. split; [apply list_elem_of_here | done].
           ++ split; [done|]. exists c'. by rewrite elem_of_cons; auto.
        -- intros (Hpid & c' & [->|Hin]%elem_of_cons & Hc').
           ++ left. congruence.
           ++ right. eauto.
    + rewrite IH. split.
      * intros (? & c' & ? & ?). split; [done|]. exists c'. by rewrite elem_of_cons; auto.
      * intros (Hpid & c' & [->|Hin]%elem_of_cons & Hc'); [congruence|eauto].
Qed.

Lemma omap_lookup_length (store : gmap string Document) (ids : list string) :
  (length (omap (fun i => store !! i) ids) <= length ids)%nat.
Proof.
  induction ids as [|i ids IH]; csimpl; [lia|].
  destruct (store !! i); simpl; lia.
Qed.

Lemma omap_lookup_resolved (store : gmap string Document) (ids : list string) :
  Forall2 (fun i p => store !! i = Some p)
          (List.filter (fun i => bool_decide (is_Some (store !! i))) ids)
          (omap (fun i => store !! i) ids).
Proof.
  induction ids as [|i ids IH]; csimpl; [constructor|].
  destruct (bool_decide_reflect (is_Some (store !! i))) as [[p Hp]|Hnone].
  - rewrite Hp. by constructor.
  - destruct (store !! i) as [p|]; [|done]. destruct Hnone. eauto.
Qed.

Lemma NoDup_resolved (store : gmap string Document) (ids : list string) :
  keyed_by_content hash store ->
  NoDup ids -> NoDup (omap (fun i => store !! i) ids).
Proof.
  intros Hkeyed. induction 1 as [|i ids Hi Hids IH]; csimpl; [constructor|].
  destruct (store !! i) as [p|] eqn:Hp; [|done].
  constructor; [|done].
  rewrite list_elem_of_omap. intros (j & Hj & Hjp).
  apply Hkeyed in Hp, Hjp. congruence.
Qed.
End HierarchyFacts.

Section IngestionFacts.
Import ParentDocumentRetriever.
Variable hash : string -> Z.

(** The parent map after the loop: one assignment per parent, in order. *)
Lemma add_parent_docstore (parent_docs : list Document) :
  forall self : t,
    docstore (fold_left (add_parent hash) parent_docs self)
    = fold_left (fun s p => <[parent_id_of hash p := p]> s) parent_docs (docstore self).
Proof.
  induction parent_docs as [|p ps IH]; intros self; [done|].
  simpl. by rewrite IH.
Qed.

(** The child index after the loop: the tagged children of every parent,
    in order; a parent without children adds nothing. *)
Lemma add_parent_vectorstore (parent_docs : list Document) :
  forall self : t,
    vectorstore (fold_left (add_parent hash) parent_docs self)
    = vectorstore self ++ concat (map (child_docs_of hash self) parent_docs).
Proof.
  induction parent_docs as [|p ps IH]; intros self; simpl.
  - by rewrite app_nil_r.
  - rewrite IH.
    assert (Hsame : map (child_docs_of hash (add_parent hash self p)) ps
                    = map (child_docs_of hash self) ps) by done.
    rewrite Hsame. unfold add_parent. cbn [vectorstore].
    destruct (child_docs_of hash self p) as [|c cs]; [done|].
    by rewrite <- app_assoc.
Qed.

Lemma insert_parents_stored (parent_docs : list Document) :
  forall (store : gmap string Document) (p : Document),
    (p ∈ parent_docs \/ is_Some (store !! parent_id_of hash p)) ->
    is_Some (fold_left (fun s p => <[parent_id_of hash p := p]> s) parent_docs store
             !! parent_id_of hash p).
Proof.
  induction parent_docs as [|p0 ps IH]; intros store p Hp; simpl.
  - destruct Hp as [Hin|Hs]; [by apply elem_of_nil in Hin | done].
  - apply IH. destruct Hp as [[->|Hin]%elem_of_cons|Hs].
    + right. rewrite lookup_insert_eq. eauto.
    + by left.
    + right. rewrite lookup_insert. case_decide; eauto.
Qed.

Lemma insert_parents_keyed (parent_docs : list Document) :
  forall store : gmap string Document,
    keyed_by_content hash store ->
    keyed_by_content hash
      (fold_left (fun s p => <[parent_id_of hash p := p]> s) parent_docs store).
Proof.
  induction parent_docs as [|p0 ps IH]; intros store Hkeyed; [done|].
  simpl. apply IH. intros pid p. rewrite lookup_insert.
  case_decide; [|by apply Hkeyed]. intros [= <-]. done.
Qed.

(** [add_documents] keeps the parent map keyed by content. *)
Lemma add_documents_keyed (self self' : t) (documents : list Document) :
  keyed_by_content hash (docstore self) ->
  add_documents hash self documents = Returned self' ->
  keyed_by_content hash (docstore self').
Proof.
  intros Hkeyed [= <-]. rewrite add_parent_docstore.
  by apply insert_parents_keyed.
Qed.
End IngestionFacts.

Lemma slot_order_distinct (l : list string) : Samples.slot_order l ≡ₚ distinct l.
Proof. apply sorted_desc_perm. Qed.

(** C2, as the code has it. The parent ids are collected in a set, so the
    order of the returned parents is the iteration order of that set: for
    every store and every search result of at most [k] children, [invoke]
    returns the parents that [parents_by_first_child] lists, up to their
    order; no parent id is resolved twice (and, in a store keyed by content,
    no parent document appears twice); at most [k] parents are returned. *)
Theorem retrieve_distinct_parents (hash : string -> Z)
    (similarity_search : list Document -> string -> Z -> list Document)
    (set_list : list string -> list string)
    (self : ParentDocumentRetriever.t) (i : input) :
  (forall l : list string, set_list l ≡ₚ distinct l) ->
  let child_docs :=
    similarity_search (ParentDocumentRetriever.vectorstore self) (query_of_input i)
                      (ParentDocumentRetriever.k self) in
  Z.of_nat (length child_docs) <= ParentDocumentRetriever.k self ->
  exists parents : list Document,
    ParentDocumentRetriever.invoke similarity_search set_list self i = Returned parents
    /\ parents ≡ₚ ParentDocumentRetriever.parents_by_first_child similarity_search self i
    /\ Z.of_nat (length parents) <= ParentDocumentRetriever.k self
    /\ (length parents
        <= length (distinct (ParentDocumentRetriever.added_parent_ids child_docs)))%nat
    /\ (exists ids : list string,
           NoDup ids
           /\ (forall pid, pid ∈ ids ->
                 pid ∈ ParentDocumentRetriever.added_parent_ids child_docs)
           /\ Forall2 (fun pid p => ParentDocumentRetriever.docstore self !! pid = Some p)
                      ids parents)
    /\ (ParentDocumentRetriever.keyed_by_content hash
          (ParentDocumentRetriever.docstore self) -> NoDup parents).
Proof.
  intros Hset child_docs Hk.
  set (added := ParentDocumentRetriever.added_parent_ids child_docs).
  set (store := ParentDocumentRetriever.docstore self).
  exists (omap (fun pid => store !! pid) (set_list added)).
  assert (Hnodup : NoDup (set_list added)).
  { rewrite Hset. apply NoDup_distinct. }
  assert (Hlen : (length (omap (fun pid => store !! pid) (set_list added))
                  <= length (distinct added))%nat).
  { rewrite <- (Permutation_length (Hset added)). apply omap_lookup_length. }
  split; [apply invoke_eq|]. split.
  { unfold ParentDocumentRetriever.parents_by_first_child.
    fold child_docs added store. by rewrite (Hset added). }
  split.
  { pose proof (distinct_length added).
    pose proof (added_parent_ids_length child_docs). unfold added in *. lia. }
  split; [exact Hlen|]. split.
  - exists (List.filter (fun pid => bool_decide (is_Some (store !! pid))) (set_list added)).
    split; [|split].
    + apply NoDup_ListNoDup, List.NoDup_filter. by apply NoDup_ListNoDup.
    + intros pid [Hin _]%list_elem_of_In%filter_In.
      apply list_elem_of_In in Hin. rewrite (Hset added) in Hin.
      by apply elem_of_distinct.
    + apply omap_lookup_resolved.
  - intros Hkeyed. by apply (NoDup_resolved hash).
Qed.

Lemma retrieve_distinct_parents_witness :
  exists parents : list Document,
    ParentDocumentRetriever.invoke Samples.first_k Samples.slot_order
      (ParentDocumentRetriever.mk
         [ParentDocumentRetriever.set_parent_id "parent_282" Samples.docA]
         {["parent_282" := Samples.docA]}
         Samples.split_whole Samples.split_whole 4)
      (InputStr "q") = Returned parents
    /\ Z.of_nat (length parents) <= 4.
Proof.
  destruct (retrieve_distinct_parents Samples.sample_hash Samples.first_k
              Samples.slot_order
              (ParentDocumentRetriever.mk
                 [ParentDocumentRetriever.set_parent_id "parent_282" Samples.docA]
                 {["parent_282" := Samples.docA]}
                 Samples.split_whole Samples.split_whole 4)
              (InputStr "q") slot_order_distinct)
    as (parents & Hinv & _ & Hlen & _).
  - simpl. lia.
  - exists parents. split; [exact Hinv | exact Hlen].
Defined.

(** C2, as stated, fails: after ingesting three one-chunk documents C, B, A,
    the search returns their chunks in that order, and under a set that
    iterates by hash slot the parents come back as A, B, C, not in the order
    C, B, A of their first children. *)
Lemma retrieve_order_not_first_child :
  exists self : ParentDocumentRetriever.t,
    ParentDocumentRetriever.add_documents Samples.sample_hash Samples.empty_retriever
      [Samples.docC; Samples.docB; Samples.docA] = Returned self
    /\ ParentDocumentRetriever.invoke Samples.first_k Samples.slot_order self (InputStr "q")
       = Returned [Samples.docA; Samples.docB; Samples.docC]
    /\ ParentDocumentRetriever.parents_by_first_child Samples.first_k self (InputStr "q")
       = [Samples.docC; Samples.docB; Samples.docA].
Proof. eexists. split; [reflexivity|]. split; by vm_compute. Qed.

(** C4, as the code has it. [invoke] never raises a [ConsistencyError]: it
    returns, and the parents it returns are exactly the stored parents of
    the matched children; a child whose [parent_id] is missing, empty or
    does not resolve contributes nothing. *)
Theorem retrieve_filters_dangling
    (similarity_search : list Document -> string -> Z -> list Document)
    (set_list : list string -> list string)
    (self : ParentDocumentRetriever.t) (i : input) :
  (forall l : list string, set_list l ≡ₚ distinct l) ->
  exists parents : list Document,
    ParentDocumentRetriever.invoke similarity_search set_list self i = Returned parents
    /\ forall p : Document,
         p ∈ parents
         <-> exists (child : Document) (pid : string),
               child ∈ similarity_search (ParentDocumentRetriever.vectorstore self)
                         (query_of_input i) (ParentDocumentRetriever.k self)
               /\ metadata child !! "parent_id" = Some pid
               /\ pid <> ""
               /\ ParentDocumentRetriever.docstore self !! pid = Some p.
Proof.
  intros Hset. eexists. split; [apply invoke_eq|].
  intros p. rewrite list_elem_of_omap. split.
  - intros (pid & Hpid & Hp). rewrite (Hset _) in Hpid.
    apply elem_of_distinct, elem_of_added_parent_ids in Hpid.
    destruct Hpid as (Hne & child & Hchild & Hmeta). by exists child, pid.
  - intros (child & pid & Hchild & Hmeta & Hne & Hp).
    exists pid. split; [|done]. rewrite (Hset _).
    apply elem_of_distinct, elem_of_added_parent_ids. eauto.
Qed.

Lemma retrieve_filters_dangling_witness :
  exists parents : list Document,
    ParentDocumentRetriever.invoke Samples.first_k Samples.slot_order
      (ParentDocumentRetriever.mk
         [ParentDocumentRetriever.set_parent_id "parent_282" Samples.docA]
         ∅ Samples.split_whole Samples.split_whole 4)
      (InputStr "q") = Returned parents.
Proof.
  destruct (retrieve_filters_dangling Samples.first_k Samples.slot_order
              (ParentDocumentRetriever.mk
                 [ParentDocumentRetriever.set_parent_id "parent_282" Samples.docA]
                 ∅ Samples.split_whole Samples.split_whole 4)
              (InputStr "q") slot_order_distinct)
    as (parents & Hinv & _).
  exists parents. exact Hinv.
Defined.

(** C4, as stated, fails: after document A is ingested and its parent is
    deleted from the parent map, the search still matches A's child, whose
    [parent_id] dangles; the retrieval returns the empty list instead of
    raising. *)
Lemma retrieve_dangling_not_raised :
  exists self : ParentDocumentRetriever.t,
    ParentDocumentRetriever.add_documents Samples.sample_hash Samples.empty_retriever
      [Samples.docA] = Returned self
    /\ let self' :=
         ParentDocumentRetriever.mk
           (ParentDocumentRetriever.vectorstore self)
           (InMemoryStore.mdelete (ParentDocumentRetriever.docstore self) ["parent_282"])
           (ParentDocumentRetriever.child_splitter self)
           (ParentDocumentRetriever.parent_splitter self)
           (ParentDocumentRetriever.k self) in
       map (fun child => metadata child !! "parent_id")
           (Samples.first_k (ParentDocumentRetriever.vectorstore self') "q" 4)
       = [Some "parent_282"]
       /\ ParentDocumentRetriever.docstore self' !! "parent_282" = None
       /\ ParentDocumentRetriever.invoke Samples.first_k Samples.slot_order self'
            (InputStr "q") = Returned [].
Proof. eexists. split; [reflexivity|]. cbn zeta. repeat split; by vm_compute. Qed.

(** C6, as the code has it. [add_documents] raises no [IngestionError] and
    reports nothing when a parent yields no children: it returns, every
    parent is stored in the parent map under its id, the child index grows
    by the tagged children of the parents in order, and a parent whose
    split is empty adds nothing to the index. *)
Theorem add_documents_childless_parent (hash : string -> Z)
    (self : ParentDocumentRetriever.t) (documents : list Document) :
  let parent_docs := ParentDocumentRetriever.parent_splitter self documents in
  exists self' : ParentDocumentRetriever.t,
    ParentDocumentRetriever.add_documents hash self documents = Returned self'
    /\ (forall p : Document,
          p ∈ parent_docs ->
          is_Some (ParentDocumentRetriever.docstore self'
                   !! ParentDocumentRetriever.parent_id_of hash p))
    /\ ParentDocumentRetriever.vectorstore self'
       = ParentDocumentRetriever.vectorstore self
         ++ concat (map (ParentDocumentRetriever.child_docs_of hash self) parent_docs)
    /\ (forall p : Document,
          ParentDocumentRetriever.child_splitter self [p] = [] ->
          ParentDocumentRetriever.child_docs_of hash self p = [])
    /\ ((forall p : Document,
           p ∈ parent_docs -> ParentDocumentRetriever.child_splitter self [p] = []) ->
        ParentDocumentRetriever.vectorstore self'
        = ParentDocumentRetriever.vectorstore self).
Proof.
  cbn zeta. eexists. split; [reflexivity|].
  split; [|split; [|split]].
  - intros p Hp. rewrite add_parent_docstore. apply insert_parents_stored. by left.
  - apply add_parent_vectorstore.
  - intros p Hp. unfold ParentDocumentRetriever.child_docs_of. by rewrite Hp.
  - intros Hall. rewrite add_parent_vectorstore.
    induction (ParentDocumentRetriever.parent_splitter self documents) as [|p ps IH];
      simpl; [by rewrite app_nil_r|].
    unfold ParentDocumentRetriever.child_docs_of at 1.
    rewrite (Hall p) by apply list_elem_of_here. simpl.
    apply IH. intros p' Hp'. by apply Hall, list_elem_of_further.
Qed.

Lemma add_documents_childless_parent_witness :
  exists self' : ParentDocumentRetriever.t,
    ParentDocumentRetriever.add_documents Samples.sample_hash
      Samples.degenerate_retriever [Samples.docA] = Returned self'
    /\ is_Some (ParentDocumentRetriever.docstore self' !! "parent_282")
    /\ ParentDocumentRetriever.vectorstore self' = [].
Proof.
  destruct (add_documents_childless_parent Samples.sample_hash
              Samples.degenerate_retriever [Samples.docA])
    as (self' & Hadd & Hstored & _ & _ & Hindex).
  exists self'. split; [exact Hadd|]. split.
  - apply (Hstored Samples.docA). apply list_elem_of_here.
  - apply Hindex. reflexivity.
Defined.

(** C6, as stated, fails: with a child splitter that yields nothing,
    ingesting document A returns normally, with A stored as a parent and
    the child index left empty; no [IngestionError] is raised. *)
Lemma add_documents_degenerate_returns :
  exists self' : ParentDocumentRetriever.t,
    ParentDocumentRetriever.add_documents Samples.sample_hash
      Samples.degenerate_retriever [Samples.docA] = Returned self'
    /\ ParentDocumentRetriever.child_splitter Samples.degenerate_retriever [Samples.docA] = []
    /\ ParentDocumentRetriever.docstore self' !! "parent_282" = Some Samples.docA
    /\ ParentDocumentRetriever.vectorstore self' = [].
Proof. eexists. split; [reflexivity|]. repeat split; by vm_compute. Qed.

(** ** Query expansion *)

Section ExpansionFacts.
Import QueryExpansion.

Lemma slice_to_length {A : Type} (n : Z) (l : list A) :
  0 <= n -> Z.of_nat (length (slice_to n l)) <= n.
Proof.
  intros Hn. rewrite slice_to_nonneg, length_take by done. lia.
Qed.

(** The result never has more than [num_queries] entries. *)
Lemma generate_queries_length (llm : string -> Z -> outcome string)
    (num_queries : Z) (question : string) (queries : list string) :
  0 <= num_queries ->
  _generate_queries llm num_queries question = Returned queries ->
  Z.of_nat (length queries) <= num_queries.
Proof.
  intros Hn. unfold _generate_queries.
  destruct (llm question num_queries); [|done].
  intros [= <-]. by apply slice_to_length.
Qed.

(** When the generator does not reproduce the question, the question
    comes first. *)
Lemma generate_queries_head (llm : string -> Z -> outcome string)
    (num_queries : Z) (question result : string) :
  1 <= num_queries ->
  llm question num_queries = Returned result ->
  contains question (parse_queries result) = false ->
  exists rest : list string,
    _generate_queries llm num_queries question = Returned (question :: rest).
Proof.
  intros Hn Hllm Hnot. unfold _generate_queries.
  rewrite Hllm. cbn [bind]. unfold include_original. rewrite Hnot.
  rewrite slice_to_nonneg by lia.
  destruct (Z.to_nat num_queries) as [|n] eqn:Hz; [lia|].
  simpl. eauto.
Qed.
End ExpansionFacts.

(** C5, on the failing input. The generator answers ["define RAG"] and then
    repeats the question ["what is RAG"]: both [_generate_queries] (bound 3)
    and [expand_query] return the generator's lines unchanged, so the
    original query is second, not first; and when the repetition comes after
    three other lines, [_generate_queries] with bound 3 drops the original
    query altogether. *)
Theorem expansion_original_not_first :
  QueryExpansion._generate_queries Samples.llm_repeating 3 "what is RAG"
  = Returned ["define RAG"; "what is RAG"]
  /\ QueryExpansion.expand_query (Some "demo")
       (fun question => Samples.llm_repeating question 3) "what is RAG"
     = ["define RAG"; "what is RAG"]
  /\ QueryExpansion._generate_queries Samples.llm_repeating_last 3 "what is RAG"
     = Returned ["a"; "b"; "c"].
Proof. repeat split; by vm_compute. Qed.

(** * Further properties of the retrieval core *)

(** ** Fusion: deduplication *)

Section FirstObservedFacts.
Import Ensemble.
Variable hash : string -> Z.

Lemma first_observed_elem (kv : Z * Document) (docs : list Document) :
  kv ∈ first_observed hash docs ->
  fst kv = fingerprint hash (snd kv) /\ snd kv ∈ docs.
Proof.
  induction docs as [|doc docs IH]; simpl; [by intros ?%elem_of_nil|].
  intros [->|Hin]%elem_of_cons.
  - split; [done | apply list_elem_of_here].
  - apply list_elem_of_In, filter_In in Hin as [Hin _].
    apply list_elem_of_In, IH in Hin as [? ?].
    split; [done | by apply list_elem_of_further].
Qed.

Lemma first_observed_keys_NoDup (docs : list Document) :
  NoDup (map fst (first_observed hash docs)).
Proof.
  induction docs as [|doc docs IH]; simpl; constructor.
  - rewrite list_elem_of_fmap. intros (kv & Hkey & Hin).
    apply list_elem_of_In, filter_In in Hin as [_ Hne].
    rewrite <- Hkey, Z.eqb_refl in Hne. done.
  - clear -IH. induction (first_observed hash docs) as [|kv kvs IHk]; [constructor|].
    simpl in *. apply NoDup_cons in IH as [Hkv Hkvs].
    destruct (negb (fst kv =? fingerprint hash doc)); [|by apply IHk].
    simpl. constructor; [|by apply IHk].
    rewrite list_elem_of_fmap in *. intros (kv' & Hkey & Hin). apply Hkv.
    exists kv'. split; [done|].
    apply list_elem_of_In, filter_In in Hin as [Hin _]. by apply list_elem_of_In.
Qed.

Lemma first_observed_complete (d : Document) (docs : list Document) :
  d ∈ docs -> fingerprint hash d ∈ map fst (first_observed hash docs).
Proof.
  induction docs as [|doc docs IH]; [by intros ?%elem_of_nil|].
  intros [->|Hin]%elem_of_cons; simpl; [apply list_elem_of_here|].
  destruct (Z.eqb_spec (fingerprint hash d) (fingerprint hash doc)) as [->|Hne];
    [apply list_elem_of_here|].
  apply list_elem_of_further.
  apply IH, list_elem_of_fmap in Hin as (kv & Hkey & Hkv).
  apply list_elem_of_fmap. exists kv. split; [done|].
  apply list_elem_of_In, filter_In. split; [by apply list_elem_of_In|].
  apply negb_true_iff, Z.eqb_neq. congruence.
Qed.

Lemma first_observed_length (docs : list Document) :
  (length (first_observed hash docs) <= length docs)%nat.
Proof.
  induction docs as [|doc docs IH]; simpl; [lia|].
  pose proof (filter_length_le
                (fun kv : Z * Document => negb (fst kv =? fingerprint hash doc))
                (first_observed hash docs)). lia.
Qed.

Lemma first_observed_fingerprints (kvs : list (Z * Document)) (docs : list Document) :
  kvs ≡ₚ first_observed hash docs ->
  map (fingerprint hash) (map snd kvs) = map fst kvs.
Proof.
  intros Hperm. rewrite map_map. apply map_ext_in. intros kv Hkv.
  apply list_elem_of_In in Hkv. rewrite Hperm in Hkv.
  by apply first_observed_elem in Hkv as [-> _].
Qed.
End FirstObservedFacts.

(** X1. The fused output is deduplicated and complete, whatever the
    scores: no two returned documents have the same fingerprint, every
    returned document was returned by some retriever, and the fingerprint
    of every retrieved document is that of a returned document. *)
Theorem fusion_output_deduplicated (hash : string -> Z)
    (sort_order : list Float.float -> list nat) (i : input)
    (rs : list retriever) (ws : list Float.float) (results : list (list Document)) :
  permutes sort_order ->
  Forall2 (fun r docs => r (query_of_input i) = Returned docs) rs results ->
  let retrieved := concat (map fst (combine results ws)) in
  exists out : list Document,
    Ensemble.invoke hash sort_order (Ensemble.mkEnsemble rs ws) i = Returned out
    /\ NoDup (map (Ensemble.fingerprint hash) out)
    /\ (forall d, d ∈ out -> d ∈ retrieved)
    /\ (forall d, d ∈ retrieved ->
          Ensemble.fingerprint hash d ∈ map (Ensemble.fingerprint hash) out)
    /\ (length out <= length retrieved)%nat.
Proof.
  intros Hsort Hres retrieved.
  pose proof (accumulate_returns hash _ _ _ Hres ws Ensemble.acc0) as Hacc.
  set (a := Ensemble.fuse hash (combine results ws) Ensemble.acc0) in *.
  set (ranked := sorted_reverse sort_order (fun kv => Ensemble.score_of a (fst kv))
                                (Ensemble.all_docs a)).
  assert (Hperm : ranked ≡ₚ Ensemble.first_observed hash retrieved).
  { unfold ranked, a, retrieved.
    by rewrite sorted_reverse_perm, all_docs_fuse_first_observed. }
  exists (map snd ranked). split.
  { unfold Ensemble.invoke. cbn [Ensemble.retrievers Ensemble.weights].
    by rewrite Hacc. }
  rewrite (first_observed_fingerprints hash ranked retrieved Hperm).
  split; [|split; [|split]].
  - rewrite Hperm. apply first_observed_keys_NoDup.
  - intros d (kv & -> & Hkv)%list_elem_of_fmap. rewrite Hperm in Hkv.
    by apply first_observed_elem in Hkv as [_ ?].
  - intros d Hd. rewrite Hperm. by apply first_observed_complete.
  - rewrite length_map, Hperm. apply first_observed_length.
Qed.

Lemma fusion_output_deduplicated_witness :
  exists out : list Document,
    Ensemble.invoke Samples.sample_hash stable_order
      (Ensemble.mkEnsemble [Samples.retriever_abc; Samples.retriever_ca]
                           [Samples.half; Samples.half])
      (InputStr "q") = Returned out
    /\ NoDup (map (Ensemble.fingerprint Samples.sample_hash) out).
Proof.
  destruct (fusion_output_deduplicated Samples.sample_hash stable_order (InputStr "q")
              [Samples.retriever_abc; Samples.retriever_ca]
              [Samples.half; Samples.half]
              [[Samples.docA; Samples.docB; Samples.docC]; [Samples.docC; Samples.docA]])
    as (out & Hinv & Hnodup & _).
  - exact stable_order_permutes.
  - repeat constructor.
  - exists out. split; [exact Hinv | exact Hnodup].
Defined.

(** ** Fusion: rank scores and single-retriever fusion *)

Section RankScoreFacts.
Import Ensemble.

(** The quotient [(m - r) / m] of a rank below [m] is a positive double. *)
Lemma rank_quotient_finite (m r : nat) :
  (r < m)%nat -> Z.of_nat m < 2 ^ 63 ->
  exists (mq : positive) (eq : Z),
    Float.div_Z (Z.of_nat m - Z.of_nat r) (Z.of_nat m) = S754_finite false mq eq
    /\ Float.valid (S754_finite false mq eq) = true.
Proof.
  intros Hr Hm.
  destruct (Z.of_nat m - Z.of_nat r) as [|a|a] eqn:Ha; [lia| |lia].
  destruct (Z.of_nat m) as [|b|b] eqn:Hb; [lia| |lia].
  apply div_Z_finite; lia.
Qed.

Lemma rank_quotient_mono (m r r' : nat) :
  (r <= r')%nat -> (r' < m)%nat ->
  Float.leb (Float.div_Z (Z.of_nat m - Z.of_nat r') (Z.of_nat m))
            (Float.div_Z (Z.of_nat m - Z.of_nat r) (Z.of_nat m)) = true.
Proof.
  intros Hr Hm.
  destruct (Z.of_nat m - Z.of_nat r) as [|a|a] eqn:Ha; [lia| |lia].
  destruct (Z.of_nat m - Z.of_nat r') as [|a'|a'] eqn:Ha'; [lia| |lia].
  destruct (Z.of_nat m) as [|b|b] eqn:Hb; [lia| |lia].
  apply div_Z_mono. lia.
Qed.

Lemma contribution_mono (w : Float.float) (m r r' : nat) :
  Float.valid w = true -> Float.leb Float.zero w = true ->
  Z.of_nat m < 2 ^ 63 -> (r <= r')%nat -> (r' < m)%nat ->
  Float.leb (contribution w m r') (contribution w m r) = true.
Proof.
  intros Hv Hw Hm Hr Hr'. unfold contribution.
  pose proof (rank_quotient_mono m r r' Hr Hr') as Hq.
  destruct (rank_quotient_finite m r ltac:(lia) Hm) as (m1 & e1 & H1 & Hv1).
  destruct (rank_quotient_finite m r' Hr' Hm) as (m2 & e2 & H2 & Hv2).
  rewrite H1, H2 in *. by apply SFmul_mono.
Qed.

Lemma contribution_not_nan (w : Float.float) (m r : nat) :
  Float.valid w = true -> Float.leb Float.zero w = true ->
  Z.of_nat m < 2 ^ 63 -> (r < m)%nat ->
  Float.is_nan (contribution w m r) = false.
Proof.
  intros Hv Hw Hm Hr. unfold contribution.
  destruct (rank_quotient_finite m r Hr Hm) as (m1 & e1 & -> & Hv1).
  by apply float_is_nan_false, SFmul_not_nan.
Qed.

Lemma contribution_nonneg (w : Float.float) (m r : nat) :
  Float.valid w = true -> Float.leb Float.zero w = true ->
  Z.of_nat m < 2 ^ 63 -> (r < m)%nat ->
  Float.leb Float.zero (contribution w m r) = true.
Proof.
  intros Hv Hw Hm Hr. unfold contribution.
  destruct (rank_quotient_finite m r Hr Hm) as (m1 & e1 & -> & Hv1).
  by apply SFmul_nonneg.
Qed.

(** The first rank scores the weight itself: [m / m] is [1.0]. *)
Lemma contribution_first (w : Float.float) (m : nat) :
  Float.valid w = true -> Float.leb Float.zero w = true -> (0 < m)%nat ->
  contribution w m 0 = w.
Proof.
  intros Hv Hw Hm. unfold contribution, Float.div_Z.
  rewrite Z.sub_0_r.
  destruct (Z.of_nat m) as [|b|b] eqn:Hb; [lia| |lia].
  cbn [Float.exact_Z]. unfold Float.prec, Float.emax. rewrite div_Z_same.
  by apply SFmul_one.
Qed.

(** Adding a score to the [0.0] of the [defaultdict] keeps the order of
    the scores. *)
Lemma add_zero_leb (c1 c2 : Float.float) :
  Float.leb (Float.add Float.zero c1) (Float.add Float.zero c2) = Float.leb c1 c2.
Proof. by destruct c1 as [[]|[]| |[]], c2 as [[]|[]| |[]]. Qed.

Lemma add_zero_is_nan (c : Float.float) :
  Float.is_nan (Float.add Float.zero c) = Float.is_nan c.
Proof. by destruct c as [[]|[]| |[]]. Qed.
End RankScoreFacts.

(** X2. For a weight that is a non-negative double (infinity included, NaN
    excluded) and a result list of [m] documents, the score of every rank
    below [m] is not NaN and lies in [[0, weight]], rank 0 scores exactly
    the weight, and the score never increases as the rank grows. *)
Theorem rank_score_bounds (m r : nat) (w : Float.float) :
  (r < m)%nat -> Z.of_nat m < 2 ^ 63 ->
  Float.valid w = true -> Float.leb Float.zero w = true ->
  Float.is_nan (Ensemble.rank_score m r w) = false
  /\ Float.leb Float.zero (Ensemble.rank_score m r w) = true
  /\ Float.leb (Ensemble.rank_score m r w) w = true
  /\ Ensemble.rank_score m 0 w = w
  /\ forall r' : nat,
       (r <= r')%nat -> (r' < m)%nat ->
       Float.leb (Ensemble.rank_score m r' w) (Ensemble.rank_score m r w) = true.
Proof.
  intros Hr Hm Hv Hw. rewrite !rank_score_contribution.
  split; [by apply contribution_not_nan|].
  split; [by apply contribution_nonneg|].
  split; [|split].
  - rewrite <- (contribution_first w m) at 2 by (done || lia).
    apply contribution_mono; (done || lia).
  - apply contribution_first; (done || lia).
  - intros r' Hle Hr'. rewrite !rank_score_contribution.
    by apply contribution_mono.
Qed.

Lemma rank_score_bounds_witness :
  Float.leb Float.zero (Ensemble.rank_score 3 1 Float.half) = true
  /\ Float.leb (Ensemble.rank_score 3 1 Float.half) Float.half = true
  /\ Float.leb (Ensemble.rank_score 3 2 Float.half)
               (Ensemble.rank_score 3 1 Float.half) = true.
Proof.
  destruct (rank_score_bounds 3 1 Float.half) as (_ & Hpos & Hle & _ & Hmono);
    [lia | reflexivity | reflexivity | reflexivity |].
  split; [exact Hpos|]. split; [exact Hle|]. apply Hmono; lia.
Defined.

(** The bounds of X2 are attained: with the smallest positive double as
    weight the ranks 0 and 1 of three score the same and rank 2 scores
    [0.0]; with an infinite weight every rank scores infinity. *)
Lemma rank_score_not_strict :
  let tiny : Float.float := S754_finite false 1 (-1074) in
  let inf : Float.float := S754_infinity false in
  Ensemble.rank_score 3 0 tiny = tiny
  /\ Ensemble.rank_score 3 1 tiny = tiny
  /\ Ensemble.rank_score 3 2 tiny = Float.zero
  /\ Ensemble.rank_score 3 0 inf = inf
  /\ Ensemble.rank_score 3 2 inf = inf.
Proof. by vm_compute. Qed.

Section SingleRetrieverFacts.
Import Ensemble.
Variable hash : string -> Z.

Lemma first_observed_of_distinct (docs : list Document) :
  NoDup (map (fingerprint hash) docs) ->
  first_observed hash docs = map (fun d => (fingerprint hash d, d)) docs.
Proof.
  induction docs as [|doc docs IH]; [done|]. simpl.
  intros [Hdoc Hdocs]%NoDup_cons. rewrite IH by done. f_equal.
  apply forallb_filter_id, forallb_forall. intros kv Hkv.
  apply in_map_iff in Hkv as (d & <- & Hd). simpl.
  apply negb_true_iff, Z.eqb_neq. intros Heq. apply Hdoc.
  rewrite <- Heq. apply list_elem_of_fmap. exists d.
  split; [done | by apply list_elem_of_In].
Qed.

(** In a list without repeated fingerprints, a document's fingerprint
    receives the contribution of the document's own rank and no other. *)
Lemma ranked_contributions_unique (w : Float.float) (m : nat) (docs : list Document) :
  forall (n r : nat) (d : Document),
    NoDup (map (fingerprint hash) docs) ->
    (r, d) ∈ enumerate_from n docs ->
    ranked_contributions hash (fingerprint hash d) w m (enumerate_from n docs)
    = [contribution w m r].
Proof.
  induction docs as [|doc docs IH]; intros n r d Hnd Hin;
    [by apply elem_of_nil in Hin|].
  cbn [map] in Hnd. apply NoDup_cons in Hnd as [Hdoc Hnd].
  cbn [enumerate_from ranked_contributions] in *.
  apply elem_of_cons in Hin as [[= -> ->]|Hin].
  - by rewrite Z.eqb_refl, ranked_contributions_absent.
  - rewrite (IH (S n) r d) by done.
    rewrite (proj2 (Z.eqb_neq _ _)); [done|].
    intros Heq. apply Hdoc. rewrite Heq. apply list_elem_of_fmap.
    exists d. split; [done|]. by apply (elem_of_enumerate_from (r, d) docs (S n)).
Qed.

(** Keys that are the scores of the ranks, in rank order, are in
    descending order and none is NaN. *)
Lemma ranked_keys_sorted (key : Z * Document -> Float.float) (w : Float.float)
    (m : nat) (docs : list Document) :
  Float.valid w = true -> Float.leb Float.zero w = true -> Z.of_nat m < 2 ^ 63 ->
  forall n : nat,
    (n + length docs <= m)%nat ->
    (forall r d, (r, d) ∈ enumerate_from n docs ->
                 key (fingerprint hash d, d)
                 = Float.add Float.zero (contribution w m r)) ->
    Sorted (fdesc key) (map (fun d => (fingerprint hash d, d)) docs)
    /\ Forall (fun kv => Float.is_nan (key kv) = false)
              (map (fun d => (fingerprint hash d, d)) docs).
Proof.
  intros Hv Hw Hm. induction docs as [|doc docs IH]; intros n Hlen Hkey;
    [by split; constructor|].
  cbn [length] in Hlen.
  destruct (IH (S n)) as [Hsorted Hnan]; [lia| |].
  { intros r d Hin. apply Hkey. simpl. by apply list_elem_of_further. }
  split; cbn [map]; constructor; try done.
  - destruct docs as [|doc' docs]; constructor. unfold fdesc.
    rewrite (Hkey n doc) by apply list_elem_of_here.
    rewrite (Hkey (S n) doc')
      by (simpl; apply list_elem_of_further, list_elem_of_here).
    rewrite add_zero_leb. cbn [length] in Hlen.
    apply contribution_mono; (done || lia).
  - rewrite (Hkey n doc) by apply list_elem_of_here.
    rewrite add_zero_is_nan. apply contribution_not_nan; (done || lia).
Qed.
End SingleRetrieverFacts.

(** X3. Fusing a single retriever with a non-negative weight changes
    nothing: when no two of its documents share a fingerprint, [invoke]
    returns the retriever's documents in the retriever's own order. The
    weight is any double from [0.0] to infinity; the list has a length a
    Python list can have. *)
Theorem fusion_single_retriever_keeps_order (hash : string -> Z)
    (sort_order : list Float.float -> list nat) (i : input)
    (r : retriever) (w : Float.float) (docs : list Document) :
  python_sort sort_order ->
  Float.valid w = true -> Float.leb Float.zero w = true ->
  Z.of_nat (length docs) < 2 ^ 63 ->
  NoDup (map (Ensemble.fingerprint hash) docs) ->
  r (query_of_input i) = Returned docs ->
  Ensemble.invoke hash sort_order (Ensemble.mkEnsemble [r] [w]) i = Returned docs.
Proof.
  intros Hsort Hv Hw Hlen Hnd Hr.
  rewrite (invoke_returns hash sort_order i [r] [w] [docs])
    by (by repeat constructor).
  f_equal. cbn [combine map fst concat].
  rewrite app_nil_r, first_observed_of_distinct by done.
  destruct (ranked_keys_sorted hash
              (fun kv => Ensemble.score_of
                           (Ensemble.fuse hash [(docs, w)] Ensemble.acc0) (fst kv))
              w (length docs) docs Hv Hw Hlen 0%nat ltac:(lia))
    as [Hsorted Hnan].
  { intros rk d Hin. cbn [fst]. rewrite score_of_fuse.
    cbn [Ensemble.contributions]. rewrite app_nil_r.
    unfold enumerate. by rewrite (ranked_contributions_unique hash w _ docs 0%nat rk d). }
  rewrite sorted_reverse_stable, stable_desc_of_sorted by done.
  rewrite map_map. cbn [snd]. apply map_id.
Qed.

Lemma fusion_single_retriever_keeps_order_witness :
  Ensemble.invoke Samples.sample_hash stable_order
    (Ensemble.mkEnsemble [Samples.retriever_abc] [Samples.half]) (InputStr "q")
  = Returned [Samples.docA; Samples.docB; Samples.docC].
Proof.
  apply (fusion_single_retriever_keeps_order Samples.sample_hash stable_order
           (InputStr "q") Samples.retriever_abc Samples.half).
  - exact stable_order_python_sort.
  - reflexivity.
  - reflexivity.
  - reflexivity.
  - vm_compute. repeat constructor; set_solver.
  - reflexivity.
Defined.

(** ** The parent store: set, get, delete *)

Section StoreFacts.

Lemma mset_lookup_other (kvs : list (string * Document)) :
  forall (store : gmap string Document) (key : string),
    key ∉ map fst kvs -> InMemoryStore.mset store kvs !! key = store !! key.
Proof.
  unfold InMemoryStore.mset.
  induction kvs as [|[k v] kvs IH]; intros store key Hkey; [done|].
  simpl in *. apply not_elem_of_cons in Hkey as [Hne Hkey].
  rewrite IH by done. by rewrite lookup_insert_ne.
Qed.

Lemma mset_app (store : gmap string Document) (kvs kvs' : list (string * Document)) :
  InMemoryStore.mset store (kvs ++ kvs')
  = InMemoryStore.mset (InMemoryStore.mset store kvs) kvs'.
Proof. unfold InMemoryStore.mset. apply fold_left_app. Qed.

(** The last pair written for a key is the one that is read back. *)
Lemma mset_lookup_last (store : gmap string Document)
    (kvs kvs' : list (string * Document)) (key : string) (value : Document) :
  key ∉ map fst kvs' ->
  InMemoryStore.mset store (kvs ++ (key, value) :: kvs') !! key = Some value.
Proof.
  intros Hkey. rewrite mset_app. change ((key, value) :: kvs') with ([(key, value)] ++ kvs').
  rewrite mset_app, mset_lookup_other by done.
  unfold InMemoryStore.mset at 1. simpl. apply lookup_insert_eq.
Qed.

Lemma mdelete_lookup (keys : list string) :
  forall (store : gmap string Document) (key : string),
    InMemoryStore.mdelete store keys !! key
    = if decide (key ∈ keys) then None else store !! key.
Proof.
  unfold InMemoryStore.mdelete.
  induction keys as [|k keys IH]; intros store key.
  - case_decide as Hin; [by apply elem_of_nil in Hin | done].
  - cbn [fold_left]. rewrite IH.
    destruct (decide (key ∈ keys)) as [Hin|Hnin].
    + case_decide as Hin'; [done|]. destruct Hin'. by apply list_elem_of_further.
    + destruct (decide (k = key)) as [->|Hne].
      * rewrite lookup_delete_eq. case_decide as Hin'; [done|].
        destruct Hin'. apply list_elem_of_here.
      * rewrite lookup_delete_ne by done.
        case_decide as Hin'; [|done].
        by apply elem_of_cons in Hin' as [?|?].
Qed.
End StoreFacts.

(** X4. Round trip of [mset] and [mget]: after pairs with distinct keys are
    set, getting those keys returns their values in order; in general the
    last value written for a key is the one read back, and a key that was
    not written keeps what the store held (nothing, for a missing key:
    [mget] yields [None], it does not fail). *)
Theorem mset_mget_round_trip (store : gmap string Document)
    (key_value_pairs : list (string * Document)) :
  (NoDup (map fst key_value_pairs) ->
   InMemoryStore.mget (InMemoryStore.mset store key_value_pairs)
     (map fst key_value_pairs)
   = map (fun kv => Some (snd kv)) key_value_pairs)
  /\ (forall (before after : list (string * Document)) (key : string) (value : Document),
        key_value_pairs = before ++ (key, value) :: after ->
        key ∉ map fst after ->
        InMemoryStore.mget (InMemoryStore.mset store key_value_pairs) [key]
        = [Some value])
  /\ (forall key : string,
        key ∉ map fst key_value_pairs ->
        InMemoryStore.mget (InMemoryStore.mset store key_value_pairs) [key]
        = [store !! key]).
Proof.
  split; [|split].
  - intros Hnd. unfold InMemoryStore.mget. rewrite map_map.
    apply map_ext_in. intros [k v] Hin. simpl.
    apply in_split in Hin as (before & after & ->).
    apply mset_lookup_last.
    rewrite map_app in Hnd. apply NoDup_app in Hnd as (_ & _ & Hnd).
    simpl in Hnd. by apply NoDup_cons in Hnd as [? _].
  - intros before after key value -> Hkey. unfold InMemoryStore.mget. simpl.
    by rewrite mset_lookup_last.
  - intros key Hkey. unfold InMemoryStore.mget. simpl.
    by rewrite mset_lookup_other.
Qed.

Lemma mset_mget_round_trip_witness :
  InMemoryStore.mget
    (InMemoryStore.mset ∅ [("a", Samples.docA); ("b", Samples.docB)]) ["a"; "b"]
  = [Some Samples.docA; Some Samples.docB].
Proof.
  apply (proj1 (mset_mget_round_trip ∅ [("a", Samples.docA); ("b", Samples.docB)])).
  repeat constructor; set_solver.
Defined.

(** X5. [mdelete] removes exactly the given keys: getting a deleted key
    yields [None], every other key keeps its document, and deleting keys
    that are not in the store changes nothing (no error is raised). *)
Theorem mdelete_removes_keys (store : gmap string Document) (keys : list string) :
  InMemoryStore.mget (InMemoryStore.mdelete store keys) keys = map (fun _ => None) keys
  /\ (forall key : string,
        key ∉ keys ->
        InMemoryStore.mdelete store keys !! key = store !! key)
  /\ ((forall key : string, key ∈ keys -> store !! key = None) ->
      InMemoryStore.mdelete store keys = store).
Proof.
  split; [|split].
  - unfold InMemoryStore.mget. apply map_ext_in. intros key Hin.
    rewrite mdelete_lookup, decide_True; [done | by apply list_elem_of_In].
  - intros key Hkey. by rewrite mdelete_lookup, decide_False.
  - intros Habsent. apply map_eq. intros key. rewrite mdelete_lookup.
    destruct (decide (key ∈ keys)); [by rewrite Habsent | done].
Qed.

Lemma mdelete_removes_keys_witness :
  InMemoryStore.mdelete {["a" := Samples.docA]} ["b"] !! "a" = Some Samples.docA.
Proof.
  rewrite (proj1 (proj2 (mdelete_removes_keys {["a" := Samples.docA]} ["b"])) "a").
  - reflexivity.
  - set_solver.
Defined.

(** ** The parent store: the order of its keys *)

Section OrderedStoreFacts.
Import OrderedStore.

Lemma get_contents (store : list (string * Document)) (key : string) :
  get store key = contents store !! key.
Proof.
  unfold contents. induction store as [|[k v] store IH]; [done|]. simpl.
  destruct (String.eqb_spec k key) as [->|Hne].
  - by rewrite lookup_insert_eq.
  - by rewrite lookup_insert_ne.
Qed.

Lemma contents_assign (store : list (string * Document)) (key : string) (value : Document) :
  contents (assign store key value) = <[key := value]> (contents store).
Proof.
  unfold contents. induction store as [|[k v] store IH]; [done|]. simpl.
  destruct (String.eqb_spec k key) as [->|Hne]; simpl.
  - by rewrite insert_insert_eq.
  - rewrite IH. by apply insert_insert_ne.
Qed.

Lemma keys_assign (store : list (string * Document)) (key : string) (value : Document) :
  map fst (assign store key value)
  = if bool_decide (key ∈ map fst store) then map fst store
    else map fst store ++ [key].
Proof.
  induction store as [|[k v] store IH]; [done|]. simpl.
  destruct (String.eqb_spec k key) as [->|Hne]; simpl.
  - rewrite bool_decide_eq_true_2; [done | apply list_elem_of_here].
  - rewrite IH. destruct (bool_decide_reflect (key ∈ map fst store)) as [Hin|Hnin].
    + rewrite bool_decide_eq_true_2; [done | by apply list_elem_of_further].
    + rewrite bool_decide_eq_false_2; [done|]. by intros [?|?]%elem_of_cons.
Qed.

Lemma keys_pop (store : list (string * Document)) (key : string) :
  well_formed store ->
  map fst (pop store key)
  = List.filter (fun k => negb (String.eqb k key)) (map fst store).
Proof.
  unfold well_formed. induction store as [|[k v] store IH]; [done|]. simpl.
  intros [Hk Hnd]%NoDup_cons.
  destruct (String.eqb_spec k key) as [->|Hne]; simpl.
  - symmetry. apply forallb_filter_id, forallb_forall. intros k' Hk'.
    apply negb_true_iff, String.eqb_neq. intros ->. by apply Hk, list_elem_of_In.
  - by rewrite IH.
Qed.

Lemma well_formed_assign (store : list (string * Document)) (key : string) (value : Document) :
  well_formed store -> well_formed (assign store key value).
Proof.
  unfold well_formed. rewrite keys_assign. intros Hnd.
  destruct (bool_decide_reflect (key ∈ map fst store)) as [Hin|Hnin]; [done|].
  apply NoDup_app. split; [done|]. split; [|apply NoDup_singleton].
  intros k Hk ->%list_elem_of_singleton. done.
Qed.

Lemma well_formed_pop (store : list (string * Document)) (key : string) :
  well_formed store -> well_formed (pop store key).
Proof.
  intros Hwf. unfold well_formed. rewrite keys_pop by done.
  apply NoDup_ListNoDup, List.NoDup_filter. by apply NoDup_ListNoDup.
Qed.

Lemma well_formed_mset (kvs : list (string * Document)) :
  forall store, well_formed store -> well_formed (mset store kvs).
Proof.
  unfold mset. induction kvs as [|[k v] kvs IH]; intros store Hwf; [done|].
  simpl. by apply IH, well_formed_assign.
Qed.

Lemma well_formed_mdelete (keys : list string) :
  forall store, well_formed store -> well_formed (mdelete store keys).
Proof.
  unfold mdelete. induction keys as [|k keys IH]; intros store Hwf; [done|].
  simpl. by apply IH, well_formed_pop.
Qed.

(** Adding keys one by one: the keys already present keep their place, the
    new ones follow in the order of their first occurrence. *)
Lemma add_keys_distinct (keys : list string) :
  forall present : list string,
    fold_left (fun l k => if bool_decide (k ∈ l) then l else l ++ [k]) keys present
    = present
      ++ List.filter (fun k => negb (bool_decide (k ∈ present))) (distinct keys).
Proof.
  induction keys as [|k keys IH]; intros present; simpl.
  - by rewrite app_nil_r.
  - rewrite IH. destruct (bool_decide_reflect (k ∈ present)) as [Hin|Hnin]; simpl.
    + f_equal. rewrite filter_filter_andb. apply filter_ext. intros k'.
      destruct (String.eqb_spec k k') as [<-|Hne]; simpl; [|done].
      by rewrite bool_decide_eq_true_2.
    + rewrite <- app_assoc. simpl. do 2 f_equal.
      rewrite filter_filter_andb. apply filter_ext. intros k'.
      destruct (String.eqb_spec k k') as [<-|Hne]; simpl.
      * rewrite bool_decide_eq_true_2; [done|].
        apply elem_of_app. right. apply list_elem_of_here.
      * destruct (bool_decide_reflect (k' ∈ present)) as [Hin'|Hnin'].
        -- rewrite bool_decide_eq_true_2; [done|]. apply elem_of_app. by left.
        -- rewrite bool_decide_eq_false_2; [done|].
           intros [?|Hk%list_elem_of_singleton]%elem_of_app; [done | congruence].
Qed.

Lemma keys_mset (kvs : list (string * Document)) :
  forall store,
    map fst (mset store kvs)
    = fold_left (fun l k => if bool_decide (k ∈ l) then l else l ++ [k])
                (map fst kvs) (map fst store).
Proof.
  unfold mset. induction kvs as [|[k v] kvs IH]; intros store; [done|].
  simpl. by rewrite IH, keys_assign.
Qed.

Lemma keys_mdelete (keys : list string) :
  forall store,
    well_formed store ->
    map fst (mdelete store keys)
    = List.filter (fun k => negb (bool_decide (k ∈ keys))) (map fst store).
Proof.
  unfold mdelete. induction keys as [|key keys IH]; intros store Hwf; simpl.
  - symmetry. by apply forallb_filter_id, forallb_forall.
  - rewrite IH by (by apply well_formed_pop). rewrite keys_pop by done.
    rewrite filter_filter_andb. apply filter_ext. intros k.
    destruct (String.eqb_spec k key) as [->|Hne]; simpl.
    + rewrite bool_decide_eq_true_2; [done | apply list_elem_of_here].
    + destruct (bool_decide_reflect (k ∈ keys)) as [Hin|Hnin].
      * rewrite bool_decide_eq_true_2; [done | by apply list_elem_of_further].
      * rewrite bool_decide_eq_false_2; [done|]. by intros [?|?]%elem_of_cons.
Qed.

(** The ordered store and the finite map agree on every lookup. *)
Lemma contents_mset (kvs : list (string * Document)) :
  forall store, contents (mset store kvs) = InMemoryStore.mset (contents store) kvs.
Proof.
  unfold mset, InMemoryStore.mset.
  induction kvs as [|[k v] kvs IH]; intros store; [done|].
  simpl. by rewrite IH, contents_assign.
Qed.

Lemma mget_contents (store : list (string * Document)) (keys : list string) :
  mget store keys = InMemoryStore.mget (contents store) keys.
Proof.
  unfold mget, InMemoryStore.mget. apply map_ext. intros key. apply get_contents.
Qed.
End OrderedStoreFacts.

Lemma elem_of_keys_get (store : list (string * Document)) (key : string) :
  key ∈ map fst store <-> is_Some (OrderedStore.get store key).
Proof.
  induction store as [|[k v] store IH]; simpl.
  - split; [by intros ?%elem_of_nil | by intros [? ?]].
  - destruct (String.eqb_spec k key) as [->|Hne].
    + split; [eauto | intros _; apply list_elem_of_here].
    + rewrite elem_of_cons, IH. split; [by intros [?|?] | by right].
Qed.

Lemma filter_sublist {A : Type} (f : A -> bool) (l : list A) :
  List.filter f l `sublist_of` l.
Proof.
  induction l as [|x l IH]; simpl; [constructor|].
  destruct (f x); by constructor.
Qed.

(** X6. [yield_keys] lists the keys in the order of their first insertion:
    after [mset], the keys already in the store keep their places (also the
    ones whose document was overwritten) and the new keys follow, each once,
    in the order in which they were first set. A store filled from empty
    yields the distinct keys of the pairs in first-occurrence order. *)
Theorem yield_keys_insertion_order (store : list (string * Document))
    (key_value_pairs : list (string * Document)) :
  OrderedStore.well_formed store ->
  OrderedStore.well_formed (OrderedStore.mset store key_value_pairs)
  /\ OrderedStore.yield_keys (OrderedStore.mset store key_value_pairs) None
     = OrderedStore.yield_keys store None
       ++ List.filter
            (fun k => negb (bool_decide (k ∈ OrderedStore.yield_keys store None)))
            (distinct (map fst key_value_pairs))
  /\ OrderedStore.yield_keys (OrderedStore.mset [] key_value_pairs) None
     = distinct (map fst key_value_pairs).
Proof.
  intros Hwf. split; [by apply well_formed_mset|]. split.
  - unfold OrderedStore.yield_keys. by rewrite keys_mset, add_keys_distinct.
  - unfold OrderedStore.yield_keys. rewrite keys_mset, add_keys_distinct. simpl.
    by apply forallb_filter_id, forallb_forall.
Qed.

Lemma yield_keys_insertion_order_witness :
  OrderedStore.yield_keys
    (OrderedStore.mset [("b", Samples.docB)]
       [("a", Samples.docA); ("b", Samples.docC); ("a", Samples.docB)]) None
  = ["b"; "a"].
Proof.
  rewrite (proj1 (proj2 (yield_keys_insertion_order [("b", Samples.docB)]
             [("a", Samples.docA); ("b", Samples.docC); ("a", Samples.docB)]
             ltac:(repeat constructor; set_solver)))).
  reflexivity.
Defined.

(** X7. [yield_keys] with a prefix returns, in store order and without
    repetition, exactly the stored keys that start with the prefix; the
    empty prefix, like no prefix, returns every key. *)
Theorem yield_keys_prefix_filter (store : list (string * Document))
    (prefix : option string) :
  OrderedStore.well_formed store ->
  NoDup (OrderedStore.yield_keys store prefix)
  /\ (forall key : string,
        key ∈ OrderedStore.yield_keys store prefix
        <-> is_Some (OrderedStore.get store key)
            /\ forall p, prefix = Some p -> String.prefix p key = true)
  /\ OrderedStore.yield_keys store prefix `sublist_of` OrderedStore.yield_keys store None
  /\ OrderedStore.yield_keys store (Some "") = OrderedStore.yield_keys store None.
Proof.
  intros Hwf. unfold OrderedStore.well_formed in Hwf.
  split; [|split; [|split; [|done]]].
  - destruct prefix as [p|]; [|done]. unfold OrderedStore.yield_keys.
    destruct (String.eqb p ""); [done|].
    apply NoDup_ListNoDup, List.NoDup_filter. by apply NoDup_ListNoDup.
  - intros key. rewrite <- elem_of_keys_get. unfold OrderedStore.yield_keys.
    destruct prefix as [p|].
    + destruct (String.eqb_spec p "") as [->|Hne].
      * split; [|by intros [? _]]. intros Hin. split; [done|].
        intros p [= <-]. by destruct key.
      * rewrite list_elem_of_In, filter_In, <- list_elem_of_In. split.
        -- intros [Hin Hp]. split; [done|]. by intros p' [= <-].
        -- intros [Hin Hp]. split; [done|]. by apply Hp.
    + split; [|by intros [? _]]. intros Hin. split; [done|]. by intros p [=].
  - unfold OrderedStore.yield_keys. destruct prefix as [p|]; [|done].
    destruct (String.eqb p ""); [done|]. apply filter_sublist.
Qed.

Lemma yield_keys_prefix_filter_witness :
  NoDup (OrderedStore.yield_keys
           [("parent_1", Samples.docA); ("child_1", Samples.docB)] (Some "parent_")).
Proof.
  apply (yield_keys_prefix_filter
           [("parent_1", Samples.docA); ("child_1", Samples.docB)] (Some "parent_")).
  unfold OrderedStore.well_formed. repeat constructor; set_solver.
Defined.

(** X8. [mdelete] removes the given keys from the ordered store and keeps
    the remaining keys in their order; getting the deleted keys afterwards
    yields [None] for each of them. *)
Theorem mdelete_keeps_key_order (store : list (string * Document))
    (keys : list string) :
  OrderedStore.well_formed store ->
  OrderedStore.well_formed (OrderedStore.mdelete store keys)
  /\ OrderedStore.yield_keys (OrderedStore.mdelete store keys) None
     = List.filter (fun k => negb (bool_decide (k ∈ keys)))
                   (OrderedStore.yield_keys store None)
  /\ OrderedStore.mget (OrderedStore.mdelete store keys) keys
     = map (fun _ => None) keys.
Proof.
  intros Hwf. split; [by apply well_formed_mdelete|]. split.
  - unfold OrderedStore.yield_keys. by apply keys_mdelete.
  - unfold OrderedStore.mget. apply map_ext_in. intros key Hkey.
    destruct (OrderedStore.get (OrderedStore.mdelete store keys) key) as [d|] eqn:Hget;
      [|done].
    assert (Hin : key ∈ map fst (OrderedStore.mdelete store keys)).
    { apply elem_of_keys_get. rewrite Hget. eauto. }
    rewrite keys_mdelete in Hin by done.
    apply list_elem_of_In, filter_In in Hin as [_ Hnot].
    rewrite bool_decide_eq_true_2 in Hnot; [done | by apply list_elem_of_In].
Qed.

Lemma mdelete_keeps_key_order_witness :
  OrderedStore.yield_keys
    (OrderedStore.mdelete
       [("a", Samples.docA); ("b", Samples.docB); ("c", Samples.docC)] ["b"]) None
  = ["a"; "c"].
Proof.
  rewrite (proj1 (proj2 (mdelete_keeps_key_order
             [("a", Samples.docA); ("b", Samples.docB); ("c", Samples.docC)] ["b"]
             ltac:(unfold OrderedStore.well_formed; repeat constructor; set_solver)))).
  reflexivity.
Defined.

(** ** Ingestion and retrieval in the chunk hierarchy *)

Section HierarchyInvariants.
Import ParentDocumentRetriever.
Variable hash : string -> Z.

Lemma add_parents_fields (parent_docs : list Document) :
  forall self : t,
    child_splitter (fold_left (add_parent hash) parent_docs self) = child_splitter self
    /\ parent_splitter (fold_left (add_parent hash) parent_docs self)
       = parent_splitter self
    /\ k (fold_left (add_parent hash) parent_docs self) = k self.
Proof.
  induction parent_docs as [|p ps IH]; intros self; [done|].
  simpl. by destruct (IH (add_parent hash self p)) as (-> & -> & ->).
Qed.

Lemma insert_parents_keeps (parent_docs : list Document) :
  forall (store : gmap string Document) (key : string),
    is_Some (store !! key) ->
    is_Some (fold_left (fun s p => <[parent_id_of hash p := p]> s) parent_docs store
             !! key).
Proof.
  induction parent_docs as [|p ps IH]; intros store key Hkey; [done|].
  simpl. apply IH. rewrite lookup_insert. case_decide; eauto.
Qed.

Lemma insert_parents_union (parent_docs : list Document) :
  forall store : gmap string Document,
    fold_left (fun s p => <[parent_id_of hash p := p]> s) parent_docs store
    = fold_left (fun s p => <[parent_id_of hash p := p]> s) parent_docs ∅ ∪ store.
Proof.
  induction parent_docs as [|p ps IH]; intros store; simpl.
  - by rewrite (left_id_L ∅ (∪)).
  - rewrite (IH (<[_ := _]> store)), (IH (<[_ := _]> ∅)).
    rewrite <- (assoc_L (∪)). f_equal.
    by rewrite <- !insert_union_l, (left_id_L ∅ (∪)).
Qed.

Lemma insert_parents_twice (parent_docs : list Document) (store : gmap string Document) :
  let stored := fold_left (fun s p => <[parent_id_of hash p := p]> s) parent_docs store in
  fold_left (fun s p => <[parent_id_of hash p := p]> s) parent_docs stored = stored.
Proof.
  cbn zeta. rewrite (insert_parents_union _ (fold_left _ _ store)).
  rewrite (insert_parents_union _ store).
  by rewrite (assoc_L (∪)), (idemp_L (∪)).
Qed.

Lemma parent_id_of_nonempty (parent_doc : Document) : parent_id_of hash parent_doc <> "".
Proof. done. Qed.

Lemma child_docs_of_parent_id (self : t) (parent_doc child : Document) :
  child ∈ child_docs_of hash self parent_doc ->
  metadata child !! "parent_id" = Some (parent_id_of hash parent_doc).
Proof.
  unfold child_docs_of. intros (c & -> & _)%list_elem_of_fmap.
  unfold set_parent_id. simpl. apply lookup_insert_eq.
Qed.

Lemma omap_lookup_all_resolved (store : gmap string Document) (ids : list string) :
  Forall (fun i => is_Some (store !! i)) ids ->
  length (omap (fun i => store !! i) ids) = length ids.
Proof.
  induction 1 as [|i ids [p Hp] _ IH]; csimpl; [done|].
  rewrite Hp. simpl. by rewrite IH.
Qed.
End HierarchyInvariants.

(** The invariants of the store and the index are kept by ingestion. *)
Lemma add_documents_invariants (hash : string -> Z)
    (self self' : ParentDocumentRetriever.t) (documents : list Document) :
  ParentDocumentRetriever.keyed_by_content hash (ParentDocumentRetriever.docstore self) ->
  index_consistent self ->
  ParentDocumentRetriever.add_documents hash self documents = Returned self' ->
  ParentDocumentRetriever.keyed_by_content hash (ParentDocumentRetriever.docstore self')
  /\ index_consistent self'
  /\ ParentDocumentRetriever.child_splitter self'
     = ParentDocumentRetriever.child_splitter self
  /\ ParentDocumentRetriever.parent_splitter self'
     = ParentDocumentRetriever.parent_splitter self
  /\ ParentDocumentRetriever.k self' = ParentDocumentRetriever.k self.
Proof.
  intros Hkeyed Hcons [= <-].
  set (parents := ParentDocumentRetriever.parent_splitter self documents).
  split; [|split; [|apply add_parents_fields]].
  - rewrite add_parent_docstore. by apply insert_parents_keyed.
  - intros child. rewrite add_parent_vectorstore, add_parent_docstore.
    intros [Hold|Hnew]%elem_of_app.
    + destruct (Hcons child Hold) as (pid & Hmeta & Hne & Hstored).
      exists pid. split; [done|]. split; [done|]. by apply insert_parents_keeps.
    + apply list_elem_of_In, in_concat in Hnew as (cs & Hcs & Hchild).
      apply in_map_iff in Hcs as (p & <- & Hp).
      exists (ParentDocumentRetriever.parent_id_of hash p).
      split; [|split].
      * eapply child_docs_of_parent_id. by apply list_elem_of_In.
      * apply parent_id_of_nonempty.
      * apply insert_parents_stored. left. by apply list_elem_of_In.
Qed.

(** X9. [add_documents] keeps the store invariants: if every key of the
    parent map is the id derived from its parent's content and every indexed
    child carries the id of a stored parent, the same holds after ingesting
    any documents; the splitters and [k] are unchanged. *)
Theorem add_documents_keeps_invariants (hash : string -> Z)
    (self self' : ParentDocumentRetriever.t) (documents : list Document) :
  ParentDocumentRetriever.keyed_by_content hash (ParentDocumentRetriever.docstore self) ->
  index_consistent self ->
  ParentDocumentRetriever.add_documents hash self documents = Returned self' ->
  ParentDocumentRetriever.keyed_by_content hash (ParentDocumentRetriever.docstore self')
  /\ index_consistent self'
  /\ ParentDocumentRetriever.child_splitter self'
     = ParentDocumentRetriever.child_splitter self
  /\ ParentDocumentRetriever.parent_splitter self'
     = ParentDocumentRetriever.parent_splitter self
  /\ ParentDocumentRetriever.k self' = ParentDocumentRetriever.k self.
Proof. apply add_documents_invariants. Qed.

Lemma add_documents_keeps_invariants_witness :
  exists self' : ParentDocumentRetriever.t,
    ParentDocumentRetriever.add_documents Samples.sample_hash Samples.empty_retriever
      [Samples.docA; Samples.docB] = Returned self'
    /\ index_consistent self'.
Proof.
  eexists. split; [reflexivity|].
  apply (add_documents_keeps_invariants Samples.sample_hash Samples.empty_retriever _
           [Samples.docA; Samples.docB]).
  - intros pid p Hp. simpl in Hp. by rewrite lookup_empty in Hp.
  - intros child Hchild. by apply elem_of_nil in Hchild.
  - reflexivity.
Defined.

(** X10. On a consistent index nothing is filtered: when the search returns
    indexed children only, [invoke] returns one parent for every distinct
    [parent_id] among the matched children, and the parent of every matched
    child is among the returned parents. *)
Theorem retrieve_resolves_every_child
    (similarity_search : list Document -> string -> Z -> list Document)
    (set_list : list string -> list string)
    (self : ParentDocumentRetriever.t) (i : input) :
  (forall l : list string, set_list l ≡ₚ distinct l) ->
  index_consistent self ->
  let child_docs :=
    similarity_search (ParentDocumentRetriever.vectorstore self) (query_of_input i)
                      (ParentDocumentRetriever.k self) in
  (forall child, child ∈ child_docs -> child ∈ ParentDocumentRetriever.vectorstore self) ->
  exists parents : list Document,
    ParentDocumentRetriever.invoke similarity_search set_list self i = Returned parents
    /\ length parents
       = length (distinct (ParentDocumentRetriever.added_parent_ids child_docs))
    /\ forall child, child ∈ child_docs ->
         exists (parent_id : string) (parent : Document),
           metadata child !! "parent_id" = Some parent_id
           /\ ParentDocumentRetriever.docstore self !! parent_id = Some parent
           /\ parent ∈ parents.
Proof.
  intros Hset Hcons child_docs Hindexed.
  set (added := ParentDocumentRetriever.added_parent_ids child_docs).
  set (store := ParentDocumentRetriever.docstore self).
  exists (omap (fun pid => store !! pid) (set_list added)).
  split; [apply invoke_eq|]. split.
  - rewrite <- (Permutation_length (Hset added)).
    apply omap_lookup_all_resolved, Forall_forall. intros pid Hpid.
    rewrite (Hset added) in Hpid.
    apply elem_of_distinct, elem_of_added_parent_ids in Hpid
      as (_ & child & Hchild & Hmeta).
    destruct (Hcons child (Hindexed child Hchild)) as (pid' & Hmeta' & _ & Hstored).
    assert (pid' = pid) as -> by congruence. exact Hstored.
  - intros child Hchild.
    destruct (Hcons child (Hindexed child Hchild)) as (pid & Hmeta & Hne & [p Hp]).
    exists pid, p. split; [done|]. split; [done|].
    apply list_elem_of_omap. exists pid. split; [|done].
    rewrite (Hset added). apply elem_of_distinct, elem_of_added_parent_ids. eauto.
Qed.

Lemma retrieve_resolves_every_child_witness :
  exists parents : list Document,
    ParentDocumentRetriever.invoke Samples.first_k Samples.slot_order
      (ParentDocumentRetriever.mk
         [ParentDocumentRetriever.set_parent_id "parent_282" Samples.docA]
         {["parent_282" := Samples.docA]}
         Samples.split_whole Samples.split_whole 4)
      (InputStr "q") = Returned parents
    /\ length parents = 1%nat.
Proof.
  destruct (retrieve_resolves_every_child Samples.first_k Samples.slot_order
              (ParentDocumentRetriever.mk
                 [ParentDocumentRetriever.set_parent_id "parent_282" Samples.docA]
                 {["parent_282" := Samples.docA]}
                 Samples.split_whole Samples.split_whole 4)
              (InputStr "q") slot_order_distinct)
    as (parents & Hinv & Hlen & _).
  - intros child ->%list_elem_of_singleton. exists "parent_282".
    split; [reflexivity|]. split; [discriminate|]. by eexists.
  - intros child Hchild. exact Hchild.
  - exists parents. split; [exact Hinv | exact Hlen].
Defined.

(** X11. Ingesting the same documents a second time overwrites the parents
    in place and indexes their children again: the parent map is unchanged
    and the child index grows by the same children once more. *)
Theorem add_documents_twice (hash : string -> Z)
    (self once twice : ParentDocumentRetriever.t) (documents : list Document) :
  ParentDocumentRetriever.add_documents hash self documents = Returned once ->
  ParentDocumentRetriever.add_documents hash once documents = Returned twice ->
  let children :=
    concat (map (ParentDocumentRetriever.child_docs_of hash self)
                (ParentDocumentRetriever.parent_splitter self documents)) in
  ParentDocumentRetriever.docstore twice = ParentDocumentRetriever.docstore once
  /\ ParentDocumentRetriever.vectorstore once
     = ParentDocumentRetriever.vectorstore self ++ children
  /\ ParentDocumentRetriever.vectorstore twice
     = ParentDocumentRetriever.vectorstore once ++ children.
Proof.
  intros [= <-] [= <-]. cbn zeta.
  destruct (add_parents_fields hash
              (ParentDocumentRetriever.parent_splitter self documents) self)
    as (Hchild & Hparent & _).
  rewrite Hparent. split; [|split].
  - rewrite !add_parent_docstore. apply insert_parents_twice.
  - apply add_parent_vectorstore.
  - rewrite (add_parent_vectorstore hash _ (fold_left _ _ self)). f_equal. f_equal.
    apply map_ext. intros p. unfold ParentDocumentRetriever.child_docs_of.
    by rewrite Hchild.
Qed.

Lemma add_documents_twice_witness :
  exists once twice : ParentDocumentRetriever.t,
    ParentDocumentRetriever.add_documents Samples.sample_hash Samples.empty_retriever
      [Samples.docA] = Returned once
    /\ ParentDocumentRetriever.add_documents Samples.sample_hash once [Samples.docA]
       = Returned twice
    /\ ParentDocumentRetriever.docstore twice = ParentDocumentRetriever.docstore once.
Proof.
  eexists _, _. split; [reflexivity|]. split; [reflexivity|].
  apply (add_documents_twice Samples.sample_hash Samples.empty_retriever _ _
           [Samples.docA] eq_refl eq_refl).
Defined.

(** ** Multi-query retrieval *)

Section MultiQueryFacts.
Import MultiQueryRetriever.
Variable hash : string -> Z.

Lemma seen_iff_elem_of (h : Z) (docs : list (Z * Document)) :
  Ensemble.seen h docs = true <-> h ∈ map fst docs.
Proof.
  unfold Ensemble.seen. rewrite existsb_exists, list_elem_of_fmap. split.
  - intros (kv & Hin & Heq%Z.eqb_eq). exists kv. by rewrite list_elem_of_In.
  - intros (kv & -> & Hin). exists kv. rewrite <- list_elem_of_In.
    split; [done | apply Z.eqb_refl].
Qed.

(** The loop of [invoke] keeps the documents that fusion keeps. *)
Lemma collect_remember (docs : list Document) :
  forall kvs : list (Z * Document),
    fold_left (collect hash) docs (map snd kvs, list_to_set (map fst kvs))
    = (map snd (fold_left (Ensemble.remember hash) docs kvs),
       list_to_set (map fst (fold_left (Ensemble.remember hash) docs kvs))).
Proof.
  induction docs as [|doc docs IH]; intros kvs; [done|].
  cbn [fold_left]. rewrite <- IH. f_equal.
  unfold collect, Ensemble.remember, Ensemble.store_if_new, Ensemble.fingerprint.
  cbn [fst snd].
  destruct (Ensemble.seen (hash (page_content doc)) kvs) eqn:Hseen.
  - apply seen_iff_elem_of in Hseen.
    rewrite decide_True; [done | by apply elem_of_list_to_set].
  - rewrite decide_False.
    + rewrite !map_app, list_to_set_app_L. simpl.
      by rewrite (right_id_L ∅ (∪)), (comm_L (∪)).
    + rewrite elem_of_list_to_set, <- seen_iff_elem_of. congruence.
Qed.

Lemma retrieve_all_returns (retrieve : string -> outcome (list Document))
    (queries : list string) (results : list (list Document)) :
  Forall2 (fun q docs => retrieve q = Returned docs) queries results ->
  forall st,
    retrieve_all hash retrieve queries st
    = Returned (fold_left (collect hash) (concat results) st).
Proof.
  induction 1 as [|q docs queries results Hq _ IH]; intros st; [done|].
  simpl. rewrite Hq. simpl. rewrite IH. by rewrite fold_left_app.
Qed.

Lemma retrieve_all_raises (retrieve : string -> outcome (list Document))
    (before after : list string) (q : string) (e : exn) :
  Forall (fun q' => returns (retrieve q')) before ->
  retrieve q = Raised e ->
  forall st, retrieve_all hash retrieve (before ++ q :: after) st = Raised e.
Proof.
  intros Hbefore Hq. induction Hbefore as [|q' before Hq' _ IH]; intros st; simpl.
  - by rewrite Hq.
  - destruct (retrieve q'); [apply IH | done].
Qed.
End MultiQueryFacts.

(** X12. [MultiQueryRetriever.invoke] returns the documents retrieved for
    the generated queries, in the order in which they were first seen and
    deduplicated by content hash: no two returned documents have the same
    hash, every returned document was retrieved for some query, and the hash
    of every retrieved document is that of a returned one. *)
Theorem multi_query_deduplicates (hash : string -> Z)
    (self : MultiQueryRetriever.t) (i : input)
    (queries : list string) (results : list (list Document)) :
  QueryExpansion._generate_queries (MultiQueryRetriever.llm self)
    (MultiQueryRetriever.num_queries self) (query_of_input i) = Returned queries ->
  Forall2 (fun q docs => MultiQueryRetriever.base_retriever self q = Returned docs)
          queries results ->
  exists out : list Document,
    MultiQueryRetriever.invoke hash self i = Returned out
    /\ out = map snd (Ensemble.first_observed hash (concat results))
    /\ NoDup (map (Ensemble.fingerprint hash) out)
    /\ (forall d, d ∈ out -> d ∈ concat results)
    /\ (forall d, d ∈ concat results ->
          Ensemble.fingerprint hash d ∈ map (Ensemble.fingerprint hash) out).
Proof.
  intros Hqueries Hres.
  exists (map snd (Ensemble.first_observed hash (concat results))).
  assert (Hfp : map (Ensemble.fingerprint hash)
                    (map snd (Ensemble.first_observed hash (concat results)))
                = map fst (Ensemble.first_observed hash (concat results)))
    by (by apply (first_observed_fingerprints hash _ (concat results))).
  split; [|split; [done|]].
  - unfold MultiQueryRetriever.invoke. rewrite Hqueries. cbn [bind].
    rewrite (retrieve_all_returns hash _ _ _ Hres). cbn [bind]. f_equal.
    change ([], ∅) with (map snd (@nil (Z * Document)),
                         list_to_set (map fst (@nil (Z * Document))) : gset Z).
    rewrite collect_remember, remember_first_observed. cbn [fst app].
    f_equal. by apply forallb_filter_id, forallb_forall.
  - rewrite Hfp. split; [apply first_observed_keys_NoDup|]. split.
    + intros d (kv & -> & Hkv)%list_elem_of_fmap.
      by apply first_observed_elem in Hkv as [_ ?].
    + intros d Hd. by apply first_observed_complete.
Qed.

Lemma multi_query_deduplicates_witness :
  MultiQueryRetriever.invoke Samples.sample_hash Samples.multi_query
    (InputStr "what is RAG")
  = Returned [Samples.docB; Samples.docC; Samples.docA].
Proof.
  destruct (multi_query_deduplicates Samples.sample_hash Samples.multi_query
              (InputStr "what is RAG") ["define RAG"; "what is RAG"]
              [[Samples.docB; Samples.docC]; [Samples.docA; Samples.docB]])
    as (out & Hinv & -> & _).
  - by vm_compute.
  - repeat constructor.
  - exact Hinv.
Defined.

(** X13. [MultiQueryRetriever.invoke] catches nothing: a failure of the
    query generator is raised unchanged without any retrieval, and when the
    queries are generated the first failing retriever call raises its error,
    whatever was retrieved for the earlier queries. *)
Theorem multi_query_failure_propagates (hash : string -> Z)
    (self : MultiQueryRetriever.t) (i : input) :
  (forall e : exn,
      MultiQueryRetriever.llm self (query_of_input i)
        (MultiQueryRetriever.num_queries self) = Raised e ->
      MultiQueryRetriever.invoke hash self i = Raised e)
  /\ (forall (before after : list string) (q : string) (e : exn),
        QueryExpansion._generate_queries (MultiQueryRetriever.llm self)
          (MultiQueryRetriever.num_queries self) (query_of_input i)
        = Returned (before ++ q :: after) ->
        Forall (fun q' => returns (MultiQueryRetriever.base_retriever self q')) before ->
        MultiQueryRetriever.base_retriever self q = Raised e ->
        MultiQueryRetriever.invoke hash self i = Raised e).
Proof.
  split.
  - intros e Hllm. unfold MultiQueryRetriever.invoke, QueryExpansion._generate_queries.
    by rewrite Hllm.
  - intros before after q e Hqueries Hbefore Hq. unfold MultiQueryRetriever.invoke.
    rewrite Hqueries. cbn [bind].
    by rewrite (retrieve_all_raises hash _ before after q e Hbefore Hq).
Qed.

Lemma multi_query_failure_propagates_witness :
  MultiQueryRetriever.invoke Samples.sample_hash Samples.multi_query_down
    (InputStr "what is RAG")
  = Raised (BackendUnavailable "connection refused").
Proof.
  apply (proj2 (multi_query_failure_propagates Samples.sample_hash
                  Samples.multi_query_down (InputStr "what is RAG"))
           [] ["what is RAG"] "define RAG").
  - by vm_compute.
  - constructor.
  - reflexivity.
Defined.

(** ** Query expansion: bounds and parsed lines *)

Section ParseFacts.
Import QueryExpansion.

Lemma lstrip_head (s : string) :
  match lstrip s with
  | EmptyString => True
  | String c _ => is_space c = false
  end.
Proof.
  induction s as [|c s IH]; [done|]. simpl.
  destruct (is_space c) eqn:Hc; [done|]. simpl. exact Hc.
Qed.

Lemma rstrip_idempotent (s : string) : rstrip (rstrip s) = rstrip s.
Proof.
  induction s as [|c s IH]; [done|]. simpl.
  destruct (rstrip s) as [|d r] eqn:Hr.
  - destruct (is_space c) eqn:Hc; [done|]. simpl. by rewrite Hc.
  - simpl in *. by rewrite IH.
Qed.

Lemma rstrip_head (c : Ascii.ascii) (s : string) :
  is_space c = false -> exists r, rstrip (String c s) = String c r.
Proof.
  intros Hc. simpl. destruct (rstrip s); [rewrite Hc|]; eauto.
Qed.

Lemma lstrip_of_head (c : Ascii.ascii) (s : string) :
  is_space c = false -> lstrip (String c s) = String c s.
Proof. intros Hc. simpl. by rewrite Hc. Qed.

(** [strip] is idempotent: a stripped string has no whitespace at either
    end. *)
Lemma strip_idempotent (s : string) : strip (strip s) = strip s.
Proof.
  unfold strip. pose proof (lstrip_head s) as Hhead.
  destruct (lstrip s) as [|c t]; [done|].
  destruct (rstrip_head c t Hhead) as [r Hr]. rewrite Hr.
  rewrite (lstrip_of_head c r Hhead), <- Hr. apply rstrip_idempotent.
Qed.

Lemma elem_of_parse_queries (x result : string) :
  x ∈ parse_queries result
  <-> x <> "" /\ exists line, line ∈ split_lines result /\ x = strip line.
Proof.
  unfold parse_queries.
  rewrite list_elem_of_In, filter_In, <- list_elem_of_In, list_elem_of_fmap.
  rewrite negb_true_iff, String.eqb_neq. split.
  - intros [(line & -> & Hline) Hne]. eauto.
  - intros (Hne & line & Hline & ->). eauto.
Qed.

Lemma elem_of_include_original (x question : string) (queries : list string) :
  x ∈ include_original question queries -> x = question \/ x ∈ queries.
Proof.
  unfold include_original. destruct (contains question queries); [by right|].
  by intros [?|?]%elem_of_cons; [left | right].
Qed.

Lemma elem_of_slice_to {A : Type} (x : A) (n : Z) (l : list A) :
  x ∈ slice_to n l -> x ∈ l.
Proof.
  unfold slice_to.
  destruct (0 <=? n); intros (j & Hj & _)%elem_of_take;
    by apply list_elem_of_lookup_2 in Hj.
Qed.

Lemma include_original_nonempty (question : string) (queries : list string) :
  include_original question queries <> [].
Proof.
  unfold include_original. destruct (contains question queries) eqn:Hc; [|done].
  by destruct queries.
Qed.
End ParseFacts.

(** X14. Every query parsed from the generator's answer is a non-empty
    line of the answer with the surrounding whitespace removed: stripping it
    again changes nothing. *)
Theorem parse_queries_trimmed (result x : string) :
  x ∈ QueryExpansion.parse_queries result ->
  x <> ""
  /\ QueryExpansion.strip x = x
  /\ exists line, line ∈ QueryExpansion.split_lines result
                  /\ x = QueryExpansion.strip line.
Proof.
  intros (Hne & line & Hline & ->)%elem_of_parse_queries.
  split; [done|]. split; [apply strip_idempotent | eauto].
Qed.

Lemma parse_queries_trimmed_witness :
  QueryExpansion.strip "define RAG" = "define RAG".
Proof.
  apply (parse_queries_trimmed
           ("  define RAG " +:+ String QueryExpansion.newline " what is RAG")
           "define RAG").
  vm_compute. apply list_elem_of_here.
Defined.

(** X15. When the generator answers, [_generate_queries] returns; for a
    bound [num_queries >= 0] the result has at most [num_queries] entries;
    every entry is the question or a parsed line of the answer; and when the
    answer does not contain the question and the bound is at least 1, the
    question is the first entry. *)
Theorem generate_queries_bounded (llm : string -> Z -> outcome string)
    (num_queries : Z) (question result : string) :
  llm question num_queries = Returned result ->
  exists queries : list string,
    QueryExpansion._generate_queries llm num_queries question = Returned queries
    /\ (0 <= num_queries -> Z.of_nat (length queries) <= num_queries)
    /\ (forall x, x ∈ queries ->
          x = question \/ x ∈ QueryExpansion.parse_queries result)
    /\ (1 <= num_queries ->
        QueryExpansion.contains question (QueryExpansion.parse_queries result) = false ->
        head queries = Some question).
Proof.
  intros Hllm. unfold QueryExpansion._generate_queries. rewrite Hllm. cbn [bind].
  eexists. split; [reflexivity|]. split; [|split].
  - intros Hn. by apply slice_to_length.
  - intros x Hx%elem_of_slice_to. by apply elem_of_include_original.
  - intros Hn Hnot. unfold QueryExpansion.include_original. rewrite Hnot.
    rewrite slice_to_nonneg by lia.
    destruct (Z.to_nat num_queries) as [|n] eqn:Hz; [lia | done].
Qed.

Lemma generate_queries_bounded_witness :
  exists queries : list string,
    QueryExpansion._generate_queries Samples.llm_repeating 1 "what is RAG"
    = Returned queries
    /\ Z.of_nat (length queries) <= 1.
Proof.
  destruct (generate_queries_bounded Samples.llm_repeating 1 "what is RAG"
              ("define RAG" +:+ String QueryExpansion.newline "what is RAG"))
    as (queries & Hq & Hlen & _); [reflexivity|].
  exists queries. split; [exact Hq | apply Hlen; lia].
Defined.

(** X16. [expand_query] never fails and never returns an empty list: it
    returns between one and five queries, each of them the original query or
    a parsed line of the generator's answer; when [RAG_PROJECT_ID] is unset
    or empty, or when the generator fails, it returns the original query
    alone. *)
Theorem expand_query_degrades (project_id : option string)
    (llm : string -> outcome string) (original_query : string) :
  let queries := QueryExpansion.expand_query project_id llm original_query in
  (1 <= length queries <= 5)%nat
  /\ (forall x, x ∈ queries ->
        x = original_query
        \/ exists response, llm original_query = Returned response
                            /\ x ∈ QueryExpansion.parse_queries response)
  /\ (project_id = None \/ project_id = Some ""
      \/ (exists e, llm original_query = Raised e) ->
      queries = [original_query]).
Proof.
  cbn zeta. unfold QueryExpansion.expand_query.
  destruct project_id as [p|].
  - destruct (String.eqb_spec p "") as [->|Hp].
    + split; [simpl; lia|]. split; [|done].
      intros x ->%list_elem_of_singleton. by left.
    + destruct (llm original_query) as [response|e] eqn:Hllm.
      * split; [|split].
        -- rewrite slice_to_nonneg, length_take by lia.
           change (Z.to_nat 5) with 5%nat.
           pose proof (include_original_nonempty original_query
                         (QueryExpansion.parse_queries response)) as Hne.
           destruct (QueryExpansion.include_original _ _) as [|y l]; [done|].
           cbn [length]. lia.
        -- intros x Hx%elem_of_slice_to%elem_of_include_original.
           destruct Hx; [by left | right; eauto].
        -- intros [?|[[= ->]|[e ?]]]; done.
      * split; [simpl; lia|]. split; [|done].
        intros x ->%list_elem_of_singleton. by left.
  - split; [simpl; lia|]. split; [|done].
    intros x ->%list_elem_of_singleton. by left.
Qed.

Lemma expand_query_degrades_witness :
  QueryExpansion.expand_query (Some "demo")
    (fun _ => Raised (BackendUnavailable "connection refused")) "what is RAG"
  = ["what is RAG"].
Proof.
  apply (proj2 (proj2 (expand_query_degrades (Some "demo")
                         (fun _ => Raised (BackendUnavailable "connection refused"))
                         "what is RAG"))).
  right. right. by eexists.
Defined.

(** ** PDF loading: whitespace cleanup *)

Section CleanTextFacts.
Import RagCore.

Lemma split_whitespace_words (s : string) : Forall word (split_whitespace s).
Proof.
  induction s as [|c s IH]; [constructor|]. simpl.
  destruct (QueryExpansion.is_space c) eqn:Hc; [done|].
  assert (Hone : word (String c EmptyString)).
  { split; [done|]. simpl. by rewrite Hc. }
  destruct s as [|c' s']; [constructor; [exact Hone | constructor]|].
  destruct (QueryExpansion.is_space c') eqn:Hc'; [by constructor|].
  destruct (split_whitespace (String c' s')) as [|w ws];
    [constructor; [exact Hone | constructor]|].
  apply Forall_cons in IH as [[Hw Hns] Hws]. constructor; [|done].
  split; [done|]. simpl. by rewrite Hc, Hns.
Qed.

Lemma split_whitespace_word (w : string) : word w -> split_whitespace w = [w].
Proof.
  induction w as [|c w IH]; intros [Hne Hns]; [done|].
  simpl in Hns. apply andb_true_iff in Hns as [Hc%negb_true_iff Hns].
  simpl. rewrite Hc. destruct w as [|c' w']; [done|].
  assert (Hw : word (String c' w')) by done.
  rewrite (IH Hw). simpl in Hns.
  apply andb_true_iff in Hns as [Hc'%negb_true_iff _]. by rewrite Hc'.
Qed.

Lemma split_whitespace_word_sep (w : string) (sp : Ascii.ascii) (s : string) :
  word w -> QueryExpansion.is_space sp = true ->
  split_whitespace (w +:+ String sp s) = w :: split_whitespace s.
Proof.
  intros Hw Hsp. induction w as [|c w IH]; [by destruct Hw|].
  destruct Hw as [_ Hns]. simpl in Hns.
  apply andb_true_iff in Hns as [Hc%negb_true_iff Hns].
  change (String c w +:+ String sp s) with (String c (w +:+ String sp s)).
  destruct w as [|c' w'].
  - change ("" +:+ String sp s) with (String sp s). simpl. by rewrite Hc, Hsp.
  - assert (Hw : word (String c' w')) by done.
    specialize (IH Hw).
    change (String c' w' +:+ String sp s) with (String c' (w' +:+ String sp s)) in *.
    cbn [split_whitespace] in *. rewrite Hc. simpl in Hns.
    apply andb_true_iff in Hns as [Hc'%negb_true_iff _].
    rewrite Hc' in *. by rewrite IH.
Qed.

Lemma split_whitespace_join (ws : list string) :
  Forall word ws -> split_whitespace (join " " ws) = ws.
Proof.
  induction 1 as [|w ws Hw Hws IH]; [done|].
  destruct ws as [|w' ws']; [by apply split_whitespace_word|].
  change (join " " (w :: w' :: ws'))
    with (w +:+ String (Ascii.ascii_of_nat 32) (join " " (w' :: ws'))).
  rewrite split_whitespace_word_sep by done. by rewrite IH.
Qed.
End CleanTextFacts.

(** X17. The whitespace cleanup of [load_pdf] keeps the words of the text:
    splitting the cleaned text gives the same words as splitting the
    original, every word is non-empty and free of whitespace, and cleaning a
    cleaned text changes nothing. Joining words with single spaces and
    splitting again returns the words. *)
Theorem clean_text_keeps_words (text : string) :
  RagCore.split_whitespace (RagCore.clean_text text) = RagCore.split_whitespace text
  /\ Forall RagCore.word (RagCore.split_whitespace text)
  /\ RagCore.clean_text (RagCore.clean_text text) = RagCore.clean_text text
  /\ forall ws : list string,
       Forall RagCore.word ws ->
       RagCore.split_whitespace (RagCore.join " " ws) = ws.
Proof.
  assert (Hsplit : RagCore.split_whitespace (RagCore.clean_text text)
                   = RagCore.split_whitespace text)
    by apply split_whitespace_join, split_whitespace_words.
  split; [done|]. split; [apply split_whitespace_words|].
  split; [|apply split_whitespace_join].
  unfold RagCore.clean_text at 1. by rewrite Hsplit.
Qed.

Lemma clean_text_keeps_words_witness :
  RagCore.split_whitespace (RagCore.join " " ["retrieval"; "augmented"])
  = ["retrieval"; "augmented"].
Proof.
  apply (proj2 (proj2 (proj2 (clean_text_keeps_words "")))).
  repeat constructor; done.
Defined.

(** X18. [load_pdf] returns exactly one document whatever the number of
    pages: its text is the cleaned concatenation of the page texts (the
    same words, nothing left to clean) and its metadata records the file
    path as ["source"]; a failure to read the file is raised again. *)
Theorem load_pdf_single_document (read_pages : string -> outcome (list string))
    (file_path : string) :
  (forall pages : list string,
      read_pages file_path = Returned pages ->
      exists doc : Document,
        RagCore.load_pdf read_pages file_path = Returned [doc]
        /\ metadata doc !! "source" = Some file_path
        /\ RagCore.split_whitespace (page_content doc)
           = RagCore.split_whitespace
               (fold_left (fun text page => text +:+ page) pages "")
        /\ RagCore.clean_text (page_content doc) = page_content doc)
  /\ (forall e : exn,
        read_pages file_path = Raised e ->
        RagCore.load_pdf read_pages file_path = Raised e).
Proof.
  split.
  - intros pages Hpages. unfold RagCore.load_pdf. rewrite Hpages. cbn [bind].
    eexists. split; [reflexivity|]. cbn [metadata page_content].
    split; [apply lookup_singleton_eq|].
    destruct (clean_text_keeps_words
                (fold_left (fun text page => text +:+ page) pages ""))
      as (Hwords & _ & Hidem & _).
    by split.
  - intros e He. unfold RagCore.load_pdf. by rewrite He.
Qed.

Lemma load_pdf_single_document_witness :
  exists doc : Document,
    RagCore.load_pdf (fun _ => Returned ["  page one "; "page  two"]) "report.pdf"
    = Returned [doc]
    /\ metadata doc !! "source" = Some "report.pdf".
Proof.
  destruct (proj1 (load_pdf_single_document
                     (fun _ => Returned ["  page one "; "page  two"]) "report.pdf")
              ["  page one "; "page  two"] eq_refl)
    as (doc & Hload & Hsource & _).
  exists doc. split; [exact Hload | exact Hsource].
Defined.

(** ** HTTP endpoints *)

Section EndpointFacts.
Import Workbench.

Lemma substring_prefix_length (n : nat) (s : string) :
  (String.length (String.substring 0 n s) <= n)%nat.
Proof.
  revert s. induction n as [|n IH]; intros s; [by destruct s|].
  destruct s as [|c s]; simpl; [lia|]. specialize (IH s). lia.
Qed.

Lemma score_docs_fst (scores : list Rerank.pyfloat) (docs : list (nat * Document)) :
  forall scored out : list (Document * Q),
    Rerank.score_docs scores docs scored = Returned out ->
    map fst out = map fst scored ++ map snd docs.
Proof.
  induction docs as [|[j doc] docs IH]; intros scored out; simpl.
  - intros [= <-]. by rewrite app_nil_r.
  - destruct (scores !! j) as [s|]; [|done]. intros Hout.
    rewrite (IH _ _ Hout), map_app. simpl. by rewrite <- app_assoc.
Qed.

Lemma sorted_scores {A : Type} (key : A -> Q) (l : list A) :
  StronglySorted (desc key) l ->
  StronglySorted (fun x y => (y <= x)%Q) (map key l).
Proof.
  induction 1 as [|x l _ IH Hall]; simpl; constructor; [done|].
  apply Forall_fmap. by eapply Forall_impl; [exact Hall|].
Qed.

Variable get_text_embedding : string -> outcome (list Q).

(** The formatted results mirror the reranked documents, one by one. *)
Lemma format_results_mirror (reranked : list (Document * Q)) :
  forall formatted out : list SearchResult,
    format_results get_text_embedding reranked formatted = Returned out ->
    exists added : list SearchResult,
      out = formatted ++ added
      /\ Forall2 (fun ds res =>
                    content res = page_content (fst ds)
                    /\ score res = snd ds
                    /\ result_metadata res = metadata (fst ds)
                    /\ is_Some (embedding res))
                 reranked added.
Proof.
  induction reranked as [|[doc s] reranked IH]; intros formatted out; simpl.
  - intros [= <-]. exists []. by rewrite app_nil_r.
  - destruct (get_text_embedding (page_content doc)) as [e|]; [|done]. simpl.
    intros Hout. destruct (IH _ _ Hout) as (added & -> & Hall).
    eexists (_ :: added). rewrite <- app_assoc. split; [reflexivity|].
    constructor; [|done]. simpl. eauto.
Qed.

Lemma format_results_returns (reranked : list (Document * Q)) :
  (forall text, returns (get_text_embedding text)) ->
  forall formatted, returns (format_results get_text_embedding reranked formatted).
Proof.
  intros Hemb. induction reranked as [|[doc s] reranked IH]; intros formatted; [done|].
  simpl. specialize (Hemb (page_content doc)).
  destruct (get_text_embedding (page_content doc)); [apply IH | done].
Qed.
End EndpointFacts.

Section PreviewFacts.

Lemma substring_prefix (n : nat) (s : string) :
  String.prefix (String.substring 0 n s) s = true.
Proof.
  revert s. induction n as [|n IH]; intros s; [by destruct s|].
  destruct s as [|c s]; [done|]. simpl.
  destruct (Ascii.ascii_dec c c) as [_|Hne]; [apply IH | done].
Qed.

Lemma substring_length (n : nat) (s : string) :
  String.length (String.substring 0 n s) = (n `min` String.length s)%nat.
Proof.
  revert s. induction n as [|n IH]; intros s; [by destruct s|].
  destruct s as [|c s]; [done|]. simpl. by rewrite IH.
Qed.

Lemma preview_lookup (chunks : list Document) (j : nat) (p : string) :
  Workbench.preview chunks !! j = Some p ->
  exists chunk : Document,
    chunks !! j = Some chunk
    /\ p = String.substring 0 200 (page_content chunk) +:+ "...".
Proof.
  unfold Workbench.preview. rewrite list_lookup_fmap.
  destruct (take 3 chunks !! j) as [chunk|] eqn:Hj; [|done].
  intros [= <-]. exists chunk. split; [|done].
  apply lookup_take_Some in Hj. tauto.
Qed.
End PreviewFacts.

(** X19. [process_document] answers with a response or with HTTP status
    500. A response is built from what the services returned: the
    collection name is the one [create_vector_store] gave for the chunks
    that [split_text] made of the loaded document, [num_chunks] is the
    number of these chunks, the previews are the first 200 characters (the
    whole text when it is shorter) of each of the first three chunks, in
    order, followed by ["..."], and the embedding preview is the embedding
    of the first chunk, absent when there is no chunk. A status 500 carries
    the text of the exception of the first step that failed. When every
    service answers, the endpoint responds. *)
Theorem process_document_response (str : exn -> string)
    (get_text_embedding : string -> outcome (list Q))
    (read_pages : string -> outcome (list string))
    (split_text : list Document -> Z -> Z -> outcome (list Document))
    (create_vector_store : list Document -> outcome string)
    (file_path : string) (chunk_size chunk_overlap : Z) :
  let result :=
    Workbench.process_document str get_text_embedding read_pages split_text
      create_vector_store file_path chunk_size chunk_overlap in
  let embedded (chunks : list Document) : outcome (option (list Q)) :=
    match chunks with
    | chunk :: _ =>
        match get_text_embedding (page_content chunk) with
        | Returned e => Returned (Some e)
        | Raised e => Raised e
        end
    | [] => Returned None
    end in
  (forall r : Workbench.ProcessResponse,
      result = Workbench.Ok r ->
      exists (docs chunks : list Document),
        RagCore.load_pdf read_pages file_path = Returned docs
        /\ split_text docs chunk_size chunk_overlap = Returned chunks
        /\ create_vector_store chunks = Returned (Workbench.collection_name r)
        /\ Workbench.num_chunks r = length chunks
        /\ length (Workbench.preview_chunks r) = (3 `min` length chunks)%nat
        /\ (forall (j : nat) (p : string),
              Workbench.preview_chunks r !! j = Some p ->
              exists (chunk : Document) (shown : string),
                chunks !! j = Some chunk
                /\ p = shown +:+ "..."
                /\ String.prefix shown (page_content chunk) = true
                /\ String.length shown
                   = (200 `min` String.length (page_content chunk))%nat)
        /\ embedded chunks = Returned (Workbench.embedding_preview r))
  /\ (forall (status_code : Z) (detail : string),
        result = Workbench.HTTPException status_code detail ->
        status_code = 500
        /\ exists e : exn,
             detail = str e
             /\ (RagCore.load_pdf read_pages file_path = Raised e
                 \/ exists docs : list Document,
                      RagCore.load_pdf read_pages file_path = Returned docs
                      /\ (split_text docs chunk_size chunk_overlap = Raised e
                          \/ exists chunks : list Document,
                               split_text docs chunk_size chunk_overlap = Returned chunks
                               /\ (create_vector_store chunks = Raised e
                                   \/ (returns (create_vector_store chunks)
                                       /\ embedded chunks = Raised e)))))
  /\ (forall (docs chunks : list Document),
        RagCore.load_pdf read_pages file_path = Returned docs ->
        split_text docs chunk_size chunk_overlap = Returned chunks ->
        returns (create_vector_store chunks) ->
        returns (embedded chunks) ->
        exists r : Workbench.ProcessResponse, result = Workbench.Ok r).
Proof.
  cbn zeta. unfold Workbench.process_document.
  destruct (RagCore.load_pdf read_pages file_path) as [docs|e1];
    cbn [bind Workbench.handle].
  2: { split; [done|]. split; [|by intros ? ? [=]].
       intros ? ? [= <- <-]. split; [done|]. eauto. }
  destruct (split_text docs chunk_size chunk_overlap) as [chunks|e2] eqn:Hsplit;
    cbn [bind Workbench.handle].
  2: { split; [done|]. split.
       - intros ? ? [= <- <-]. split; [done|].
         exists e2. split; [done|]. right. exists docs. eauto.
       - intros ? ? [= <-] H. by rewrite Hsplit in H. }
  destruct (create_vector_store chunks) as [name|e3] eqn:Hstore;
    cbn [bind Workbench.handle].
  2: { split; [done|]. split.
       - intros ? ? [= <- <-]. split; [done|].
         exists e3. split; [done|]. right. exists docs. split; [done|].
         right. exists chunks. eauto.
       - intros ? ? [= <-] H. rewrite Hsplit in H. injection H as <-.
         by rewrite Hstore. }
  set (embedded :=
         match chunks with
         | chunk :: _ =>
             match get_text_embedding (page_content chunk) with
             | Returned e => Returned (Some e)
             | Raised e => Raised e
             end
         | [] => Returned None
         end).
  assert (Hemb : match chunks with
                 | chunk :: _ =>
                     let? e := get_text_embedding (page_content chunk) in
                     Returned (Some e)
                 | [] => Returned None
                 end = embedded).
  { unfold embedded. destruct chunks as [|chunk ?]; [done|].
    by destruct (get_text_embedding (page_content chunk)). }
  rewrite Hemb. destruct embedded as [emb|e4] eqn:Hembedded; cbn [bind Workbench.handle].
  - split; [|split; [done|eauto]].
    intros r [= <-]. exists docs, chunks.
    cbn [Workbench.collection_name Workbench.num_chunks Workbench.preview_chunks
         Workbench.embedding_preview].
    repeat (split; [done|]).
    split; [unfold Workbench.preview; by rewrite length_map, length_take|].
    split; [|done].
    intros j p Hp. apply preview_lookup in Hp as (chunk & Hchunk & ->).
    exists chunk, (String.substring 0 200 (page_content chunk)).
    split; [done|]. split; [done|].
    split; [apply substring_prefix | apply substring_length].
  - split; [done|]. split.
    + intros ? ? [= <- <-]. split; [done|].
      exists e4. split; [done|]. right. exists docs. split; [done|].
      right. exists chunks. split; [done|]. right. by rewrite Hstore.
    + intros ? ? [= <-] H. rewrite Hsplit in H. injection H as <-.
      intros _ Hret. unfold embedded in Hembedded. by rewrite Hembedded in Hret.
Qed.

Lemma process_document_response_witness :
  exists r : Workbench.ProcessResponse,
    Workbench.process_document (fun _ => "error") (fun _ => Returned [])
      (fun _ => Returned ["page one "; "page two"])
      (fun docs _ _ => Returned (docs ++ docs))
      (fun _ => Returned "collection") "file.pdf" 500 50
    = Workbench.Ok r
    /\ Workbench.num_chunks r = 2%nat.
Proof.
  destruct (proj2 (proj2 (process_document_response (fun _ => "error")
                            (fun _ => Returned [])
                            (fun _ => Returned ["page one "; "page two"])
                            (fun docs _ _ => Returned (docs ++ docs))
                            (fun _ => Returned "collection") "file.pdf" 500 50))
              _ _ eq_refl eq_refl I I) as [r Hr].
  exists r. split; [exact Hr|].
  destruct (proj1 (process_document_response (fun _ => "error")
                     (fun _ => Returned [])
                     (fun _ => Returned ["page one "; "page two"])
                     (fun docs _ _ => Returned (docs ++ docs))
                     (fun _ => Returned "collection") "file.pdf" 500 50) r Hr)
    as (docs & chunks & Hdocs & Hchunks & _ & Hnum & _).
  vm_compute in Hdocs. injection Hdocs as <-.
  vm_compute in Hchunks. injection Hchunks as <-.
  exact Hnum.
Defined.

(** X20. [rerank_results] answers with a response or with HTTP status
    500. In a response, for [top_k >= 0], there are exactly
    [min(top_k, number of candidates)] results, their scores are
    non-increasing, every result carries an embedding and the content and
    metadata of one of the candidates, and the query embedding is present.
    When the embedding service answers and the model returns a score per
    candidate, the endpoint does respond. *)
Theorem rerank_results_response (str : exn -> string)
    (get_text_embedding : string -> outcome (list Q))
    (predict : list (string * string) -> list Rerank.pyfloat)
    (query : string) (initial_results : list Workbench.SearchResult) (top_k : Z) :
  0 <= top_k ->
  match Workbench.rerank_results str get_text_embedding predict query
          initial_results top_k with
  | Workbench.Ok r =>
      Z.of_nat (length (Workbench.results r))
      = Z.min top_k (Z.of_nat (length initial_results))
      /\ StronglySorted (fun x y => (y <= x)%Q)
                        (map Workbench.score (Workbench.results r))
      /\ Forall (fun res =>
                   is_Some (Workbench.embedding res)
                   /\ exists candidate,
                        candidate ∈ initial_results
                        /\ Workbench.content res = Workbench.content candidate
                        /\ Workbench.result_metadata res
                           = Workbench.result_metadata candidate)
                (Workbench.results r)
      /\ is_Some (Workbench.query_embedding r)
  | Workbench.HTTPException status_code _ => status_code = 500
  end
  /\ ((forall text, returns (get_text_embedding text)) ->
      (length initial_results
       <= length (predict (map (fun res => (query, Workbench.content res))
                               initial_results)))%nat ->
      exists r, Workbench.rerank_results str get_text_embedding predict query
                  initial_results top_k = Workbench.Ok r).
Proof.
  intros Hk. unfold Workbench.rerank_results, Rerank.rerank_documents.
  set (docs := map (fun res => mkDocument (Workbench.content res)
                                          (Workbench.result_metadata res))
                   initial_results).
  assert (Hpairs : map (fun doc => (query, page_content doc)) docs
                   = map (fun res => (query, Workbench.content res)) initial_results).
  { unfold docs. rewrite map_map. done. }
  rewrite Hpairs.
  set (scores := predict (map (fun res => (query, Workbench.content res))
                              initial_results)).
  split.
  - destruct (get_text_embedding query) as [qe|]; [|done]. cbn [bind].
    destruct (Rerank.score_docs scores (enumerate docs) []) as [scored|] eqn:Hscored;
      [|done].
    cbn [bind]. rewrite slice_to_nonneg by done.
    set (reranked := take (Z.to_nat top_k) (sorted_desc snd scored)).
    destruct (Workbench.format_results get_text_embedding reranked [])
      as [formatted|] eqn:Hfmt; [|done].
    cbn [Workbench.handle bind Workbench.results Workbench.query_embedding].
    apply format_results_mirror in Hfmt as (added & -> & Hmirror). simpl.
    apply score_docs_fst in Hscored. simpl in Hscored.
    unfold enumerate in Hscored. rewrite map_snd_enumerate_from in Hscored.
    assert (Hlen : length scored = length initial_results).
    { rewrite <- (length_map fst scored), Hscored. unfold docs. by rewrite length_map. }
    split; [|split; [|split; [|eauto]]].
    + rewrite <- (Forall2_length _ _ _ Hmirror). unfold reranked.
      rewrite length_take, sorted_desc_length, Hlen. lia.
    + assert (Hscores : map Workbench.score added = map snd reranked).
      { clear -Hmirror. induction Hmirror as [|ds res ? ? (_ & Hs & _) _ IH]; [done|].
        simpl. by rewrite Hs, IH. }
      rewrite Hscores. apply sorted_scores.
      apply StronglySorted_firstn, sorted_desc_sorted.
    + assert (Hin : forall ds, ds ∈ reranked -> fst ds ∈ docs).
      { intros ds Hds. rewrite <- Hscored. apply list_elem_of_fmap. exists ds.
        split; [done|]. rewrite <- (sorted_desc_perm snd scored).
        unfold reranked in Hds. apply elem_of_take in Hds as (j & Hj & _).
        by apply list_elem_of_lookup_2 in Hj. }
      clear -Hmirror Hin.
      induction Hmirror as [|ds res ? ? (Hc & _ & Hm & He) _ IH]; [constructor|].
      constructor.
      * split; [done|].
        pose proof (Hin ds (list_elem_of_here _ _)) as Hd.
        apply list_elem_of_fmap in Hd as (cand & Hcand & Hmem).
        exists cand. split; [done|]. rewrite Hc, Hm, Hcand. done.
      * apply IH. intros ds' Hds'. by apply Hin, list_elem_of_further.
  - intros Hemb Hscores.
    pose proof (Hemb query) as Hq.
    destruct (get_text_embedding query) as [qe|]; [|done]. cbn [bind].
    rewrite score_docs_enumerate
      by (unfold docs; rewrite length_map; exact Hscores).
    cbn [bind].
    pose proof (format_results_returns get_text_embedding
                  (slice_to top_k (sorted_desc snd (combine docs (map Rerank.clamp scores))))
                  Hemb []) as Hfmt.
    destruct (Workbench.format_results get_text_embedding _ []); [|done].
    simpl. eauto.
Qed.

Lemma rerank_results_response_witness :
  exists r : Workbench.RerankResponse,
    Workbench.rerank_results (fun _ => "error") (fun _ => Returned [])
      Samples.sample_predict "q"
      [Workbench.mkSearchResult "A" 0 ∅ None; Workbench.mkSearchResult "B" 0 ∅ None] 1
    = Workbench.Ok r.
Proof.
  apply (proj2 (rerank_results_response (fun _ => "error") (fun _ => Returned [])
                  Samples.sample_predict "q"
                  [Workbench.mkSearchResult "A" 0 ∅ None;
                   Workbench.mkSearchResult "B" 0 ∅ None] 1 ltac:(lia))).
  - intros text. exact I.
  - simpl. lia.
Defined.

(** ** Retriever factories *)

Section FactoryFacts.
Import Ensemble.
Variable hash : string -> Z.

Lemma invoke_length (sort_order : list Float.float -> list nat) (i : input)
    (rs : list retriever) (ws : list Float.float)
    (results : list (list Document)) (out : list Document) :
  permutes sort_order ->
  Forall2 (fun r docs => r (query_of_input i) = Returned docs) rs results ->
  invoke hash sort_order (mkEnsemble rs ws) i = Returned out ->
  (length out <= length (concat (map fst (combine results ws))))%nat.
Proof.
  intros Hsort Hres. rewrite (invoke_returns hash sort_order i rs ws results Hres).
  intros [= <-].
  rewrite length_map, sorted_reverse_perm by done.
  apply first_observed_length.
Qed.

End FactoryFacts.

(** X21. [get_ensemble_retriever] rejects [top_k < 1] with a [ValueError]
    before it builds anything; otherwise an error of either back-end, the
    vector store or the keyword index, is raised again, and when both
    back-ends are built it returns the combiner of the vector retriever
    and the keyword retriever with weights 0.5 and 0.5: it returns exactly
    when [top_k >= 1] and both back-ends are built. If the vector
    retriever returns at most [top_k] documents and the keyword retriever
    at most 3, the combiner returns at most [top_k + 3] documents. *)
Theorem get_ensemble_retriever_hybrid
    (vector_retriever keyword_retriever : list Document -> Z -> outcome retriever)
    (docs : list Document) (top_k : Z) :
  let built := get_ensemble_retriever vector_retriever keyword_retriever docs top_k in
  (top_k < 1 -> built = Raised (ValueError "top_k must be at least 1"))
  /\ (forall e, 1 <= top_k -> vector_retriever docs top_k = Raised e -> built = Raised e)
  /\ (forall r e,
        1 <= top_k ->
        vector_retriever docs top_k = Returned r ->
        keyword_retriever docs 3 = Raised e ->
        built = Raised e)
  /\ (returns built
      <-> 1 <= top_k
          /\ returns (vector_retriever docs top_k)
          /\ returns (keyword_retriever docs 3))
  /\ (forall r kr,
        1 <= top_k ->
        vector_retriever docs top_k = Returned r ->
        keyword_retriever docs 3 = Returned kr ->
        built = Returned (Ensemble.mkEnsemble [r; kr] [Float.half; Float.half])
        /\ forall (hash : string -> Z) (sort_order : list Float.float -> list nat)
                  (i : input) (found matched out : list Document),
             permutes sort_order ->
             r (query_of_input i) = Returned found ->
             kr (query_of_input i) = Returned matched ->
             Z.of_nat (length found) <= top_k ->
             (length matched <= 3)%nat ->
             Ensemble.invoke hash sort_order
               (Ensemble.mkEnsemble [r; kr] [Float.half; Float.half]) i = Returned out ->
             Z.of_nat (length out) <= top_k + 3).
Proof.
  cbn zeta. unfold get_ensemble_retriever. split; [|split; [|split; [|split]]].
  - intros Hk. by rewrite (proj2 (Z.ltb_lt top_k 1) Hk).
  - intros e Hk He. rewrite (proj2 (Z.ltb_ge top_k 1) Hk). by rewrite He.
  - intros r e Hk Hr He. rewrite (proj2 (Z.ltb_ge top_k 1) Hk). by rewrite Hr, He.
  - destruct (Z.ltb_spec top_k 1) as [Hk|Hk].
    + split; [done|]. intros [? _]. lia.
    + destruct (vector_retriever docs top_k) as [r|e]; cbn [bind];
        [|split; [done|tauto]].
      destruct (keyword_retriever docs 3) as [kr|e]; cbn [bind];
        [|split; [done|tauto]].
      done.
  - intros r kr Hk Hr Hkr. rewrite (proj2 (Z.ltb_ge top_k 1) Hk), Hr, Hkr.
    split; [done|].
    intros hash sort_order i found matched out Hsort Hfound Hmatched Hlen1 Hlen2 Hout.
    pose proof (invoke_length hash sort_order i [r; kr] [Float.half; Float.half]
                  [found; matched] out Hsort ltac:(by repeat constructor) Hout) as Hlen.
    simpl in Hlen. rewrite app_nil_r, length_app in Hlen. lia.
Qed.

Lemma get_ensemble_retriever_hybrid_witness :
  get_ensemble_retriever (fun _ _ => Returned Samples.retriever_abc)
    (fun _ _ => Raised (BackendUnavailable "no index")) [Samples.docA] 5
  = Raised (BackendUnavailable "no index")
  /\ get_ensemble_retriever (fun _ _ => Returned Samples.retriever_abc)
       (fun _ _ => Returned Samples.retriever_ca) [Samples.docA] 5
     = Returned (Ensemble.mkEnsemble [Samples.retriever_abc; Samples.retriever_ca]
                                     [Float.half; Float.half]).
Proof.
  split.
  - apply (proj1 (proj2 (proj2 (get_ensemble_retriever_hybrid
                                  (fun _ _ => Returned Samples.retriever_abc)
                                  (fun _ _ => Raised (BackendUnavailable "no index"))
                                  [Samples.docA] 5)))
             Samples.retriever_abc); [lia | reflexivity | reflexivity].
  - apply (proj2 (proj2 (proj2 (proj2 (get_ensemble_retriever_hybrid
                                  (fun _ _ => Returned Samples.retriever_abc)
                                  (fun _ _ => Returned Samples.retriever_ca)
                                  [Samples.docA] 5))))
             Samples.retriever_abc Samples.retriever_ca);
      [lia | reflexivity | reflexivity].
Defined.


(** ** Reranking: edge cases *)

Section RerankEdgeFacts.
Import Rerank.

Lemma score_docs_short (scores : list pyfloat) (docs : list Document) :
  forall (n : nat) (scored : list (Document * Q)),
    (n <= length scores)%nat ->
    (length scores < n + length docs)%nat ->
    score_docs scores (enumerate_from n docs) scored = Raised IndexError.
Proof.
  induction docs as [|doc docs IH]; intros n scored Hn Hshort; simpl in *; [lia|].
  destruct (scores !! n) as [s|] eqn:Hs; [|done].
  apply lookup_lt_Some in Hs. apply IH; lia.
Qed.
End RerankEdgeFacts.

Section SliceFacts.

Lemma StronglySorted_app_related {A : Type} (R : A -> A -> Prop) (l1 l2 : list A)
    (x y : A) :
  StronglySorted R (l1 ++ l2) -> x ∈ l1 -> y ∈ l2 -> R x y.
Proof.
  induction l1 as [|z l1 IH]; [by intros _ ?%elem_of_nil|].
  simpl. intros Hs. apply StronglySorted_inv in Hs as [Hs Hall].
  rewrite Forall_forall in Hall.
  intros [->|Hx]%elem_of_cons Hy.
  - apply Hall, elem_of_app. by right.
  - by apply IH.
Qed.
End SliceFacts.

(** X24. Edge cases of [rerank_documents]. When the model returns fewer
    scores than there are candidates, the call fails with an [IndexError].
    With enough scores and a negative [top_k], the slice counts from the
    end: the result is the list of all scored candidates in stable
    descending order of score without its last [-top_k] entries (without
    all of them when there are fewer), so the documents left out are
    lowest-ranked ones: none of them scores higher than a returned
    document, and [max(0, len(documents) + top_k)] documents are
    returned. *)
Theorem rerank_documents_edge_cases
    (predict : list (string * string) -> list Rerank.pyfloat)
    (query : string) (documents : list Document) (top_k : Z) :
  let scores := predict (map (fun doc => (query, page_content doc)) documents) in
  ((length scores < length documents)%nat ->
   Rerank.rerank_documents predict query documents top_k = Raised IndexError)
  /\ ((length documents <= length scores)%nat ->
      top_k < 0 ->
      exists out dropped : list (Document * Q),
        Rerank.rerank_documents predict query documents top_k = Returned out
        /\ out ++ dropped = sorted_desc snd (Rerank.scored_input predict query documents)
        /\ out ++ dropped ≡ₚ Rerank.scored_input predict query documents
        /\ StronglySorted (desc snd) (out ++ dropped)
        /\ Z.of_nat (length dropped) = Z.min (Z.of_nat (length documents)) (- top_k)
        /\ Z.of_nat (length out) = Z.max 0 (Z.of_nat (length documents) + top_k)
        /\ (forall x y, x ∈ out -> y ∈ dropped -> (snd y <= snd x)%Q)
        /\ (forall q : Q,
              with_key snd q out
              `prefix_of` with_key snd q (Rerank.scored_input predict query documents))).
Proof.
  cbn zeta. unfold Rerank.rerank_documents. split.
  - intros Hshort. unfold enumerate. rewrite score_docs_short; [done | lia | by simpl].
  - intros Hlen Hk. rewrite score_docs_enumerate by done. cbn [bind].
    fold (Rerank.scored_input predict query documents).
    set (scored := Rerank.scored_input predict query documents).
    assert (Hsz : length scored = length documents).
    { unfold scored, Rerank.scored_input. rewrite length_combine, length_map. lia. }
    unfold slice_to. rewrite (proj2 (Z.leb_gt 0 top_k) Hk).
    set (n := (length (sorted_desc snd scored) - Z.to_nat (- top_k))%nat).
    exists (take n (sorted_desc snd scored)), (drop n (sorted_desc snd scored)).
    assert (Hn : n = (length documents - Z.to_nat (- top_k))%nat)
      by (unfold n; by rewrite sorted_desc_length, Hsz).
    split; [done|]. rewrite take_drop.
    split; [done|]. split; [apply sorted_desc_perm|].
    split; [apply sorted_desc_sorted|].
    split; [rewrite length_drop, sorted_desc_length, Hsz; lia|].
    split; [rewrite length_take, sorted_desc_length, Hsz; lia|].
    split.
    + intros x y Hx Hy.
      apply (StronglySorted_app_related (desc snd) (take n (sorted_desc snd scored))
               (drop n (sorted_desc snd scored)) x y); [|done..].
      rewrite take_drop. apply sorted_desc_sorted.
    + intros q. rewrite <- (sorted_desc_stable snd q scored).
      apply with_key_firstn_prefix.
Qed.

Lemma rerank_documents_edge_cases_witness :
  Rerank.rerank_documents (fun _ => [Rerank.Num 1]) "q"
    [Samples.docA; Samples.docB] 3
  = Raised IndexError
  /\ exists out dropped : list (Document * Q),
       Rerank.rerank_documents Samples.sample_predict "q"
         [mkDocument "x" ∅; mkDocument "yyy" ∅] (-1) = Returned out
       /\ out ++ dropped
          = sorted_desc snd
              (Rerank.scored_input Samples.sample_predict "q"
                 [mkDocument "x" ∅; mkDocument "yyy" ∅])
       /\ Z.of_nat (length dropped) = 1.
Proof.
  split.
  - apply (proj1 (rerank_documents_edge_cases (fun _ => [Rerank.Num 1]) "q"
                    [Samples.docA; Samples.docB] 3)).
    simpl. lia.
  - destruct (proj2 (rerank_documents_edge_cases Samples.sample_predict "q"
                       [mkDocument "x" ∅; mkDocument "yyy" ∅] (-1)))
      as (out & dropped & Hout & Happ & _ & _ & Hlen & _); [simpl; lia | lia |].
    exists out, dropped. split; [exact Hout|]. split; [exact Happ | exact Hlen].
Defined.
